(** * PPTTranslator: the translation worker and its window

    A shallow embedding of [Traductor.py]: the worker
    [TranslatorThread.run], the percentage it emits, and the handlers of
    [PPTXTranslatorApp].  Python's [float] is IEEE 754 binary64: the
    percentage [int(processed_shapes / total_shapes * 100)] is modelled
    with the Standard Library's executable specification of binary64
    arithmetic ([SpecFloat]).  The document library, the translation
    service and the files are external: they appear as an environment of
    fallible operations and as a world that records what was done.  A
    setter or a save that raises may already have written something: what
    it leaves behind is part of the environment as well. *)

From Stdlib Require Import ZArith Lia List Bool String Ascii Sorted.
From Stdlib Require Import Floats.SpecFloat.
Import ListNotations.

Local Open Scope string_scope.
Local Open Scope Z_scope.
Local Open Scope list_scope.

(** * Part I: the program *)

Inductive outcome (A : Type) : Type :=
| Ok (a : A)
| Raise (msg : string).
Arguments Ok {A} a.
Arguments Raise {A} msg.

Module PyFloat.
Definition prec : Z := 53.
Definition emax : Z := 1024.
Definition sign_magnitude (a : Z) : option (bool * positive) :=
  match a with
  | Z0 => None
  | Zpos p => Some (false, p)
  | Zneg p => Some (true, p)
  end.
Definition int_truediv (a b : Z) : outcome spec_float :=
  match sign_magnitude b with
  | None => Raise "division by zero"
  | Some (sb, mb) =>
    match sign_magnitude a with
    | None => Ok (S754_zero sb)
    | Some (sa, ma) =>
      match SFdiv prec emax (S754_finite sa ma 0) (S754_finite sb mb 0) with
      | S754_infinity _ | S754_nan =>
          Raise "integer division result too large for a float"
      | q => Ok q
      end
    end
  end.
Definition of_int (n : Z) : spec_float := binary_normalize prec emax n 0 false.
Definition hundred : spec_float := Eval vm_compute in of_int 100.
Definition mul_int100 (x : spec_float) : spec_float := SFmul prec emax x hundred.
Definition to_int (x : spec_float) : outcome Z :=
  match x with
  | S754_zero _ => Ok 0
  | S754_finite s m e =>
      let v := match e with
               | Zneg k => Z.quot (Zpos m) (2 ^ Zpos k)
               | _ => Zpos m * 2 ^ e
               end in
      Ok (if s then - v else v)
  | S754_infinity _ => Raise "cannot convert float infinity to integer"
  | S754_nan => Raise "cannot convert float NaN to integer"
  end.
End PyFloat.

Definition percentage (processed_shapes total_shapes : Z) : outcome Z :=
  match PyFloat.int_truediv processed_shapes total_shapes with
  | Raise msg => Raise msg
  | Ok q => PyFloat.to_int (PyFloat.mul_int100 q)
  end.

(** ** Python strings *)

(** [str.isspace] on one character (code points below 256). *)
Definition isspace (c : ascii) : bool :=
  let n := nat_of_ascii c in
  ((9 <=? n) && (n <=? 13) || (28 <=? n) && (n <=? 32) || (n =? 133) || (n =? 160))%nat.

Fixpoint lstrip (s : string) : string :=
  match s with
  | EmptyString => EmptyString
  | String c s' => if isspace c then lstrip s' else s
  end.

Fixpoint rstrip (s : string) : string :=
  match s with
  | EmptyString => EmptyString
  | String c s' =>
      match rstrip s' with
      | EmptyString => if isspace c then EmptyString else String c EmptyString
      | r => String c r
      end
  end.

(** [s.strip()] *)
Definition strip (s : string) : string := rstrip (lstrip s).

(** Truth value of a string in a condition: non-empty. *)
Definition truthy (s : string) : bool := negb (s =? "")%string.

(** ["\n".join(l)] *)
Definition newline : string := String (ascii_of_nat 10) EmptyString.
Definition join_lines (l : list string) : string := String.concat newline l.

(** [s.split("\n")] *)
Fixpoint split_lines (s : string) : list string :=
  match s with
  | EmptyString => [EmptyString]
  | String c s' =>
      if Ascii.eqb c (ascii_of_nat 10) then EmptyString :: split_lines s'
      else match split_lines s' with
           | l :: ls => String c l :: ls
           | [] => [String c EmptyString]
           end
  end.

(** ** The document, as the worker sees python-pptx objects *)

Record paragraph := { p_text : string }.

Record text_frame_obj := { paragraphs : list paragraph }.

(** [text_frame.text]: the paragraphs' text joined by line feeds. *)
Definition tf_text (tf : text_frame_obj) : string :=
  join_lines (map p_text (paragraphs tf)).

(** A shape has a [text] attribute, a [text_frame] attribute, both or
    neither: [hasattr(shape, "text")] is [text sh <> None]. *)
Record shape := { text : option string; text_frame : option text_frame_obj }.

Record slide := { shapes : list shape }.

Record presentation := { slides : list slide }.

(** [text_frame.text = t]: the frame is emptied and gets one paragraph
    per line of [t]. *)
Definition frame_of_text (t : string) : text_frame_obj :=
  {| paragraphs := map Build_paragraph (split_lines t) |}.

(** [shape.text = t].  A shape keeps its text in its text frame, so the
    setter is the one of the frame: a shape that has a frame gets it
    rewritten. *)
Definition set_shape_text (sh : shape) (t : string) : shape :=
  {| text := Some t;
     text_frame := option_map (fun _ => frame_of_text t) (text_frame sh) |}.

(** A shape whose text frame, if it has one, holds the paragraphs [l];
    [shape.text] reads them joined by line feeds. *)
Definition with_lines (sh : shape) (l : list string) : shape :=
  {| text := Some (join_lines l);
     text_frame := option_map (fun _ => {| paragraphs := map Build_paragraph l |})
                              (text_frame sh) |}.

Definition set_paragraphs (sh : shape) (ps : list paragraph) : shape :=
  {| text := text sh; text_frame := Some {| paragraphs := ps |} |}.

(** ** Notifications, effects and the world *)

Inductive signal :=
| Progress (value : Z)
| Finished
| Error (message : string).

Inductive event :=
| EvConstruct (source target : string)
| EvOpen (path : string)
| EvTranslate (text : string)
| EvPrint (line : string)
| EvEmit (s : signal)
| EvSave (path : string).

(** The notifications among some events, oldest first. *)
Definition signals_of (l : list event) : list signal :=
  flat_map (fun ev => match ev with EvEmit s => [s] | _ => [] end) l.

(** Two paths that name the same file: the same string, or two names
    that the file system resolves to one file ([alias]). *)
Definition same_file (alias : string -> string -> bool) (p q : string) : bool :=
  (p =? q)%string || alias p q.

(** The file system after the file that [path] names was given the
    content [c]: what opening a path gives, for every path. *)
Definition put_file (alias : string -> string -> bool)
    (f : string -> outcome presentation) (path : string)
    (c : outcome presentation) : string -> outcome presentation :=
  fun p => if same_file alias p path then c else f p.

(** The file system after [prs] was written to [path]. *)
Definition write_file (alias : string -> string -> bool)
    (f : string -> outcome presentation) (path : string)
    (prs : presentation) : string -> outcome presentation :=
  put_file alias f path (Ok prs).

(** [TranslatorThread]'s fields. *)
Record job := {
  input_file : string;
  output_file : string;
  source : string;
  target : string
}.

(** A [GoogleTranslator] object. *)
Record translator_obj := { t_source : string; t_target : string }.

Section World.
(** State of the translation service. *)
Context {T : Type}.

(** The external collaborators: each may fail with a message.  A
    [text] setter raises on the texts that [assign_error] tells;
    [residue old t] is the text that the setter of a paragraph that
    held [old] leaves in it when it raises on [t], and [lines_left old t]
    are the paragraphs that the setter of a shape leaves in it.
    [save_leaves path] is what a save that raises leaves in the file
    ([None]: the file is as it was); [alias] tells which paths name the
    same file. *)
Record env := {
  construct_error : string -> string -> option string;
  service : string -> string -> T -> string -> outcome string * T;
  assign_error : string -> option string;
  residue : string -> string -> string;
  lines_left : string -> string -> list string;
  save_error : string -> option string;
  save_leaves : string -> option (outcome presentation);
  alias : string -> string -> bool
}.

Record world := {
  fs : string -> outcome presentation;
  svc : T;
  log : list event
}.

Definition M (A : Type) : Type := world -> outcome A * world.

Definition ret {A} (a : A) : M A := fun w => (Ok a, w).

Definition bind {A B} (m : M A) (k : A -> M B) : M B :=
  fun w => match m w with
           | (Ok a, w') => k a w'
           | (Raise msg, w') => (Raise msg, w')
           end.

Definition raise {A} (msg : string) : M A := fun w => (Raise msg, w).

(** [try: m except Exception as e: h(str(e))] *)
Definition try_except {A} (m : M A) (h : string -> M A) : M A :=
  fun w => match m w with
           | (Ok a, w') => (Ok a, w')
           | (Raise msg, w') => h msg w'
           end.

(** Runs [m] and hands back how it ended. *)
Definition attempt {A} (m : M A) : M (outcome A) :=
  fun w => let (r, w') := m w in (Ok r, w').

Definition lift {A} (r : outcome A) : M A := fun w => (r, w).

Definition tell (ev : event) : M unit :=
  fun w => (Ok tt, {| fs := fs w; svc := svc w; log := log w ++ [ev] |}).
End World.

Arguments env T : clear implicits.
Arguments world T : clear implicits.
Arguments M T A : clear implicits.

Declare Scope monad_scope.
Delimit Scope monad_scope with monad.
Notation "x <- m ;; k" := (bind m (fun x => k))
  (at level 61, m at next level, right associativity) : monad_scope.
Notation "' pat <- m ;; k" := (bind m (fun x => match x with pat => k end))
  (at level 61, pat pattern, m at next level, right associativity) : monad_scope.
Notation "m ;; k" := (bind m (fun _ => k))
  (at level 61, right associativity) : monad_scope.
Local Open Scope monad_scope.

Section Worker.
Context {T : Type} (E : env T).

Definition emit (s : signal) : M T unit := tell (EvEmit s).

Definition print (line : string) : M T unit := tell (EvPrint line).

(** [GoogleTranslator(source=..., target=...)] *)
Definition GoogleTranslator (src tgt : string) : M T translator_obj :=
  tell (EvConstruct src tgt) ;;
  match construct_error E src tgt with
  | Some msg => raise msg
  | None => ret {| t_source := src; t_target := tgt |}
  end.

(** [Presentation(path)] *)
Definition Presentation (path : string) : M T presentation :=
  tell (EvOpen path) ;;
  fun w => (fs w path, w).

(** [translator.translate(text)] *)
Definition translate (tr : translator_obj) (s : string) : M T string :=
  tell (EvTranslate s) ;;
  fun w => let (r, st) := service E (t_source tr) (t_target tr) (svc w) s in
           (r, {| fs := fs w; svc := st; log := log w |}).

(** [paragraph.text = t].  The setter writes in place: the paragraph as
    it is afterwards is returned together with the exception, if the
    setter raised. *)
Definition assign_paragraph (p : paragraph) (t : string)
  : M T (paragraph * option string) :=
  match assign_error E t with
  | Some msg => ret ({| p_text := residue E (p_text p) t |}, Some msg)
  | None => ret ({| p_text := t |}, None)
  end.

(** [shape.text = t], on a shape whose text is [s]. *)
Definition assign_shape (sh : shape) (s t : string) : M T (shape * option string) :=
  match assign_error E t with
  | Some msg => ret (with_lines sh (lines_left E s t), Some msg)
  | None => ret (set_shape_text sh t, None)
  end.

(** The file that [path] names gets the content [c]. *)
Definition store (path : string) (c : outcome presentation) : M T unit :=
  fun w => (Ok tt, {| fs := put_file (alias E) (fs w) path c; svc := svc w;
                      log := log w |}).

(** [prs.save(path)] *)
Definition save (prs : presentation) (path : string) : M T unit :=
  tell (EvSave path) ;;
  match save_error E path with
  | Some msg =>
      match save_leaves E path with
      | Some c => store path c ;; raise msg
      | None => raise msg
      end
  | None => store path (Ok prs)
  end.

(** The paragraph loop.  The paragraphs are mutated in place, so the
    list as mutated so far is returned together with the exception
    that left the loop, if any. *)
Fixpoint for_paragraphs (tr : translator_obj) (ps : list paragraph)
  : M T (list paragraph * option string) :=
  match ps with
  | [] => ret ([], None)
  | p :: rest =>
      if truthy (strip (p_text p)) then
        r <- attempt (translate tr (p_text p)) ;;
        match r with
        | Ok t =>
            '(p', exn) <- assign_paragraph p t ;;
            match exn with
            | None =>
                '(rest', exn') <- for_paragraphs tr rest ;;
                ret (p' :: rest', exn')
            | Some msg => ret (p' :: rest, Some msg)
            end
        | Raise msg => ret (p :: rest, Some msg)
        end
      else
        '(rest', exn) <- for_paragraphs tr rest ;;
        ret (p :: rest', exn)
  end.

(** The body of the inner [try]: the shape as mutated, and the
    exception that left the body, if any. *)
Definition shape_body (tr : translator_obj) (sh : shape)
  : M T (shape * option string) :=
  match text sh with
  | Some s =>
      if truthy (strip s) then
        r <- attempt (translate tr s) ;;
        match r with
        | Ok t => assign_shape sh s t
        | Raise msg => ret (sh, Some msg)
        end
      else ret (sh, None)
  | None =>
      match text_frame sh with
      | Some tf =>
          if truthy (strip (tf_text tf)) then
            '(ps, exn) <- for_paragraphs tr (paragraphs tf) ;;
            ret (set_paragraphs sh ps, exn)
          else ret (sh, None)
      | None => ret (sh, None)
      end
  end.

(** [try: ... except Exception as shape_error: print(...)] *)
Definition process_shape (tr : translator_obj) (sh : shape) : M T shape :=
  '(sh', exn) <- shape_body tr sh ;;
  match exn with
  | Some msg => print ("Error processing shape: " ++ msg)%string ;; ret sh'
  | None => ret sh'
  end.

(** [for shape in slide.shapes] *)
Fixpoint for_shapes (tr : translator_obj) (total_shapes : Z)
    (shs : list shape) (processed_shapes : Z) : M T (list shape * Z) :=
  match shs with
  | [] => ret ([], processed_shapes)
  | sh :: rest =>
      sh' <- process_shape tr sh ;;
      let processed_shapes := processed_shapes + 1 in
      v <- lift (percentage processed_shapes total_shapes) ;;
      emit (Progress v) ;;
      '(rest', n) <- for_shapes tr total_shapes rest processed_shapes ;;
      ret (sh' :: rest', n)
  end.

(** [for slide in prs.slides] *)
Fixpoint for_slides (tr : translator_obj) (total_shapes : Z)
    (sls : list slide) (processed_shapes : Z) : M T (list slide * Z) :=
  match sls with
  | [] => ret ([], processed_shapes)
  | sl :: rest =>
      '(shs', n) <- for_shapes tr total_shapes (shapes sl) processed_shapes ;;
      '(rest', n') <- for_slides tr total_shapes rest n ;;
      ret ({| shapes := shs' |} :: rest', n')
  end.

Definition len {A} (l : list A) : Z := Z.of_nat (List.length l).

Definition sum (l : list Z) : Z := fold_right Z.add 0 l.

(** [TranslatorThread.run] *)
Definition run (self : job) : M T unit :=
  try_except
    (translator <- GoogleTranslator (source self) (target self) ;;
     prs <- Presentation (input_file self) ;;
     let total_shapes := sum (map (fun sl => len (shapes sl)) (slides prs)) in
     '(sls, _) <- for_slides translator total_shapes (slides prs) 0 ;;
     save {| slides := sls |} (output_file self) ;;
     emit Finished)
    (fun e => emit (Error e)).
End Worker.

(** ** The application window *)

(** The window's methods that are connected to the worker's signals. *)
Inductive slot := update_progress_slot | translation_finished_slot | translation_error_slot.

(** A [TranslatorThread] object with its connections. *)
Record thread_obj := {
  th_job : job;
  progress_connections : list slot;
  finished_connections : list slot;
  error_connections : list slot
}.

Inductive dialog :=
| Warning (title body : string)
| Information (title body : string)
| Critical (title body : string).

Record window := {
  input_file_label : string;
  output_file_label : string;
  source_lang : string;
  target_lang : string;
  progress_bar : Z;
  translate_button : bool;
  thread : option thread_obj;
  dialogs : list dialog;
  inbox : list signal
}.

Definition no_input : string := "No input file selected".
Definition no_output : string := "No output file selected".

(** [initUI] *)
Definition initUI : window :=
  {| input_file_label := no_input;
     output_file_label := no_output;
     source_lang := "en";
     target_lang := "es";
     progress_bar := -1;
     translate_button := true;
     thread := None;
     dialogs := [];
     inbox := [] |}.

Definition set_input_file_label (self : window) (s : string) : window :=
  {| input_file_label := s; output_file_label := output_file_label self;
     source_lang := source_lang self; target_lang := target_lang self;
     progress_bar := progress_bar self; translate_button := translate_button self;
     thread := thread self; dialogs := dialogs self; inbox := inbox self |}.

Definition set_output_file_label (self : window) (s : string) : window :=
  {| input_file_label := input_file_label self; output_file_label := s;
     source_lang := source_lang self; target_lang := target_lang self;
     progress_bar := progress_bar self; translate_button := translate_button self;
     thread := thread self; dialogs := dialogs self; inbox := inbox self |}.

Definition set_progress (self : window) (v : Z) : window :=
  {| input_file_label := input_file_label self;
     output_file_label := output_file_label self;
     source_lang := source_lang self; target_lang := target_lang self;
     progress_bar := v; translate_button := translate_button self;
     thread := thread self; dialogs := dialogs self; inbox := inbox self |}.

Definition set_enabled (self : window) (b : bool) : window :=
  {| input_file_label := input_file_label self;
     output_file_label := output_file_label self;
     source_lang := source_lang self; target_lang := target_lang self;
     progress_bar := progress_bar self; translate_button := b;
     thread := thread self; dialogs := dialogs self; inbox := inbox self |}.

Definition set_thread (self : window) (th : thread_obj) : window :=
  {| input_file_label := input_file_label self;
     output_file_label := output_file_label self;
     source_lang := source_lang self; target_lang := target_lang self;
     progress_bar := progress_bar self; translate_button := translate_button self;
     thread := Some th; dialogs := dialogs self; inbox := inbox self |}.

Definition show (self : window) (d : dialog) : window :=
  {| input_file_label := input_file_label self;
     output_file_label := output_file_label self;
     source_lang := source_lang self; target_lang := target_lang self;
     progress_bar := progress_bar self; translate_button := translate_button self;
     thread := thread self; dialogs := dialogs self ++ [d]; inbox := inbox self |}.

Definition set_inbox (self : window) (q : list signal) : window :=
  {| input_file_label := input_file_label self;
     output_file_label := output_file_label self;
     source_lang := source_lang self; target_lang := target_lang self;
     progress_bar := progress_bar self; translate_button := translate_button self;
     thread := thread self; dialogs := dialogs self; inbox := q |}.

(** [select_input_file]; [file_name] is what the file dialog returned,
    empty when it was cancelled. *)
Definition select_input_file (self : window) (file_name : string) : window :=
  if truthy file_name then set_input_file_label self file_name else self.

Definition select_output_file (self : window) (file_name : string) : window :=
  if truthy file_name then set_output_file_label self file_name else self.

Definition update_progress (self : window) (value : Z) : window :=
  set_progress self value.

Definition translation_finished (self : window) : window :=
  show (set_enabled self true)
       (Information "Success"
          ("Translation completed. File saved as: " ++ output_file_label self)%string).

Definition translation_error (self : window) (error_message : string) : window :=
  show (set_enabled self true)
       (Critical "Error"
          ("An error occurred during translation: " ++ error_message)%string).

Definition events_since {T} (w w' : world T) : list event :=
  skipn (List.length (log w)) (log w').

Section Window.
Context {T : Type} (E : env T).

(** [thread.start()]: the worker runs against the world; what it emits
    is queued for the window, in emission order. *)
Definition start (self : window) (th : thread_obj) (w : world T) : window * world T :=
  let w' := snd (run E (th_job th) w) in
  (set_inbox self (inbox self ++ signals_of (events_since w w')), w').

(** [translate_pptx] *)
Definition translate_pptx (self : window) (w : world T) : window * world T :=
  let input_file := input_file_label self in
  let output_file := output_file_label self in
  if (input_file =? no_input)%string || (output_file =? no_output)%string then
    (show self (Warning "Error" "Please select both input and output files."), w)
  else
    let source := source_lang self in
    let target := target_lang self in
    let th := {| th_job := {| input_file := input_file; output_file := output_file;
                              source := source; target := target |};
                 progress_connections := [update_progress_slot];
                 finished_connections := [translation_finished_slot];
                 error_connections := [translation_error_slot] |} in
    let self := set_thread self th in
    let self := set_enabled self false in
    let self := set_progress self 0 in
    start self th w.
End Window.

(** Calling a connected method with the signal's arguments. *)
Definition call_slot (self : window) (sl : slot) (s : signal) : window :=
  match sl, s with
  | update_progress_slot, Progress v => update_progress self v
  | translation_finished_slot, Finished => translation_finished self
  | translation_error_slot, Error msg => translation_error self msg
  | _, _ => self
  end.

Definition connections (th : thread_obj) (s : signal) : list slot :=
  match s with
  | Progress _ => progress_connections th
  | Finished => finished_connections th
  | Error _ => error_connections th
  end.

(** Delivery of one queued notification to the window. *)
Definition deliver (self : window) (s : signal) : window :=
  match thread self with
  | Some th => fold_left (fun win sl => call_slot win sl s) (connections th s) self
  | None => self
  end.

(** The event loop handles everything queued, oldest first. *)
Definition process_events (self : window) : window :=
  fold_left deliver (inbox self) (set_inbox self []).

(** * Part II: definitions used in the statements and in the proofs *)

Definition scode (a d : Z) : Z := 2 * (a / d) + (if a mod d =? 0 then 0 else 1).

Definition rne (c : Z) : Z :=
  c / 4 + (if c mod 4 =? 3 then 1
           else if c mod 4 =? 2 then (if Z.even (c / 4) then 0 else 1)
           else 0).

Definition rcode (t : shr_record) : Z :=
  4 * shr_m t + (if shr_r t then 2 else 0) + (if shr_s t then 1 else 0).

Definition lcode (m : Z) (l : location) : Z := rcode (shr_record_of_loc m l).

Definition SFval (B : Z) (f : spec_float) : Z :=
  match f with
  | S754_finite false m e => Zpos m * 2 ^ (e + B)
  | _ => 0
  end.

Definition rounded_to (f : spec_float) (M E : Z) : Prop :=
  (M = 0 /\ f = S754_zero false) \/
  (exists mo eo, f = S754_finite false mo eo
     /\ Zpos mo * 2 ^ (eo - E) = M /\ E <= eo <= E + 1 /\ Zpos mo < 2 ^ 53).

(** The pieces of [p / N] for [1 <= p <= N]: the scaling [s], the scaled
    numerator [a] (twice it, for the rounding bit) and the exponent [E]. *)
Definition div_s (p N : positive) : Z :=
  - fexp 53 1024 (Zdigits2 (Zpos p) - Zdigits2 (Zpos N)).
Definition div_a (p N : positive) : Z := 2 * (Zpos p * 2 ^ div_s p N).
Definition div_E (p N : positive) : Z :=
  fexp 53 1024 (Zdigits2 (div_a p N / (2 * Zpos N)) - div_s p N).
Definition div_M (p N : positive) : Z :=
  rne (scode (div_a p N) (Zpos N * 2 ^ (div_E p N + div_s p N))).

Definition fdiv (p N : positive) : spec_float :=
  SFdiv 53 1024 (S754_finite false p 0) (S754_finite false N 0).

(** [100.0] *)
Definition C100 : positive := 7036874417766400.
Definition hundred : spec_float := S754_finite false C100 (-46).

Definition mul_E (mo : positive) (eo : Z) : Z :=
  fexp 53 1024 (Zdigits2 (2 * (Zpos mo * Zpos C100) / (2 * 1)) + (eo - 46)).
Definition mul_M (mo : positive) (eo : Z) : Z :=
  rne (scode (2 * (Zpos mo * Zpos C100)) (1 * 2 ^ (mul_E mo eo - (eo - 46)))).

Definition mul100 (f : spec_float) : spec_float := SFmul 53 1024 f hundred.

(** The value of the percentage, for positive arguments. *)
Definition pct (p N : positive) : Z := SFval 1120 (mul100 (fdiv p N)) / 2 ^ 1120.

(** Only white space. *)
Fixpoint blank (s : string) : bool :=
  match s with
  | EmptyString => true
  | String c s' => isspace c && blank s'
  end.

Definition sent_of (l : list event) : list string :=
  flat_map (fun ev => match ev with EvTranslate s => [s] | _ => [] end) l.

(** Events of the inner [try] block and its handler. *)
Definition local (ev : event) : Prop :=
  match ev with EvTranslate _ | EvPrint _ => True | _ => False end.

(** Events of the two loops. *)
Definition in_loop (ev : event) : Prop :=
  match ev with
  | EvTranslate _ | EvPrint _ | EvEmit (Progress _) => True
  | _ => False
  end.

Definition nonblank (s : string) : bool := negb (blank s).

Inductive prefix {A} : list A -> list A -> Prop :=
| prefix_nil l : prefix [] l
| prefix_cons x l l' : prefix l l' -> prefix (x :: l) (x :: l').

Section Call.
Context {T : Type} (E : env T).

(** With the service in state [st], the text [s] is translated to [t]
    and the setter takes [t]; the service is left in state [st']. *)
Definition call_ok (tr : translator_obj) (st : T) (s t : string) (st' : T) : Prop :=
  service E (t_source tr) (t_target tr) st s = (Ok t, st')
  /\ assign_error E t = None.

(** Translating the paragraph [p] and assigning the result raises
    [msg] and leaves the paragraph as [p']: either the translator
    raises, and then the paragraph is not touched, or the setter raises,
    and then the paragraph holds what the setter left in it. *)
Definition call_fails (tr : translator_obj) (st : T) (p : paragraph) (msg : string)
    (p' : paragraph) (st' : T) : Prop :=
  (service E (t_source tr) (t_target tr) st (p_text p) = (Raise msg, st') /\ p' = p)
  \/ (exists t, service E (t_source tr) (t_target tr) st (p_text p) = (Ok t, st')
                /\ assign_error E t = Some msg
                /\ p' = {| p_text := residue E (p_text p) t |}).

(** [translated_all tr st ps ps' st']: starting with the service in
    state [st], each paragraph of [ps] with non-blank text was
    translated on its own, in order, and holds its translation in
    [ps']; the others are as they were; no call and no assignment
    raised; the service is left in state [st']. *)
Inductive translated_all (tr : translator_obj)
  : T -> list paragraph -> list paragraph -> T -> Prop :=
| translated_nil st : translated_all tr st [] [] st
| translated_skip st p ps ps' st' :
    blank (p_text p) = true ->
    translated_all tr st ps ps' st' ->
    translated_all tr st (p :: ps) (p :: ps') st'
| translated_next st p t st1 ps ps' st' :
    blank (p_text p) = false ->
    call_ok tr st (p_text p) t st1 ->
    translated_all tr st1 ps ps' st' ->
    translated_all tr st (p :: ps) ({| p_text := t |} :: ps') st'.

(** What the paragraph loop did when it was left by an exception with
    message [msg]: the paragraphs before the failing one were
    translated, the failing one is as the failed step left it, and the
    ones after it were neither sent nor touched. *)
Definition stopped_at (tr : translator_obj) (st : T) (ps ps' : list paragraph)
    (sent : list string) (msg : string) (st' : T) : Prop :=
  exists pre pre' p post p' st1,
    ps = pre ++ p :: post
    /\ translated_all tr st pre pre' st1
    /\ blank (p_text p) = false
    /\ call_fails tr st1 p msg p' st'
    /\ ps' = pre' ++ p' :: post
    /\ sent = filter nonblank (map p_text pre) ++ [p_text p].
End Call.

Definition pctZ (p N : Z) : Z := pct (Z.to_pos p) (Z.to_pos N).

(** The percentages emitted for shapes [from + 1 .. from + n]. *)
Definition progress_values (total from : Z) (n : nat) : list Z :=
  map (fun k => pctZ (from + Z.of_nat k) total) (seq 1 n).

Definition frame_paragraphs (sh : shape) : list paragraph :=
  match text_frame sh with
  | Some tf => paragraphs tf
  | None => []
  end.

(** The first text of a shape that the worker sends to the translator. *)
Definition first_text (sh : shape) : option string :=
  match text sh with
  | Some s => if nonblank s then Some s else None
  | None => hd_error (filter nonblank (map p_text (frame_paragraphs sh)))
  end.

Definition all_shapes (prs : presentation) : list shape :=
  flat_map shapes (slides prs).

Definition total_units (prs : presentation) : Z :=
  sum (map (fun sl => len (shapes sl)) (slides prs)).

Definition terminal (s : signal) : Prop := s = Finished \/ exists msg, s = Error msg.

Section RunDefs.
Context {T : Type} (E : env T).

Definition run_world (j : job) (w : world T) : world T := snd (run E j w).

(** What one run adds to the log, and the notifications in it. *)
Definition trace (j : job) (w : world T) : list event :=
  events_since w (run_world j w).

Definition notifications (j : job) (w : world T) : list signal :=
  signals_of (trace j w).

(** The file system after a save to [path] that raised. *)
Definition spoiled (f : string -> outcome presentation) (path : string)
  : string -> outcome presentation :=
  match save_leaves E path with
  | Some c => put_file (alias E) f path c
  | None => f
  end.

(** The events of the two loops over a document. *)
Definition loop_events (prs : presentation) (evs : list event) : Prop :=
  Forall in_loop evs
  /\ signals_of evs
     = map Progress (progress_values (total_units prs) 0 (List.length (all_shapes prs)))
  /\ (forall sh s, In sh (all_shapes prs) -> first_text sh = Some s ->
                   In (EvTranslate s) evs)
  /\ (all_shapes prs = [] -> evs = []).

(** The four ways a run can go. *)
Inductive run_view (j : job) (w : world T) : Prop :=
| view_construct msg :
    construct_error E (source j) (target j) = Some msg ->
    trace j w = [EvConstruct (source j) (target j); EvEmit (Error msg)] ->
    fs (run_world j w) = fs w ->
    run_view j w
| view_open msg :
    construct_error E (source j) (target j) = None ->
    fs w (input_file j) = Raise msg ->
    trace j w = [EvConstruct (source j) (target j); EvOpen (input_file j);
                 EvEmit (Error msg)] ->
    fs (run_world j w) = fs w ->
    run_view j w
| view_save prs evs msg :
    construct_error E (source j) (target j) = None ->
    fs w (input_file j) = Ok prs ->
    save_error E (output_file j) = Some msg ->
    loop_events prs evs ->
    trace j w = [EvConstruct (source j) (target j); EvOpen (input_file j)]
                ++ evs ++ [EvSave (output_file j); EvEmit (Error msg)] ->
    fs (run_world j w) = spoiled (fs w) (output_file j) ->
    run_view j w
| view_finished prs evs sls :
    construct_error E (source j) (target j) = None ->
    fs w (input_file j) = Ok prs ->
    save_error E (output_file j) = None ->
    loop_events prs evs ->
    trace j w = [EvConstruct (source j) (target j); EvOpen (input_file j)]
                ++ evs ++ [EvSave (output_file j); EvEmit Finished] ->
    fs (run_world j w)
    = write_file (alias E) (fs w) (output_file j) {| slides := sls |} ->
    run_view j w.
End RunDefs.

(** Concrete collaborators and documents, used for the examples. *)

Module Scenario.

Definition stub_service (src tgt : string) (st : unit) (s : string)
  : outcome string * unit :=
  if (s =? "Hello")%string then (Ok "Hola", st)
  else if (s =? "boom")%string then (Raise "quota exceeded", st)
  else (Ok ("<" ++ s ++ ">")%string, st).

Definition online : env unit :=
  {| construct_error := fun _ _ => None;
     service := stub_service;
     assign_error := fun _ => None;
     residue := fun _ _ => "";
     lines_left := fun _ _ => [];
     save_error := fun _ => None;
     save_leaves := fun _ => None;
     alias := fun _ _ => false |}.

Definition read_only : env unit :=
  {| construct_error := fun _ _ => None;
     service := stub_service;
     assign_error := fun _ => None;
     residue := fun _ _ => "";
     lines_left := fun _ _ => [];
     save_error := fun _ => Some "Permission denied";
     save_leaves := fun _ => None;
     alias := fun _ _ => false |}.

Definition disk (prs : presentation) : world unit :=
  {| fs := fun p => if (p =? "in.pptx")%string then Ok prs
                    else Raise "Package not found";
     svc := tt;
     log := [] |}.

Definition the_job : job :=
  {| input_file := "in.pptx"; output_file := "out.pptx";
     source := "en"; target := "es" |}.

Definition in_place : job :=
  {| input_file := "in.pptx"; output_file := "in.pptx";
     source := "en"; target := "es" |}.

Definition picture : shape := {| text := None; text_frame := None |}.

Definition text_box (s : string) : shape := {| text := Some s; text_frame := None |}.

Definition framed (l : list string) : shape :=
  {| text := None; text_frame := Some {| paragraphs := map Build_paragraph l |} |}.

Definition deck (shs : list shape) : presentation :=
  {| slides := [{| shapes := shs |}] |}.

End Scenario.

Definition errors_of (l : list signal) : list signal :=
  filter (fun s => match s with Error _ => true | _ => false end) l.

(** An exception escapes translator construction, opening the document
    or saving it. *)
Definition fatal {T} (E : env T) (j : job) (w : world T) (msg : string) : Prop :=
  construct_error E (source j) (target j) = Some msg
  \/ (construct_error E (source j) (target j) = None
      /\ fs w (input_file j) = Raise msg)
  \/ (construct_error E (source j) (target j) = None
      /\ (exists prs, fs w (input_file j) = Ok prs)
      /\ save_error E (output_file j) = Some msg).

(** The job and the thread object that [translate_pptx] builds. *)
Definition job_of (self : window) : job :=
  {| input_file := input_file_label self; output_file := output_file_label self;
     source := source_lang self; target := target_lang self |}.

Definition thread_of (self : window) : thread_obj :=
  {| th_job := job_of self;
     progress_connections := [update_progress_slot];
     finished_connections := [translation_finished_slot];
     error_connections := [translation_error_slot] |}.

(** ** Definitions for the further properties *)

(** The texts of a shape that the worker has to send to the translator. *)
Definition texts_of_shape (sh : shape) : list string :=
  match text sh with
  | Some s => if nonblank s then [s] else []
  | None => filter nonblank (map p_text (frame_paragraphs sh))
  end.

Definition texts_of (prs : presentation) : list string :=
  flat_map texts_of_shape (all_shapes prs).

(** What processing keeps of a shape [sh]: its attributes; the number
    of paragraphs of its text frame, when it has no direct text; and
    when it has a direct text, it is untouched or the [text] setter ran
    on it, which rewrites a text frame to the lines it was given (all
    of them, or what it had written when it raised). *)
Definition same_layout (sh sh' : shape) : Prop :=
  (text sh = None <-> text sh' = None)
  /\ (text_frame sh = None <-> text_frame sh' = None)
  /\ (text sh = None ->
      List.length (frame_paragraphs sh) = List.length (frame_paragraphs sh'))
  /\ (text sh <> None -> sh' = sh \/ exists l, sh' = with_lines sh l).

Definition same_slides (sls sls' : list slide) : Prop :=
  Forall2 (fun sl sl' => Forall2 same_layout (shapes sl) (shapes sl')) sls sls'.

(** A translator and a text setter that never raise. *)
Definition never_fails {T} (E : env T) : Prop :=
  (forall src tgt st s, exists t st', service E src tgt st s = (Ok t, st'))
  /\ (forall t, assign_error E t = None).

(** What processing one shape does to the shape and to the log. *)
Definition shape_step {T} (E : env T) (sh sh' : shape) (evs : list event) : Prop :=
  Forall local evs
  /\ prefix (sent_of evs) (texts_of_shape sh)
  /\ same_layout sh sh'
  /\ (texts_of_shape sh = [] -> sh' = sh /\ evs = [])
  /\ (never_fails E ->
      sent_of evs = texts_of_shape sh /\ forall line, ~ In (EvPrint line) evs).

(** The texts sent while a list of shapes was processed: shape by shape,
    an initial part of what each shape has to send. *)
Definition sent_in_order (shs : list shape) (sent : list string) : Prop :=
  exists parts, sent = List.concat parts /\ Forall2 prefix parts (map texts_of_shape shs).

(** What the two loops do to the shapes and to the log. *)
Definition loop_steps {T} (E : env T) (shs shs' : list shape) (evs : list event) : Prop :=
  Forall2 same_layout shs shs'
  /\ sent_in_order shs (sent_of evs)
  /\ (flat_map texts_of_shape shs = [] -> shs' = shs /\ sent_of evs = [])
  /\ (never_fails E -> sent_of evs = flat_map texts_of_shape shs
                       /\ forall line, ~ In (EvPrint line) evs).

(** More collaborators for the examples. *)

Module Cases.

Definition unsupported : env unit :=
  {| construct_error := fun _ _ => Some "No support for the provided language.";
     service := Scenario.stub_service;
     assign_error := fun _ => None;
     residue := fun _ _ => "";
     lines_left := fun _ _ => [];
     save_error := fun _ => None;
     save_leaves := fun _ => None;
     alias := fun _ _ => false |}.

Definition echo_service (src tgt : string) (st : nat) (s : string)
  : outcome string * nat :=
  (Ok ("[" ++ s ++ "]")%string, S st).

(** A translator that always answers, and counts its calls. *)
Definition reliable : env nat :=
  {| construct_error := fun _ _ => None;
     service := echo_service;
     assign_error := fun _ => None;
     residue := fun _ _ => "";
     lines_left := fun _ _ => [];
     save_error := fun _ => None;
     save_leaves := fun _ => None;
     alias := fun _ _ => false |}.

Definition disk (prs : presentation) : world nat :=
  {| fs := fun p => if (p =? "in.pptx")%string then Ok prs
                    else Raise "Package not found";
     svc := O;
     log := [] |}.

(** A setter that refuses the text Hola, after it has emptied the
    object. *)
Definition strict : env unit :=
  {| construct_error := fun _ _ => None;
     service := Scenario.stub_service;
     assign_error := fun t => if (t =? "Hola")%string
                              then Some "All strings must be XML compatible"
                              else None;
     residue := fun _ _ => "";
     lines_left := fun _ _ => [];
     save_error := fun _ => None;
     save_leaves := fun _ => None;
     alias := fun _ _ => false |}.

(** A save that raises after it has started to write the file. *)
Definition full_disk : env unit :=
  {| construct_error := fun _ _ => None;
     service := Scenario.stub_service;
     assign_error := fun _ => None;
     residue := fun _ _ => "";
     lines_left := fun _ _ => [];
     save_error := fun _ => Some "No space left on device";
     save_leaves := fun _ => Some (Raise "File is not a zip file");
     alias := fun _ _ => false |}.

(** A file system where [./in.pptx] is another name of [in.pptx]. *)
Definition linked : env unit :=
  {| construct_error := fun _ _ => None;
     service := Scenario.stub_service;
     assign_error := fun _ => None;
     residue := fun _ _ => "";
     lines_left := fun _ _ => [];
     save_error := fun _ => None;
     save_leaves := fun _ => None;
     alias := fun p q => ((p =? "in.pptx") && (q =? "./in.pptx")
                          || (p =? "./in.pptx") && (q =? "in.pptx"))%string |}.

Definition linked_disk (prs : presentation) : world unit :=
  {| fs := fun p => if ((p =? "in.pptx") || (p =? "./in.pptx"))%string then Ok prs
                    else Raise "Package not found";
     svc := tt;
     log := [] |}.

Definition dotted : job :=
  {| input_file := "in.pptx"; output_file := "./in.pptx";
     source := "en"; target := "es" |}.

End Cases.

(** What the user and the event loop can do with the window.  A file
    dialog returns a name (empty when cancelled); the Translate button
    reacts to a click only while it is enabled; the event loop hands the
    oldest queued notification to the window. *)
Inductive ui_action :=
| PickInput (file_name : string)
| PickOutput (file_name : string)
| ClickTranslate
| HandleNext.

Definition handle_next (self : window) : window :=
  match inbox self with
  | [] => self
  | s :: rest => deliver (set_inbox self rest) s
  end.

Definition ui_step {T} (E : env T) (st : window * world T) (a : ui_action)
  : window * world T :=
  let (self, w) := st in
  match a with
  | PickInput file_name => (select_input_file self file_name, w)
  | PickOutput file_name => (select_output_file self file_name, w)
  | ClickTranslate => if translate_button self then translate_pptx E self w else (self, w)
  | HandleNext => (handle_next self, w)
  end.

Definition ui_run {T} (E : env T) (w : world T) (l : list ui_action) : window * world T :=
  fold_left (ui_step E) l (initUI, w).

(** The names the dialogs returned for the input file. *)
Definition picked_inputs (l : list ui_action) : list string :=
  flat_map (fun a => match a with PickInput n => [n] | _ => [] end) l.

Definition picked_outputs (l : list ui_action) : list string :=
  flat_map (fun a => match a with PickOutput n => [n] | _ => [] end) l.

(** How many of the actions hand a queued notification to the window. *)
Definition handles (l : list ui_action) : nat :=
  List.length (filter (fun a => match a with HandleNext => true | _ => false end) l).

(** A label after the file dialogs returned the names [l], oldest
    first: the last name that is not empty, or the label as it was. *)
Definition relabelled (label : string) (l : list string) : string :=
  fold_left (fun cur n => if truthy n then n else cur) l label.

(** The states the window can be in between two actions. *)
Definition idle_or_waiting (self : window) : Prop :=
  (inbox self = [] /\ translate_button self = true)
  \/ (exists vs t, inbox self = map Progress vs ++ [t] /\ terminal t
                   /\ translate_button self = false
                   /\ exists th, thread self = Some th
                        /\ progress_connections th = [update_progress_slot]
                        /\ finished_connections th = [translation_finished_slot]
                        /\ error_connections th = [translation_error_slot]).

Definition label_ok (placeholder label : string) (picked : list string) : Prop :=
  label <> "" /\ (label = placeholder \/ In label picked).

(** The window once the notifications of a started run were handled. *)
Definition after_run {T} (E : env T) (self : window) (w : world T) : window :=
  process_events (fst (translate_pptx E self w)).

(** The window after the event loop handled [n] queued notifications. *)
Definition handled (n : nat) (self : window) : window := Nat.iter n handle_next self.

(** The queue holds the rest of one run, and the bar is not ahead of it. *)
Definition bar_behind_queue (self : window) : Prop :=
  inbox self = []
  \/ exists vs t th,
       inbox self = map Progress vs ++ [t]
       /\ terminal t
       /\ StronglySorted Z.le vs
       /\ Forall (fun v => progress_bar self <= v) vs
       /\ thread self = Some th
       /\ progress_connections th = [update_progress_slot]
       /\ finished_connections th = [translation_finished_slot]
       /\ error_connections th = [translation_error_slot].

(** * Part III: the percentage

    [percentage p N] is the truncation of the correctly rounded product
    of the correctly rounded quotient.  A quantity to round is kept as a
    code: twice the integer part of twice the quantity, plus one when
    something is left below.  Shifting a code to the right and rounding
    it to nearest-even are both monotone, which gives the monotonicity
    of the division, of the multiplication and of the percentage. *)

Lemma scode_two c : scode c 2 = c.
Proof.
  unfold scode. pose proof (Z.div_mod c 2 ltac:(lia)).
  pose proof (Z.mod_pos_bound c 2 ltac:(lia)).
  destruct (Z.eqb_spec (c mod 2) 0); lia.
Qed.

Lemma scode_mono a b d : 0 < d -> a <= b -> scode a d <= scode b d.
Proof.
  intros Hd Hab. unfold scode.
  pose proof (Z.div_le_mono a b d Hd Hab).
  pose proof (Z.div_mod a d ltac:(lia)). pose proof (Z.div_mod b d ltac:(lia)).
  pose proof (Z.mod_pos_bound a d Hd). pose proof (Z.mod_pos_bound b d Hd).
  destruct (Z.eqb_spec (a mod d) 0), (Z.eqb_spec (b mod d) 0); try lia.
  assert (a / d < b / d \/ a / d = b / d) as [?|E] by lia; [lia|].
  rewrite E in *. lia.
Qed.

Lemma scode_scale a d t : 0 < d -> 0 < t -> scode (a * t) (d * t) = scode a d.
Proof.
  intros Hd Ht. unfold scode.
  rewrite Z.div_mul_cancel_r by lia.
  rewrite Z.mul_mod_distr_r by lia.
  destruct (Z.eqb_spec (a mod d) 0), (Z.eqb_spec (a mod d * t) 0); nia.
Qed.

Lemma scode_scode a d d' : 0 < d -> 0 < d' -> scode (scode a d) (2 * d') = scode a (d * d').
Proof.
  intros Hd Hd'.
  change (scode (scode a d) (2 * d')) with
    (2 * (scode a d / (2 * d')) + (if scode a d mod (2 * d') =? 0 then 0 else 1)).
  change (scode a (d * d')) with
    (2 * (a / (d * d')) + (if a mod (d * d') =? 0 then 0 else 1)).
  set (f := a / d).
  assert (Hs : scode a d = 2 * f + (if a mod d =? 0 then 0 else 1)) by reflexivity.
  pose proof (Z.mod_pos_bound a d Hd) as Hr.
  assert (Hq : scode a d / (2 * d') = a / (d * d')).
  { rewrite <- Z.div_div by lia. fold f.
    rewrite Hs. rewrite <- Z.div_div by lia.
    f_equal. destruct (a mod d =? 0).
    - symmetry; apply Z.div_unique with (r := 0); lia.
    - symmetry; apply Z.div_unique with (r := 1); lia. }
  rewrite Hq. f_equal.
  assert (Hm : a mod (d * d') = a mod d + d * (f mod d')).
  { unfold f. apply Z.rem_mul_r; lia. }
  pose proof (Z.mod_pos_bound f d' Hd') as Hr'.
  assert (Hm2 : scode a d mod (2 * d') = 2 * (f mod d') + (if a mod d =? 0 then 0 else 1)).
  { rewrite Hs. symmetry. apply Z.mod_unique with (q := f / d').
    - left. destruct (a mod d =? 0); lia.
    - pose proof (Z.div_mod f d' ltac:(lia)). lia. }
  rewrite Hm2, Hm.
  destruct (Z.eqb_spec (a mod d) 0);
    destruct (Z.eqb_spec (2 * (f mod d') + 0) 0);
    destruct (Z.eqb_spec (2 * (f mod d') + 1) 0);
    destruct (Z.eqb_spec (a mod d + d * (f mod d')) 0); try reflexivity; try nia.
Qed.

Lemma scode_div4 a d : 0 < d -> scode a d / 4 = a / (2 * d).
Proof.
  intros Hd. unfold scode.
  rewrite (Z.mul_comm 2 d), <- Z.div_div by lia.
  set (f := a / d).
  pose proof (Z.div_mod f 2 ltac:(lia)). pose proof (Z.mod_pos_bound f 2 ltac:(lia)).
  symmetry. apply Z.div_unique with (r := 2 * (f mod 2) + (if a mod d =? 0 then 0 else 1)).
  - left. destruct (a mod d =? 0); lia.
  - lia.
Qed.

Lemma scode_nonneg a d : 0 < d -> 0 <= a -> 0 <= scode a d.
Proof.
  intros. unfold scode. pose proof (Z.div_pos a d ltac:(lia) ltac:(lia)).
  destruct (a mod d =? 0); lia.
Qed.

Lemma rne_mono c c' : c <= c' -> rne c <= rne c'.
Proof.
  intros H. unfold rne.
  pose proof (Z.div_mod c 4 ltac:(lia)). pose proof (Z.div_mod c' 4 ltac:(lia)).
  pose proof (Z.mod_pos_bound c 4 ltac:(lia)). pose proof (Z.mod_pos_bound c' 4 ltac:(lia)).
  assert (c / 4 < c' / 4 \/ c / 4 = c' / 4) as [?|E] by lia.
  - destruct (c mod 4 =? 3), (c mod 4 =? 2), (c' mod 4 =? 3), (c' mod 4 =? 2),
      (Z.even (c / 4)), (Z.even (c' / 4)); lia.
  - rewrite E.
    destruct (Z.eqb_spec (c mod 4) 3), (Z.eqb_spec (c mod 4) 2),
      (Z.eqb_spec (c' mod 4) 3), (Z.eqb_spec (c' mod 4) 2), (Z.even (c' / 4)); lia.
Qed.

Lemma rne_bounds c : c / 4 <= rne c <= c / 4 + 1.
Proof.
  unfold rne. destruct (c mod 4 =? 3), (c mod 4 =? 2), (Z.even (c / 4)); lia.
Qed.

Lemma rne_exact m : rne (4 * m) = m.
Proof.
  unfold rne. rewrite (Z.mul_comm 4 m), Z.div_mul, Z.mod_mul by lia. simpl. lia.
Qed.

Lemma div4_code m k : 0 <= k < 4 -> (4 * m + k) / 4 = m /\ (4 * m + k) mod 4 = k.
Proof.
  intros Hk. split.
  - symmetry. apply Z.div_unique with (r := k); lia.
  - symmetry. apply Z.mod_unique with (q := m); lia.
Qed.

Lemma rcode_shr_1 t :
  0 <= shr_m t -> rcode (shr_1 t) = scode (rcode t) 4 /\ 0 <= shr_m (shr_1 t).
Proof.
  destruct t as [m r s]. cbn [shr_m]. intros Hm.
  assert (Hc : forall k, 0 <= k < 4 ->
             scode (4 * m + k) 4 = 2 * m + (if k =? 0 then 0 else 1)).
  { intros k Hk. unfold scode. destruct (div4_code m k Hk) as [-> ->]. reflexivity. }
  unfold rcode; cbn [shr_m shr_r shr_s].
  replace (4 * m + (if r then 2 else 0) + (if s then 1 else 0))
    with (4 * m + ((if r then 2 else 0) + (if s then 1 else 0))) by lia.
  rewrite Hc by (destruct r, s; lia).
  destruct m as [|p|p]; [| |lia].
  - destruct r, s; cbn; lia.
  - destruct p as [p|p|]; destruct r, s; simpl; lia.
Qed.

Lemma pow2_xO p : 2 ^ Zpos p~0 = 2 ^ Zpos p * 2 ^ Zpos p.
Proof.
  replace (Zpos p~0) with (Zpos p + Zpos p) by lia.
  apply Z.pow_add_r; lia.
Qed.

Lemma pow2_xI p : 2 ^ Zpos p~1 = 2 * (2 ^ Zpos p * 2 ^ Zpos p).
Proof.
  replace (Zpos p~1) with (1 + Zpos p~0) by lia.
  rewrite Z.pow_add_r, pow2_xO by lia. reflexivity.
Qed.

Lemma rcode_iter_shr_1 p : forall t,
  0 <= shr_m t ->
  rcode (iter_pos shr_1 p t) = scode (rcode t) (2 * 2 ^ Zpos p)
  /\ 0 <= shr_m (iter_pos shr_1 p t).
Proof.
  induction p as [p IH|p IH|]; intros t Ht; cbn [iter_pos].
  - destruct (rcode_shr_1 t Ht) as [E1 H1].
    destruct (IH _ H1) as [E2 H2]. destruct (IH _ H2) as [E3 H3].
    split; [|exact H3].
    rewrite E3, E2, E1.
    assert (0 < 2 ^ Zpos p) by (apply Z.pow_pos_nonneg; lia).
    rewrite (scode_scode _ 4) by lia.
    rewrite scode_scode by lia. f_equal.
    rewrite pow2_xI. lia.
  - destruct (IH _ Ht) as [E2 H2]. destruct (IH _ H2) as [E3 H3].
    split; [|exact H3].
    rewrite E3, E2.
    assert (0 < 2 ^ Zpos p) by (apply Z.pow_pos_nonneg; lia).
    rewrite scode_scode by lia. f_equal.
    rewrite pow2_xO. lia.
  - destruct (rcode_shr_1 t Ht) as [E1 H1]. split; [|exact H1].
    rewrite E1. reflexivity.
Qed.

Lemma shr_spec t e n :
  0 <= n -> 0 <= shr_m t ->
  snd (shr t e n) = e + n
  /\ rcode (fst (shr t e n)) = scode (rcode t) (2 * 2 ^ n)
  /\ 0 <= shr_m (fst (shr t e n)).
Proof.
  intros Hn Ht. destruct n as [|p|p]; [| |lia]; cbn [shr fst snd].
  - rewrite Z.add_0_r. change (2 * 2 ^ 0) with 2. rewrite scode_two. auto.
  - destruct (rcode_iter_shr_1 p t Ht). auto.
Qed.

Lemma shr_nonpos t e n : n <= 0 -> shr t e n = (t, e).
Proof. destruct n; [reflexivity|lia|reflexivity]. Qed.

Lemma rne_rcode t :
  0 <= shr_m t -> round_nearest_even (shr_m t) (loc_of_shr_record t) = rne (rcode t).
Proof.
  destruct t as [m r s]; cbn [shr_m]; intros Hm.
  unfold rne, rcode; cbn [shr_m shr_r shr_s].
  replace (4 * m + (if r then 2 else 0) + (if s then 1 else 0))
    with (4 * m + ((if r then 2 else 0) + (if s then 1 else 0))) by lia.
  destruct (div4_code m ((if r then 2 else 0) + (if s then 1 else 0))) as [-> ->];
    [destruct r, s; lia|].
  destruct r, s; cbn; try lia; destruct (Z.even m); lia.
Qed.

Lemma digits2_pos_size p : digits2_pos p = Pos.size p.
Proof. induction p; cbn; congruence. Qed.

Lemma Zdigits2_bounds m :
  0 < m -> 2 ^ (Zdigits2 m - 1) <= m < 2 ^ Zdigits2 m /\ 1 <= Zdigits2 m.
Proof.
  destruct m as [|p|p]; try lia. intros _. cbn [Zdigits2].
  rewrite digits2_pos_size.
  pose proof (Pos.size_gt p) as Hgt. pose proof (Pos.size_le p) as Hle.
  apply Pos2Z.pos_lt_pos in Hgt. apply Pos2Z.pos_le_pos in Hle.
  rewrite Pos2Z.inj_pow in Hgt, Hle.
  assert (1 <= Zpos (Pos.size p)) by lia.
  replace (Zpos (Pos.size p)) with (Zpos (Pos.size p) - 1 + 1) in Hle at 1 by lia.
  rewrite Z.pow_add_r in Hle by lia. change (2 ^ 1) with 2 in Hle. lia.
Qed.

Lemma Zdigits2_nonneg m : 0 <= Zdigits2 m.
Proof. destruct m; cbn; lia. Qed.

Lemma Zdigits2_le m n : 0 <= m -> 0 <= n -> m < 2 ^ n -> Zdigits2 m <= n.
Proof.
  intros Hm Hn H. assert (m = 0 \/ 0 < m) as [->|Hp] by lia; [cbn; lia|].
  destruct (Zdigits2_bounds m Hp) as [[Hlo _] Hd].
  assert (2 ^ (Zdigits2 m - 1) < 2 ^ n) by lia.
  apply Z.pow_lt_mono_r_iff in H0; lia.
Qed.

Lemma Zdigits2_ge m n : 0 <= n -> 2 ^ n <= m -> n + 1 <= Zdigits2 m.
Proof.
  intros Hn H. assert (0 < 2 ^ n) by (apply Z.pow_pos_nonneg; lia).
  destruct (Zdigits2_bounds m ltac:(lia)) as [[_ Hhi] Hd].
  assert (2 ^ n < 2 ^ Zdigits2 m) by lia.
  apply Z.pow_lt_mono_r_iff in H1; lia.
Qed.

Lemma fexp_eq e : fexp 53 1024 e = Z.max (e - 53) (-1074).
Proof. reflexivity. Qed.

Lemma shr_m_of_loc m l : shr_m (shr_record_of_loc m l) = m.
Proof. destruct l as [|[]]; reflexivity. Qed.

Lemma lcode_bounds m l : 4 * m <= lcode m l <= 4 * m + 3.
Proof. unfold lcode, rcode. destruct l as [|[]]; cbn; lia. Qed.

Lemma lcode_div4 m l : lcode m l / 4 = m.
Proof.
  pose proof (lcode_bounds m l).
  symmetry. apply Z.div_unique with (r := lcode m l - 4 * m); lia.
Qed.

Lemma pow2_pos n : 0 <= n -> 0 < 2 ^ n.
Proof. intros. apply Z.pow_pos_nonneg; lia. Qed.

Lemma shifted_mantissa_bound m k :
  0 <= m -> 0 <= k -> Zdigits2 m <= 53 + k -> m / 2 ^ k < 2 ^ 53.
Proof.
  intros Hm Hk Hd. pose proof (pow2_pos k Hk).
  apply Z.div_lt_upper_bound; [lia|].
  rewrite <- Z.pow_add_r by lia.
  assert (m = 0 \/ 0 < m) as [->|Hp] by lia.
  - apply pow2_pos; lia.
  - destruct (Zdigits2_bounds m Hp) as [[_ Hhi] _].
    eapply Z.lt_le_trans; [exact Hhi|].
    apply Z.pow_le_mono_r; lia.
Qed.

Lemma binary_round_aux_value m e l :
  0 <= m ->
  let E := fexp 53 1024 (Zdigits2 m + e) in
  e <= E -> E + 1 <= 971 ->
  let M := rne (scode (lcode m l) (2 * 2 ^ (E - e))) in
  0 <= M <= 2 ^ 53 /\
  ((M = 0 /\ binary_round_aux 53 1024 false m e l = S754_zero false) \/
   (exists mo eo, binary_round_aux 53 1024 false m e l = S754_finite false mo eo
       /\ Zpos mo * 2 ^ (eo - E) = M /\ E <= eo <= E + 1 /\ Zpos mo < 2 ^ 53)).
Proof.
  intros Hm E HeE Hov M.
  assert (HE : E = Z.max (Zdigits2 m + e - 53) (-1074)) by reflexivity.
  pose proof (Zdigits2_nonneg m) as Hdm.
  pose proof (pow2_pos (E - e) ltac:(lia)) as Hp2.
  (* the mantissa after the first shift *)
  assert (Hc4 : scode (lcode m l) (2 * 2 ^ (E - e)) / 4 = m / 2 ^ (E - e)).
  { rewrite scode_div4 by lia.
    replace (2 * (2 * 2 ^ (E - e))) with (4 * 2 ^ (E - e)) by lia.
    rewrite <- Z.div_div by lia. rewrite lcode_div4. reflexivity. }
  assert (Hm1 : 0 <= m / 2 ^ (E - e) < 2 ^ 53).
  { split; [apply Z.div_pos; lia|].
    apply shifted_mantissa_bound; lia. }
  assert (HM : 0 <= M <= 2 ^ 53).
  { pose proof (rne_bounds (scode (lcode m l) (2 * 2 ^ (E - e)))) as Hb.
    fold M in Hb. rewrite Hc4 in Hb. lia. }
  split; [exact HM|].
  unfold binary_round_aux, shr_fexp. fold E.
  pose proof (shr_spec (shr_record_of_loc m l) e (E - e) ltac:(lia)
                ltac:(rewrite shr_m_of_loc; lia)) as (He1 & Hc1 & Hs1).
  destruct (shr (shr_record_of_loc m l) e (E - e)) as [t1 e1].
  cbn [fst snd] in He1, Hc1, Hs1.
  rewrite (rne_rcode t1 Hs1), Hc1. fold (lcode m l). fold M.
  replace e1 with E by lia.
  assert (M = 0 \/ 0 < M < 2 ^ 53 \/ M = 2 ^ 53) as [H0|[Hmid|Htop]] by lia.
  - left. split; [exact H0|]. rewrite H0. cbn [Zdigits2 shr_record_of_loc].
    rewrite shr_nonpos by (rewrite fexp_eq; lia). reflexivity.
  - right.
    assert (Hdig : Zdigits2 M <= 53) by (apply Zdigits2_le; lia).
    cbn [shr_record_of_loc].
    rewrite shr_nonpos by (rewrite fexp_eq; lia). cbn [shr_m].
    destruct M as [|mo|mo] eqn:EM; try lia.
    exists mo, E. replace (E <=? 1024 - 53) with true by (symmetry; apply Z.leb_le; lia).
    rewrite Z.sub_diag. repeat split; lia.
  - right. rewrite Htop.
    replace (fexp 53 1024 (Zdigits2 (2 ^ 53) + E) - E) with 1
      by (rewrite fexp_eq; change (Zdigits2 (2 ^ 53)) with 54; lia).
    exists (2 ^ 52)%positive, (E + 1).
    replace (E + 1 - E) with 1 by lia.
    split; [|split; [reflexivity|split; [lia|reflexivity]]].
    cbn. replace (E + 1 <=? 971) with true by (symmetry; apply Z.leb_le; lia).
    reflexivity.
Qed.

Lemma scode_mono_frac a a' d d' :
  0 < d -> 0 < d' -> a * d' <= a' * d -> scode a d <= scode a' d'.
Proof.
  intros Hd Hd' H.
  rewrite <- (scode_scale a d d') by lia.
  rewrite <- (scode_scale a' d' d) by lia.
  rewrite (Z.mul_comm d' d). apply scode_mono; nia.
Qed.

Lemma pow2_split x y : 0 <= x -> 0 <= y -> 2 ^ (x + y) = 2 ^ x * 2 ^ y.
Proof. intros. apply Z.pow_add_r; lia. Qed.

(** The leading part of a quotient: with [m = a / (2 d)] the true value
    lies in [m, m + 1). *)
Lemma quot_bounds a d :
  0 < d -> 2 * d * (a / (2 * d)) <= a < 2 * d * (a / (2 * d) + 1).
Proof.
  intros Hd. pose proof (Z.div_mod a (2 * d) ltac:(lia)).
  pose proof (Z.mod_pos_bound a (2 * d) ltac:(lia)). lia.
Qed.

(** Rounding is monotone.  An input is a fraction [a / (2 d)] scaled by
    [2 ^ e], rounded at the exponent [E] that its leading digits select;
    [B] only makes every exponent non-negative. *)
Lemma round_value_mono B a d e a' d' e' E E' :
  0 <= a -> 0 < d -> 0 <= a' -> 0 < d' ->
  0 <= e + B -> 0 <= e' + B ->
  E = fexp 53 1024 (Zdigits2 (a / (2 * d)) + e) ->
  E' = fexp 53 1024 (Zdigits2 (a' / (2 * d')) + e') ->
  e <= E -> e' <= E' ->
  a * d' * 2 ^ (e + B) <= a' * d * 2 ^ (e' + B) ->
  rne (scode a (d * 2 ^ (E - e))) * 2 ^ (E + B)
  <= rne (scode a' (d' * 2 ^ (E' - e'))) * 2 ^ (E' + B).
Proof.
  intros Ha Hd Ha' Hd' HB HB' HE HE' Hk Hk' Hord.
  rewrite fexp_eq in HE, HE'.
  set (m := a / (2 * d)) in *. set (m' := a' / (2 * d')) in *.
  set (K := 2 ^ (E - e)). set (K' := 2 ^ (E' - e')).
  set (X := 2 ^ (e + B)) in *. set (X' := 2 ^ (e' + B)) in *.
  assert (HK : 0 < K) by (apply pow2_pos; lia).
  assert (HK' : 0 < K') by (apply pow2_pos; lia).
  assert (HX : 0 < X) by (apply pow2_pos; lia).
  assert (HX' : 0 < X') by (apply pow2_pos; lia).
  assert (HP : 2 ^ (E + B) = X * K).
  { unfold X, K. rewrite <- pow2_split by lia. f_equal; lia. }
  assert (HP' : 2 ^ (E' + B) = X' * K').
  { unfold X', K'. rewrite <- pow2_split by lia. f_equal; lia. }
  assert (Hm : 0 <= m) by (apply Z.div_pos; lia).
  assert (Hm' : 0 <= m') by (apply Z.div_pos; lia).
  pose proof (Zdigits2_nonneg m) as Hdg. pose proof (Zdigits2_nonneg m') as Hdg'.
  (* shifted mantissas *)
  assert (Hc4 : scode a (d * K) / 4 = m / K).
  { rewrite scode_div4 by lia. unfold m. rewrite Z.div_div by lia.
    f_equal; lia. }
  assert (Hc4' : scode a' (d' * K') / 4 = m' / K').
  { rewrite scode_div4 by lia. unfold m'. rewrite Z.div_div by lia.
    f_equal; lia. }
  pose proof (rne_bounds (scode a (d * K))) as Hr. rewrite Hc4 in Hr.
  pose proof (rne_bounds (scode a' (d' * K'))) as Hr'. rewrite Hc4' in Hr'.
  assert (Hm1 : 0 <= m / K < 2 ^ 53).
  { split; [apply Z.div_pos; lia|]. apply shifted_mantissa_bound; lia. }
  assert (Hm1' : 0 <= m' / K' < 2 ^ 53).
  { split; [apply Z.div_pos; lia|]. apply shifted_mantissa_bound; lia. }
  pose proof (quot_bounds a d Hd) as Hq. fold m in Hq.
  pose proof (quot_bounds a' d' Hd') as Hq'. fold m' in Hq'.
  (* a normal input has a full mantissa after the shift *)
  assert (Hnorm : forall mm ee EE, 0 <= mm -> ee <= EE ->
             EE = Z.max (Zdigits2 mm + ee - 53) (-1074) -> -1074 < EE ->
             2 ^ 52 * 2 ^ (EE - ee) <= mm).
  { intros mm ee EE H0 H1 H2 H3.
    assert (Hdd : Zdigits2 mm = 53 + (EE - ee)) by lia.
    assert (0 < mm).
    { assert (mm = 0 \/ 0 < mm) as [->|] by lia; [|assumption].
      change (Zdigits2 0) with 0 in Hdd. lia. }
    destruct (Zdigits2_bounds mm H) as [[Hlo _] _].
    rewrite Hdd in Hlo. rewrite <- pow2_split by lia.
    replace (52 + (EE - ee)) with (53 + (EE - ee) - 1) by lia. exact Hlo. }
  assert (Hsub : forall mm ee EE, 0 <= mm -> ee <= EE ->
             EE = Z.max (Zdigits2 mm + ee - 53) (-1074) ->
             mm + 1 <= 2 ^ 53 * 2 ^ (EE - ee)).
  { intros mm ee EE H0 H1 H2.
    rewrite <- pow2_split by lia.
    assert (mm = 0 \/ 0 < mm) as [->|Hp] by lia.
    - pose proof (pow2_pos (53 + (EE - ee)) ltac:(lia)). lia.
    - destruct (Zdigits2_bounds mm Hp) as [[_ Hhi] _].
      assert (2 ^ Zdigits2 mm <= 2 ^ (53 + (EE - ee)))
        by (apply Z.pow_le_mono_r; lia).
      lia. }
  assert (E = E' \/ E < E' \/ E' < E) as [Heq|[Hlt|Hgt]] by lia.
  - (* same exponent: compare the codes *)
    rewrite <- Heq.
    apply Z.mul_le_mono_nonneg_r; [rewrite HP; nia|].
    apply rne_mono. apply scode_mono_frac; try nia.
    assert (HPP : X * K = X' * K') by (rewrite <- HP, <- HP', Heq; reflexivity).
    apply (Z.mul_le_mono_pos_r _ _ (X * K)); [nia|].
    replace (a * (d' * K') * (X * K)) with (a * d' * X * (K * K')) by ring.
    rewrite HPP.
    replace (a' * (d * K) * (X' * K')) with (a' * d * X' * (K * K')) by ring.
    apply Z.mul_le_mono_nonneg_r; [nia|exact Hord].
  - (* the larger input is normal and lies in a higher binade *)
    pose proof (Hnorm m' e' E' Hm' Hk' HE' ltac:(lia)) as Hn'. fold K' in Hn'.
    assert (2 ^ 52 <= m' / K') by (apply Z.div_le_lower_bound; lia).
    assert (Hstep : 2 ^ (E' + B) = 2 ^ (E' - E - 1) * 2 * 2 ^ (E + B)).
    { replace (E' + B) with ((E' - E - 1) + 1 + (E + B)) by lia.
      rewrite !pow2_split by lia. reflexivity. }
    pose proof (pow2_pos (E' - E - 1) ltac:(lia)) as Hpp.
    pose proof (pow2_pos (E + B) ltac:(lia)) as Hpe.
    rewrite Hstep.
    change (2 ^ 53) with (2 * 2 ^ 52) in Hm1.
    assert (rne (scode a (d * K)) <= 2 * 2 ^ 52) by lia.
    assert (2 ^ 52 <= rne (scode a' (d' * K'))) by lia.
    set (R := rne (scode a (d * K))) in *. set (R' := rne (scode a' (d' * K'))) in *.
    set (T := 2 ^ 52) in *. set (Q := 2 ^ (E + B)) in *. set (S := 2 ^ (E' - E - 1)) in *.
    assert (R * Q <= 2 * T * Q) by nia.
    assert (2 * T * Q <= R' * (S * 2 * Q)) by nia.
    lia.
  - (* impossible: the smaller input cannot lie in a higher binade *)
    exfalso.
    pose proof (Hnorm m e E Hm Hk HE ltac:(lia)) as Hn. fold K in Hn.
    pose proof (Hsub m' e' E' Hm' Hk' HE') as Hs'. fold K' in Hs'.
    assert (Hstep : X * K = 2 ^ (E - E' - 1) * 2 * (X' * K')).
    { rewrite <- HP, <- HP'.
      replace (E + B) with ((E - E' - 1) + 1 + (E' + B)) by lia.
      rewrite !pow2_split by lia. reflexivity. }
    pose proof (pow2_pos (E - E' - 1) ltac:(lia)) as Hpp.
    set (T := 2 ^ 52) in *. change (2 ^ 53) with (2 * 2 ^ 52) in Hs'. fold T in Hs'.
    set (S := 2 ^ (E - E' - 1)) in *.
    assert (T > 0) by (unfold T; lia).
    (* a >= 2 d T K  and  a' < 2 d' (2 T K') *)
    assert (L1 : 2 * d * (T * K) <= a) by nia.
    assert (L2 : a' < 2 * d' * (2 * T * K')) by nia.
    assert (L3 : 2 * d * (T * K) * d' * X <= a * d' * X) by nia.
    assert (L4 : a' * d * X' < 2 * d' * (2 * T * K') * d * X') by nia.
    assert (L5 : 2 * d * (T * K) * d' * X = 2 * d * d' * T * (X * K)) by ring.
    assert (L6 : 2 * d' * (2 * T * K') * d * X' = 2 * d * d' * T * (2 * (X' * K'))) by ring.
    rewrite Hstep in L5.
    assert (L7 : 2 * d * d' * T * (2 * (X' * K')) <= 2 * d * d' * T * (S * 2 * (X' * K'))).
    { apply Z.mul_le_mono_nonneg_l; [nia|]. nia. }
    lia.
Qed.

Lemma rounded_to_val f M E B :
  rounded_to f M E -> 0 <= E + B -> SFval B f = M * 2 ^ (E + B).
Proof.
  intros [[-> ->]|(mo & eo & -> & HM & He & _)] HB; cbn [SFval]; [lia|].
  rewrite <- HM, <- Z.mul_assoc, <- pow2_split by lia. do 2 f_equal. lia.
Qed.

Lemma new_location_code N r q :
  0 < N -> 0 <= r < N -> lcode q (new_location N r) = scode (2 * (q * N + r)) N.
Proof.
  intros HN Hr.
  assert (Hs : scode (2 * (q * N + r)) N
               = 4 * q + (if r =? 0 then 0 else if 2 * r <? N then 1
                          else if 2 * r =? N then 2 else 3)).
  { unfold scode.
    destruct (Z.eqb_spec r 0) as [->|Hr0].
    - replace (2 * (q * N + 0)) with (2 * q * N) by ring.
      rewrite Z.div_mul, Z.mod_mul by lia. change (0 =? 0) with true. cbv iota. lia.
    - destruct (Z.ltb_spec (2 * r) N).
      + rewrite <- (Z.div_unique (2 * (q * N + r)) N (2 * q) (2 * r)) by lia.
        rewrite <- (Z.mod_unique (2 * (q * N + r)) N (2 * q) (2 * r)) by lia.
        destruct (Z.eqb_spec (2 * r) 0); lia.
      + rewrite <- (Z.div_unique (2 * (q * N + r)) N (2 * q + 1) (2 * r - N)) by lia.
        rewrite <- (Z.mod_unique (2 * (q * N + r)) N (2 * q + 1) (2 * r - N)) by lia.
        destruct (Z.eqb_spec (2 * r) N), (Z.eqb_spec (2 * r - N) 0); lia. }
  rewrite Hs. unfold new_location, new_location_even, new_location_odd.
  destruct (Z.even N) eqn:Hev.
  - destruct (Z.eqb_spec r 0); [unfold lcode, rcode; cbn; lia|].
    change (Z.pos 2 * r) with (2 * r).
    destruct (Z.compare_spec (2 * r) N), (Z.ltb_spec (2 * r) N),
      (Z.eqb_spec (2 * r) N); try lia; unfold lcode, rcode; cbn; lia.
  - assert (Hodd : Z.odd N = true) by (rewrite <- Z.negb_even, Hev; reflexivity).
    apply Z.odd_spec in Hodd. destruct Hodd as [k Hk].
    destruct (Z.eqb_spec r 0); [unfold lcode, rcode; cbn; lia|].
    change (Z.pos 2 * r + Z.pos 1) with (2 * r + 1).
    destruct (Z.compare_spec (2 * r + 1) N), (Z.ltb_spec (2 * r) N),
      (Z.eqb_spec (2 * r) N); try lia; unfold lcode, rcode; cbn; lia.
Qed.

Lemma Zdigits2_mono m n : 0 <= m <= n -> Zdigits2 m <= Zdigits2 n.
Proof.
  intros [Hm Hmn]. assert (n = 0 \/ 0 < n) as [->|Hn] by lia.
  - replace m with 0 by lia. lia.
  - destruct (Zdigits2_bounds n Hn) as [[_ Hhi] ?].
    apply Zdigits2_le; lia.
Qed.

Lemma div_s_range p N : (p <= N)%positive -> 53 <= div_s p N <= 1074.
Proof.
  intros H. unfold div_s. rewrite fexp_eq.
  pose proof (Zdigits2_mono (Zpos p) (Zpos N) ltac:(lia)). lia.
Qed.

Lemma div_E_range p N : (p <= N)%positive -> - div_s p N <= div_E p N <= -52.
Proof.
  intros H. pose proof (div_s_range p N H) as Hs.
  unfold div_E. set (s := div_s p N) in *.
  set (q := div_a p N / (2 * Zpos N)).
  pose proof (pow2_pos s ltac:(lia)) as Hp.
  assert (Hq : q = Zpos p * 2 ^ s / Zpos N).
  { unfold q, div_a. fold s. rewrite Z.div_mul_cancel_l by lia. reflexivity. }
  assert (Hq0 : 0 <= q) by (rewrite Hq; apply Z.div_pos; lia).
  rewrite fexp_eq. split.
  - (* the quotient keeps at least the digits the scaling was chosen for *)
    assert (Z.max (Zdigits2 (Zpos p) - Zdigits2 (Zpos N) - 53) (-1074) = - s)
      by (unfold s, div_s; rewrite fexp_eq; lia).
    assert (-1074 = -s \/ Zdigits2 (Zpos p) - Zdigits2 (Zpos N) - 53 = - s) as [?|Hn] by lia;
      [lia|].
    enough (Zdigits2 (Zpos p) - Zdigits2 (Zpos N) + s <= Zdigits2 q) by lia.
    destruct (Zdigits2_bounds (Zpos p) ltac:(lia)) as [[Hlo _] Hd1].
    destruct (Zdigits2_bounds (Zpos N) ltac:(lia)) as [[_ Hhi] Hd2].
    set (d1 := Zdigits2 (Zpos p)) in *. set (d2 := Zdigits2 (Zpos N)) in *.
    assert (Hs52 : s = 53 + d2 - d1) by lia.
    replace (d1 - d2 + s) with (52 + 1) by lia.
    apply Zdigits2_ge; [lia|]. rewrite Hq.
    apply Z.div_le_lower_bound; [lia|].
    (* N * 2^52 <= 2^d2 * 2^52 = 2^(d1-1) * 2^s <= p * 2^s *)
    assert (2 ^ d2 * 2 ^ 52 = 2 ^ (d1 - 1) * 2 ^ s).
    { rewrite <- !pow2_split by lia. f_equal. lia. }
    pose proof (pow2_pos 52 ltac:(lia)). nia.
  - (* the quotient is at most 2^s *)
    assert (q <= 2 ^ s).
    { rewrite Hq. apply Z.div_le_upper_bound; [lia|]. nia. }
    assert (Zdigits2 q <= s + 1).
    { apply Zdigits2_le; try lia.
      rewrite pow2_split by lia. change (2 ^ 1) with 2. lia. }
    lia.
Qed.

Lemma SFdiv_value p N :
  (p <= N)%positive ->
  rounded_to (SFdiv 53 1024 (S754_finite false p 0) (S754_finite false N 0))
             (div_M p N) (div_E p N).
Proof.
  intros H. pose proof (div_s_range p N H) as Hs. pose proof (div_E_range p N H) as HE.
  unfold div_M. unfold div_E in *. unfold div_a in *.
  unfold SFdiv, SFdiv_core_binary.
  rewrite !Z.add_0_r. change (0 - 0) with 0.
  replace (Z.min (fexp 53 1024 (Zdigits2 (Zpos p) - Zdigits2 (Zpos N))) 0)
    with (- div_s p N) by (unfold div_s in *; lia).
  replace (0 - - div_s p N) with (div_s p N) by lia.
  remember (div_s p N) as s eqn:Es.
  assert (Hshift : match s with
                   | 0 => Zpos p
                   | Zpos _ => Z.shiftl (Zpos p) s
                   | Zneg _ => 0
                   end = Zpos p * 2 ^ s).
  { destruct s; try lia. apply Z.shiftl_mul_pow2; lia. }
  rewrite Hshift. clear Hshift.
  pose proof (pow2_pos s ltac:(lia)) as Hp2.
  pose proof (Z_div_mod (Zpos p * 2 ^ s) (Zpos N) ltac:(lia)) as Hdm.
  destruct (Z.div_eucl (Zpos p * 2 ^ s) (Zpos N)) as [q r]. destruct Hdm as [Hqr Hr].
  cbn [xorb].
  assert (Hq : 2 * (Zpos p * 2 ^ s) / (2 * Zpos N) = q).
  { rewrite Z.div_mul_cancel_l by lia.
    symmetry. apply Z.div_unique with (r := r); lia. }
  rewrite Hq in *.
  assert (Hq0 : 0 <= q).
  { rewrite <- Hq. apply Z.div_pos; [|lia]. nia. }
  pose proof (binary_round_aux_value q (- s) (new_location (Zpos N) r) Hq0) as Hb.
  cbv zeta in Hb.
  replace (Zdigits2 q + - s) with (Zdigits2 q - s) in Hb by lia.
  specialize (Hb ltac:(lia) ltac:(lia)). destruct Hb as [_ Hb].
  rewrite new_location_code in Hb by lia.
  rewrite scode_scode in Hb by (try apply pow2_pos; lia).
  replace (2 * (q * Zpos N + r)) with (2 * (Zpos p * 2 ^ s)) in Hb by lia.
  replace (fexp 53 1024 (Zdigits2 q - s) - - s)
    with (fexp 53 1024 (Zdigits2 q - s) + s) in Hb by lia.
  exact Hb.
Qed.

Lemma SFval_nonneg B f : 0 <= SFval B f.
Proof.
  destruct f as [| | |[] m e]; cbn [SFval]; try lia.
  all: pose proof (Z.pow_nonneg 2 (e + B) ltac:(lia)); lia.
Qed.

Lemma fdiv_mono p p' N :
  (p <= p')%positive -> (p' <= N)%positive ->
  SFval 1074 (fdiv p N) <= SFval 1074 (fdiv p' N).
Proof.
  intros Hpp HpN. assert (HpN0 : (p <= N)%positive) by lia.
  pose proof (div_s_range p N HpN0) as Hs. pose proof (div_E_range p N HpN0) as HE.
  pose proof (div_s_range p' N HpN) as Hs'. pose proof (div_E_range p' N HpN) as HE'.
  unfold fdiv.
  rewrite (rounded_to_val _ _ _ 1074 (SFdiv_value p N HpN0)) by lia.
  rewrite (rounded_to_val _ _ _ 1074 (SFdiv_value p' N HpN)) by lia.
  pose proof (pow2_pos (div_s p N) ltac:(lia)) as Hp2.
  pose proof (pow2_pos (div_s p' N) ltac:(lia)) as Hp2'.
  pose proof (round_value_mono 1074 (div_a p N) (Zpos N) (- div_s p N)
                (div_a p' N) (Zpos N) (- div_s p' N) (div_E p N) (div_E p' N)) as Hm.
  replace (div_E p N - - div_s p N) with (div_E p N + div_s p N) in Hm by lia.
  replace (div_E p' N - - div_s p' N) with (div_E p' N + div_s p' N) in Hm by lia.
  apply Hm; try reflexivity; try lia; unfold div_a; try nia.
  assert (Hx : forall s, 53 <= s <= 1074 -> 2 ^ s * 2 ^ (- s + 1074) = 2 ^ 1074).
  { intros s Hr. rewrite <- pow2_split by lia. f_equal. lia. }
  replace (2 * (Zpos p * 2 ^ div_s p N) * Zpos N * 2 ^ (- div_s p N + 1074))
    with (2 * Zpos p * Zpos N * (2 ^ div_s p N * 2 ^ (- div_s p N + 1074))) by ring.
  replace (2 * (Zpos p' * 2 ^ div_s p' N) * Zpos N * 2 ^ (- div_s p' N + 1074))
    with (2 * Zpos p' * Zpos N * (2 ^ div_s p' N * 2 ^ (- div_s p' N + 1074))) by ring.
  rewrite !Hx by lia.
  apply Z.mul_le_mono_nonneg_r; [lia|]. nia.
Qed.

Lemma mul_E_range mo eo :
  Zpos mo < 2 ^ 53 -> -1074 <= eo <= -51 ->
  eo - 46 <= mul_E mo eo /\ -1074 <= mul_E mo eo <= 10.
Proof.
  intros Hmo Heo. unfold mul_E.
  rewrite Z.div_mul_cancel_l, Z.div_1_r by lia.
  assert (53 <= Zdigits2 (Zpos mo * Zpos C100)).
  { apply (Zdigits2_ge _ 52); [lia|]. unfold C100. lia. }
  assert (Zdigits2 (Zpos mo * Zpos C100) <= 106).
  { apply Zdigits2_le; try lia.
    change (2 ^ 106) with (2 ^ 53 * 2 ^ 53).
    assert (Zpos C100 < 2 ^ 53) by (unfold C100; lia). nia. }
  rewrite fexp_eq. lia.
Qed.

Lemma mul100_value mo eo :
  Zpos mo < 2 ^ 53 -> -1074 <= eo <= -51 ->
  rounded_to (SFmul 53 1024 (S754_finite false mo eo) hundred)
             (mul_M mo eo) (mul_E mo eo).
Proof.
  intros Hmo Heo. destruct (mul_E_range mo eo Hmo Heo) as [H1 H2].
  unfold hundred, SFmul. cbn [xorb].
  rewrite Pos2Z.inj_mul. replace (eo + -46) with (eo - 46) by lia.
  pose proof (binary_round_aux_value (Zpos mo * Zpos C100) (eo - 46) loc_Exact
                ltac:(lia)) as Hb.
  cbv zeta in Hb. unfold mul_M. unfold mul_E in *.
  rewrite Z.div_mul_cancel_l, Z.div_1_r in * by lia.
  specialize (Hb ltac:(lia) ltac:(lia)). destruct Hb as [_ Hb].
  replace (lcode (Zpos mo * Zpos C100) loc_Exact)
    with (scode (2 * (Zpos mo * Zpos C100)) 1) in Hb.
  2:{ unfold lcode, rcode, scode. cbn [shr_record_of_loc shr_m shr_r shr_s].
      rewrite Z.div_1_r, Z.mod_1_r. cbn [Z.eqb]. lia. }
  rewrite scode_scode in Hb by (try apply pow2_pos; lia).
  exact Hb.
Qed.

Lemma mul100_mono f f' M E M' E' :
  rounded_to f M E -> rounded_to f' M' E' ->
  -1074 <= E <= -52 -> -1074 <= E' <= -52 ->
  SFval 1074 f <= SFval 1074 f' ->
  SFval 1120 (mul100 f) <= SFval 1120 (mul100 f').
Proof.
  intros [[-> ->]|(mo & eo & -> & HM & He & Hmo)] Hf' HE HE' Hv.
  - cbn. apply SFval_nonneg.
  - destruct Hf' as [[-> ->]|(mo' & eo' & -> & HM' & He' & Hmo')].
    + exfalso. cbn [SFval] in Hv.
      pose proof (pow2_pos (eo + 1074) ltac:(lia)). nia.
    + unfold mul100.
      destruct (mul_E_range mo eo Hmo ltac:(lia)) as [H1 H2].
      destruct (mul_E_range mo' eo' Hmo' ltac:(lia)) as [H1' H2'].
      rewrite (rounded_to_val _ _ _ 1120 (mul100_value mo eo Hmo ltac:(lia))) by lia.
      rewrite (rounded_to_val _ _ _ 1120 (mul100_value mo' eo' Hmo' ltac:(lia))) by lia.
      pose proof (round_value_mono 1120 (2 * (Zpos mo * Zpos C100)) 1 (eo - 46)
                    (2 * (Zpos mo' * Zpos C100)) 1 (eo' - 46)
                    (mul_E mo eo) (mul_E mo' eo')) as Hm.
      apply Hm; try reflexivity; try lia.
      cbn [SFval] in Hv.
      replace (eo - 46 + 1120) with (eo + 1074) by lia.
      replace (eo' - 46 + 1120) with (eo' + 1074) by lia.
      nia.
Qed.

Lemma to_int_rounded f M E :
  rounded_to f M E -> -1120 <= E -> PyFloat.to_int f = Ok (SFval 1120 f / 2 ^ 1120).
Proof.
  intros [[-> ->]|(mo & eo & -> & HM & He & Hmo)] HE; [reflexivity|].
  cbn [PyFloat.to_int SFval]. f_equal.
  destruct eo as [|k|k].
  - cbn [Z.add]. rewrite Z.pow_0_r, Z.mul_1_r, Z.div_mul by lia. reflexivity.
  - rewrite pow2_split by lia. rewrite Z.mul_assoc, Z.div_mul by lia. reflexivity.
  - rewrite Z.quot_div_nonneg by lia.
    assert (2 ^ 1120 = 2 ^ Zpos k * 2 ^ (Zneg k + 1120)).
    { rewrite <- pow2_split by lia. f_equal. lia. }
    rewrite H. pose proof (pow2_pos (Zneg k + 1120) ltac:(lia)).
    pose proof (pow2_pos (Zpos k) ltac:(lia)).
    rewrite Z.div_mul_cancel_r by lia. reflexivity.
Qed.

Lemma mul100_rounded f M E :
  rounded_to f M E -> -1074 <= E <= -52 ->
  exists M2 E2, rounded_to (mul100 f) M2 E2 /\ -1074 <= E2 <= 10.
Proof.
  intros [[-> ->]|(mo & eo & -> & HM & He & Hmo)] HE.
  - exists 0, (-1074). split; [left; split; reflexivity|lia].
  - exists (mul_M mo eo), (mul_E mo eo).
    split; [apply mul100_value; lia|apply mul_E_range; lia].
Qed.

Lemma percentage_pos p N :
  (p <= N)%positive -> percentage (Zpos p) (Zpos N) = Ok (pct p N).
Proof.
  intros H. pose proof (SFdiv_value p N H) as Hd.
  pose proof (div_E_range p N H) as HE. pose proof (div_s_range p N H) as Hs.
  destruct (mul100_rounded _ _ _ Hd ltac:(lia)) as (M2 & E2 & Hm & HE2).
  unfold percentage, PyFloat.int_truediv. cbn [PyFloat.sign_magnitude].
  change (SFdiv PyFloat.prec PyFloat.emax (S754_finite false p 0) (S754_finite false N 0))
    with (fdiv p N).
  assert (Hq : match fdiv p N with
               | S754_infinity _ | S754_nan =>
                   Raise "integer division result too large for a float"
               | q => Ok q
               end = Ok (fdiv p N)).
  { fold (fdiv p N) in Hd.
    destruct Hd as [[_ ->]|(mo & eo & -> & _)]; reflexivity. }
  rewrite Hq. change (PyFloat.mul_int100 (fdiv p N)) with (mul100 (fdiv p N)).
  apply (to_int_rounded _ _ _ Hm). lia.
Qed.

Lemma pct_nonneg p N : 0 <= pct p N.
Proof.
  unfold pct. apply Z.div_pos; [apply SFval_nonneg|]. apply pow2_pos; lia.
Qed.

Lemma pct_mono p p' N :
  (p <= p')%positive -> (p' <= N)%positive -> pct p N <= pct p' N.
Proof.
  intros Hpp HpN. assert (HpN0 : (p <= N)%positive) by lia.
  unfold pct. apply Z.div_le_mono; [apply pow2_pos; lia|].
  pose proof (div_E_range p N HpN0). pose proof (div_s_range p N HpN0).
  pose proof (div_E_range p' N HpN). pose proof (div_s_range p' N HpN).
  eapply mul100_mono.
  - apply (SFdiv_value p N HpN0).
  - apply (SFdiv_value p' N HpN).
  - lia.
  - lia.
  - apply fdiv_mono; assumption.
Qed.

Lemma div_eucl_mul_l N k : Z.div_eucl (Zpos N * k) (Zpos N) = (k, 0).
Proof.
  pose proof (Z_div_mod (Zpos N * k) (Zpos N) ltac:(lia)) as H.
  destruct (Z.div_eucl (Zpos N * k) (Zpos N)) as [q r]. destruct H as [H1 H2].
  assert (r = Zpos N * (k - q)) by lia.
  assert (k - q = 0) by nia.
  f_equal; lia.
Qed.

Lemma fdiv_same N : fdiv N N = S754_finite false (2 ^ 52) (-52).
Proof.
  unfold fdiv, SFdiv, SFdiv_core_binary.
  rewrite !Z.add_0_r. change (0 - 0) with 0.
  replace (Zdigits2 (Zpos N) - Zdigits2 (Zpos N)) with 0 by lia.
  change (Z.min (fexp 53 1024 0) 0) with (-53). change (0 - -53) with 53.
  cbv iota beta. rewrite Z.shiftl_mul_pow2 by lia.
  rewrite div_eucl_mul_l.
  assert (Hl : new_location (Zpos N) 0 = loc_Exact).
  { unfold new_location. destruct (Z.even (Zpos N)); reflexivity. }
  rewrite Hl. reflexivity.
Qed.

Lemma pct_full N : pct N N = 100.
Proof. unfold pct. rewrite fdiv_same. reflexivity. Qed.

Lemma pct_le_100 p N : (p <= N)%positive -> pct p N <= 100.
Proof.
  intros H. rewrite <- (pct_full N). apply pct_mono; [assumption|lia].
Qed.

(** * Part IV: the worker *)

Lemma lstrip_empty s : lstrip s = ""%string <-> blank s = true.
Proof.
  induction s as [|c s IH]; cbn; [tauto|].
  destruct (isspace c); cbn; [exact IH|].
  split; discriminate.
Qed.

Lemma rstrip_empty s : rstrip s = "" <-> blank s = true.
Proof.
  induction s as [|c s IH]; cbn; [tauto|].
  destruct (rstrip s) eqn:Er.
  - destruct (isspace c); cbn; [tauto|]. split; discriminate.
  - split; [discriminate|]. intros H. apply andb_true_iff in H.
    destruct H as [_ H]. apply IH in H. discriminate.
Qed.

Lemma lstrip_head s : lstrip s = "" \/ exists c r, lstrip s = String c r /\ isspace c = false.
Proof.
  induction s as [|c s IH]; cbn; [left; reflexivity|].
  destruct (isspace c) eqn:Ec; [exact IH|].
  right. exists c, s. split; [reflexivity|exact Ec].
Qed.

Lemma strip_empty s : strip s = "" <-> blank s = true.
Proof.
  unfold strip. rewrite rstrip_empty. rewrite <- (lstrip_empty s).
  destruct (lstrip_head s) as [->|(c & r & -> & Hc)]; cbn; [split; reflexivity|].
  rewrite Hc. cbn. split; discriminate.
Qed.

Lemma truthy_strip s : truthy (strip s) = negb (blank s).
Proof.
  unfold truthy. destruct (blank s) eqn:Eb.
  - apply strip_empty in Eb. rewrite Eb. reflexivity.
  - destruct (String.eqb_spec (strip s) ""); [|reflexivity].
    apply strip_empty in e. congruence.
Qed.

Lemma blank_app s1 s2 : blank (s1 ++ s2)%string = blank s1 && blank s2.
Proof.
  induction s1 as [|c s1 IH]; cbn; [reflexivity|].
  rewrite IH, andb_assoc. reflexivity.
Qed.

Lemma blank_join_lines l : blank (join_lines l) = forallb blank l.
Proof.
  unfold join_lines. induction l as [|x l IH]; [reflexivity|].
  destruct l as [|y l].
  - cbn. rewrite andb_true_r. reflexivity.
  - change (String.concat newline (x :: y :: l))
      with (x ++ newline ++ String.concat newline (y :: l))%string.
    rewrite !blank_app, IH. reflexivity.
Qed.

Lemma split_lines_nonempty s : split_lines s <> [].
Proof.
  destruct s as [|c s]; cbn [split_lines]; [discriminate|].
  destruct (Ascii.eqb c (ascii_of_nat 10)); [discriminate|].
  destruct (split_lines s); discriminate.
Qed.

Lemma join_lines_cons c l ls :
  join_lines (String c l :: ls) = String c (join_lines (l :: ls)).
Proof. destruct ls; reflexivity. Qed.

(** Splitting a text into lines and joining them again gives the text. *)
Lemma join_split_lines s : join_lines (split_lines s) = s.
Proof.
  induction s as [|c s IH]; [reflexivity|].
  cbn [split_lines]. pose proof (split_lines_nonempty s) as Hne.
  destruct (split_lines s) as [|l ls]; [contradiction|].
  destruct (Ascii.eqb_spec c (ascii_of_nat 10)) as [->|_].
  - change (join_lines ("" :: l :: ls))
      with (String (ascii_of_nat 10) (join_lines (l :: ls))).
    rewrite IH. reflexivity.
  - rewrite join_lines_cons, IH. reflexivity.
Qed.

Lemma set_shape_text_lines sh t : set_shape_text sh t = with_lines sh (split_lines t).
Proof.
  unfold set_shape_text, with_lines, frame_of_text. rewrite join_split_lines.
  reflexivity.
Qed.

Section WorkerFacts.
Context {T : Type} (E : env T).

Lemma bind_eq {A B} (m : M T A) (k : A -> M T B) w :
  bind m k w = match m w with
               | (Ok a, w') => k a w'
               | (Raise msg, w') => (Raise msg, w')
               end.
Proof. reflexivity. Qed.

Lemma translate_eq tr s (w : world T) :
  attempt (translate E tr s) w =
  (Ok (fst (service E (t_source tr) (t_target tr) (svc w) s)),
   {| fs := fs w; svc := snd (service E (t_source tr) (t_target tr) (svc w) s);
      log := log w ++ [EvTranslate s] |}).
Proof.
  unfold translate, attempt, bind, tell. cbn.
  destruct (service E (t_source tr) (t_target tr) (svc w) s) as [r st]. reflexivity.
Qed.

Lemma prefix_refl {A} (l : list A) : prefix l l.
Proof. induction l; constructor; assumption. Qed.

Lemma nonblank_false s : nonblank s = false -> blank s = true.
Proof. unfold nonblank. destruct (blank s); [reflexivity|discriminate]. Qed.

Lemma nonblank_true s : nonblank s = true -> blank s = false.
Proof. unfold nonblank. destruct (blank s); [discriminate|reflexivity]. Qed.

Lemma unchanged_refl (ps : list paragraph) :
  Forall2 (fun p p' => blank (p_text p) = true -> p' = p) ps ps.
Proof. induction ps; constructor; auto. Qed.

(** The paragraph loop: it returns normally; it sends an initial part of
    the non-blank paragraphs; when no exception left it, every such
    paragraph holds its translation, and otherwise it stopped at the
    first paragraph whose step raised. *)
Lemma for_paragraphs_spec tr ps : forall w : world T,
  exists ps' exn w' sent,
    for_paragraphs E tr ps w = (Ok (ps', exn), w')
    /\ fs w' = fs w
    /\ log w' = log w ++ map EvTranslate sent
    /\ prefix sent (filter nonblank (map p_text ps))
    /\ hd_error sent = hd_error (filter nonblank (map p_text ps))
    /\ Forall2 (fun p p' => blank (p_text p) = true -> p' = p) ps ps'
    /\ match exn with
       | None => sent = filter nonblank (map p_text ps)
                 /\ translated_all E tr (svc w) ps ps' (svc w')
       | Some msg => stopped_at E tr (svc w) ps ps' sent msg (svc w')
       end.
Proof.
  induction ps as [|p rest IH]; intros w.
  - exists [], None, w, []. cbn. rewrite app_nil_r.
    repeat split; constructor.
  - cbn [for_paragraphs map filter].
    rewrite truthy_strip. fold (nonblank (p_text p)).
    destruct (nonblank (p_text p)) eqn:Hnb.
    + pose proof (nonblank_true _ Hnb) as Hb.
      rewrite bind_eq, translate_eq.
      destruct (service E (t_source tr) (t_target tr) (svc w) (p_text p))
        as [[t|msg] st] eqn:Hs; cbn [fst snd].
      * rewrite bind_eq. unfold assign_paragraph.
        destruct (assign_error E t) as [msg|] eqn:Ha; cbn [ret].
        -- exists ({| p_text := residue E (p_text p) t |} :: rest), (Some msg),
             {| fs := fs w; svc := st; log := log w ++ [EvTranslate (p_text p)] |},
             [p_text p].
           cbn. repeat split.
           ++ constructor. constructor.
           ++ constructor; [congruence|apply unchanged_refl].
           ++ exists [], [], p, rest, {| p_text := residue E (p_text p) t |}, (svc w).
              repeat split; [constructor|exact Hb|].
              right. exists t. repeat split; assumption.
        -- set (w1 := {| fs := fs w; svc := st;
                         log := log w ++ [EvTranslate (p_text p)] |}).
           destruct (IH w1)
             as (ps' & exn & w' & sent & Hr & Hfs & Hlog & Hpre & Hhd & Hbl & Hexn).
           exists ({| p_text := t |} :: ps'), exn, w', (p_text p :: sent).
           cbv beta iota. rewrite bind_eq, Hr. cbn [ret].
           assert (Hok : call_ok E tr (svc w) (p_text p) t st) by (split; assumption).
           split; [reflexivity|]. split; [exact Hfs|].
           split; [rewrite Hlog; cbn; rewrite <- app_assoc; reflexivity|].
           split; [constructor; exact Hpre|]. split; [reflexivity|].
           split; [constructor; [congruence|exact Hbl]|].
           destruct exn as [msg|].
           ++ destruct Hexn as (pre & pre' & q & post & q' & st1
                                & -> & Hall & Hq & Hf & -> & ->).
              exists (p :: pre), ({| p_text := t |} :: pre'), q, post, q', st1.
              cbn [map filter]. rewrite Hnb.
              repeat split; try assumption.
              apply (translated_next E tr (svc w) p t st); assumption.
           ++ destruct Hexn as [-> Hall]. split; [reflexivity|].
              apply (translated_next E tr (svc w) p t st); assumption.
      * exists (p :: rest), (Some msg),
          {| fs := fs w; svc := st; log := log w ++ [EvTranslate (p_text p)] |},
          [p_text p].
        cbn. repeat split.
        -- constructor. constructor.
        -- apply unchanged_refl.
        -- exists [], [], p, rest, p, (svc w).
           repeat split; [constructor|exact Hb|].
           left. split; [exact Hs|reflexivity].
    + pose proof (nonblank_false _ Hnb) as Hb.
      destruct (IH w) as (ps' & exn & w' & sent & Hr & Hfs & Hlog & Hpre & Hhd & Hbl & Hexn).
      exists (p :: ps'), exn, w', sent.
      rewrite bind_eq, Hr. cbn [ret].
      split; [reflexivity|]. split; [exact Hfs|]. split; [exact Hlog|].
      split; [exact Hpre|]. split; [exact Hhd|].
      split; [constructor; [reflexivity|exact Hbl]|].
      destruct exn as [msg|].
      * destruct Hexn as (pre & pre' & q & post & q' & st1
                          & -> & Hall & Hq & Hf & -> & ->).
        exists (p :: pre), (p :: pre'), q, post, q', st1.
        cbn [map filter]. rewrite Hnb.
        repeat split; try assumption.
        apply translated_skip; assumption.
      * destruct Hexn as [-> Hall]. split; [reflexivity|].
        apply translated_skip; assumption.
Qed.

Lemma translated_all_blank tr st ps :
  forallb blank (map p_text ps) = true -> translated_all E tr st ps ps st.
Proof.
  induction ps as [|p ps IH]; cbn; [constructor|].
  intros H. apply andb_true_iff in H. destruct H as [H1 H2].
  apply translated_skip; auto.
Qed.
End WorkerFacts.

Lemma percentage_ok p N : 1 <= p <= N -> percentage p N = Ok (pctZ p N).
Proof.
  intros H. unfold pctZ.
  destruct p as [|p|p]; try lia. destruct N as [|N|N]; try lia.
  cbn [Z.to_pos]. apply percentage_pos. lia.
Qed.

Lemma pctZ_mono p p' N : 1 <= p <= p' -> p' <= N -> pctZ p N <= pctZ p' N.
Proof.
  intros H H'. unfold pctZ. apply pct_mono; lia.
Qed.

Lemma pctZ_range p N : 1 <= p <= N -> 0 <= pctZ p N <= 100.
Proof.
  intros H. unfold pctZ. split; [apply pct_nonneg|apply pct_le_100; lia].
Qed.

Lemma pctZ_full N : 1 <= N -> pctZ N N = 100.
Proof. intros. apply pct_full. Qed.

Lemma progress_values_succ total from n :
  progress_values total from (S n)
  = pctZ (from + 1) total :: progress_values total (from + 1) n.
Proof.
  unfold progress_values. cbn [seq map]. f_equal.
  rewrite <- seq_shift, map_map. apply map_ext. intros k. f_equal.
  rewrite Nat2Z.inj_succ. lia.
Qed.

Lemma progress_values_app total from n m :
  progress_values total from (n + m)
  = progress_values total from n ++ progress_values total (from + Z.of_nat n) m.
Proof.
  revert from. induction n as [|n IH]; intros from.
  - replace (from + Z.of_nat 0) with from by lia. reflexivity.
  - cbn [Nat.add]. rewrite !progress_values_succ, IH. cbn [app]. do 3 f_equal. lia.
Qed.

Lemma signals_of_app l l' : signals_of (l ++ l') = signals_of l ++ signals_of l'.
Proof. apply flat_map_app. Qed.

Lemma sent_of_app l l' : sent_of (l ++ l') = sent_of l ++ sent_of l'.
Proof. apply flat_map_app. Qed.

Lemma sent_of_translate l : sent_of (map EvTranslate l) = l.
Proof.
  induction l as [|x l IH]; [reflexivity|].
  change (sent_of (map EvTranslate (x :: l))) with (x :: sent_of (map EvTranslate l)).
  rewrite IH. reflexivity.
Qed.

Lemma local_signals l : Forall local l -> signals_of l = [].
Proof.
  induction 1 as [|ev l H _ IH]; [reflexivity|].
  destruct ev; cbn in *; try contradiction; exact IH.
Qed.

Lemma local_in_loop l : Forall local l -> Forall in_loop l.
Proof.
  apply Forall_impl. intros [] H; cbn in *; tauto.
Qed.

Lemma filter_nonblank_blank l : forallb blank l = true -> filter nonblank l = [].
Proof.
  induction l as [|x l IH]; cbn; [reflexivity|].
  intros H. apply andb_true_iff in H. destruct H as [H1 H2].
  unfold nonblank at 1. rewrite H1. cbn. auto.
Qed.

Section ShapeFacts.
Context {T : Type} (E : env T).

(** A shape with a direct text that is only white space. *)
Lemma process_shape_text_blank tr sh s (w : world T) :
  text sh = Some s -> blank s = true -> process_shape E tr sh w = (Ok sh, w).
Proof.
  intros Ht Hb. unfold process_shape, shape_body. rewrite Ht, truthy_strip, Hb.
  reflexivity.
Qed.

(** A shape with a direct text to translate. *)
Lemma process_shape_text tr sh s (w : world T) :
  text sh = Some s -> blank s = false ->
  process_shape E tr sh w =
  match service E (t_source tr) (t_target tr) (svc w) s with
  | (Ok t, st) =>
      match assign_error E t with
      | None =>
          (Ok (set_shape_text sh t),
           {| fs := fs w; svc := st; log := log w ++ [EvTranslate s] |})
      | Some msg =>
          (Ok (with_lines sh (lines_left E s t)),
           {| fs := fs w; svc := st;
              log := log w ++ [EvTranslate s;
                               EvPrint ("Error processing shape: " ++ msg)%string] |})
      end
  | (Raise msg, st) =>
      (Ok sh,
       {| fs := fs w; svc := st;
          log := log w ++ [EvTranslate s;
                           EvPrint ("Error processing shape: " ++ msg)%string] |})
  end.
Proof.
  intros Ht Hb. unfold process_shape, shape_body. rewrite Ht, truthy_strip, Hb.
  cbn [negb]. rewrite bind_eq, bind_eq, translate_eq.
  destruct (service E (t_source tr) (t_target tr) (svc w) s) as [[t|msg] st];
    cbn [fst snd].
  - unfold assign_shape.
    destruct (assign_error E t); cbn; [rewrite <- app_assoc|]; reflexivity.
  - cbn. rewrite <- app_assoc. reflexivity.
Qed.

(** A shape with no direct text and a text frame. *)
Lemma process_shape_frame tr sh tf (w : world T) :
  text sh = None -> text_frame sh = Some tf ->
  exists sh' w' sent,
    process_shape E tr sh w = (Ok sh', w')
    /\ fs w' = fs w
    /\ text sh' = None
    /\ text_frame sh' <> None
    /\ prefix sent (filter nonblank (map p_text (paragraphs tf)))
    /\ hd_error sent = hd_error (filter nonblank (map p_text (paragraphs tf)))
    /\ Forall2 (fun p p' => blank (p_text p) = true -> p' = p)
               (paragraphs tf) (frame_paragraphs sh')
    /\ ((log w' = log w ++ map EvTranslate sent
         /\ sent = filter nonblank (map p_text (paragraphs tf))
         /\ translated_all E tr (svc w) (paragraphs tf) (frame_paragraphs sh') (svc w'))
        \/ (exists msg,
              log w' = log w ++ map EvTranslate sent
                       ++ [EvPrint ("Error processing shape: " ++ msg)%string]
              /\ stopped_at E tr (svc w) (paragraphs tf) (frame_paragraphs sh')
                            sent msg (svc w'))).
Proof.
  intros Ht Hf. unfold process_shape, shape_body. rewrite Ht, Hf, truthy_strip.
  unfold tf_text. rewrite blank_join_lines.
  destruct (forallb blank (map p_text (paragraphs tf))) eqn:Hall; cbn [negb].
  - exists sh, w, []. cbn [map app]. rewrite app_nil_r.
    unfold frame_paragraphs. rewrite Hf.
    rewrite (filter_nonblank_blank _ Hall).
    split; [reflexivity|]. split; [reflexivity|]. split; [exact Ht|].
    split; [discriminate|]. split; [constructor|]. split; [reflexivity|].
    split; [apply unchanged_refl|].
    left. split; [reflexivity|]. split; [reflexivity|].
    apply translated_all_blank. exact Hall.
  - destruct (for_paragraphs_spec E tr (paragraphs tf) w)
      as (ps' & exn & w' & sent & Hr & Hfs & Hlog & Hpre & Hhd & Hbl & Hexn).
    rewrite bind_eq, bind_eq, Hr. cbn [ret].
    destruct exn as [msg|].
    + eexists _, _, sent. unfold print, tell. rewrite bind_eq. cbn [ret].
      split; [reflexivity|]. cbn [fs log svc text set_paragraphs text_frame].
      unfold frame_paragraphs. cbn [text_frame set_paragraphs paragraphs].
      split; [exact Hfs|]. split; [exact Ht|]. split; [discriminate|].
      split; [exact Hpre|]. split; [exact Hhd|]. split; [exact Hbl|].
      right. exists msg. split; [rewrite Hlog, <- app_assoc; reflexivity|exact Hexn].
    + exists (set_paragraphs sh ps'), w', sent.
      unfold frame_paragraphs. cbn [text set_paragraphs text_frame paragraphs].
      split; [reflexivity|]. split; [exact Hfs|]. split; [exact Ht|].
      split; [discriminate|].
      split; [exact Hpre|]. split; [exact Hhd|]. split; [exact Hbl|].
      left. split; [exact Hlog|exact Hexn].
Qed.

(** Whatever the translator and the setter do, processing a shape
    returns normally and only talks to the translator and the console. *)
Lemma process_shape_spec tr sh (w : world T) :
  exists sh' w' evs,
    process_shape E tr sh w = (Ok sh', w')
    /\ fs w' = fs w
    /\ log w' = log w ++ evs
    /\ Forall local evs
    /\ (forall s, first_text sh = Some s -> In (EvTranslate s) evs).
Proof.
  unfold first_text, frame_paragraphs.
  destruct (text sh) as [s|] eqn:Ht.
  - unfold nonblank. destruct (blank s) eqn:Hb; cbn [negb].
    + exists sh, w, []. rewrite (process_shape_text_blank tr sh s w Ht Hb), app_nil_r.
      repeat split; [constructor|discriminate].
    + rewrite (process_shape_text tr sh s w Ht Hb).
      destruct (service E (t_source tr) (t_target tr) (svc w) s) as [[t|msg] st];
        [destruct (assign_error E t)|];
        (eexists _, _, _; repeat split;
         [repeat constructor|intros s' [= <-]; left; reflexivity]).
  - destruct (text_frame sh) as [tf|] eqn:Hf.
    + destruct (process_shape_frame tr sh tf w Ht Hf)
        as (sh' & w' & sent & Hr & Hfs & _ & _ & _ & Hhd & _ & Hcase).
      assert (Hsent : forall s, hd_error (filter nonblank (map p_text (paragraphs tf)))
                                = Some s -> In s sent).
      { intros s Hs. rewrite <- Hhd in Hs. destruct sent as [|x sent]; [discriminate|].
        injection Hs as ->. left. reflexivity. }
      assert (Hloc : Forall local (map EvTranslate sent)).
      { apply Forall_forall. intros ev Hin. apply in_map_iff in Hin.
        destruct Hin as (x & <- & _). exact I. }
      destruct Hcase as [(Hlog & _)|(msg & Hlog & _)].
      * exists sh', w', (map EvTranslate sent).
        repeat split; try assumption.
        intros s Hs. apply in_map. auto.
      * exists sh', w',
          (map EvTranslate sent ++ [EvPrint ("Error processing shape: " ++ msg)%string]).
        repeat split; try assumption.
        -- apply Forall_app. split; [exact Hloc|repeat constructor].
        -- intros s Hs. apply in_or_app. left. apply in_map. auto.
    + exists sh, w, []. unfold process_shape, shape_body. rewrite Ht, Hf, app_nil_r.
      repeat split; [constructor|discriminate].
Qed.
End ShapeFacts.

Lemma len_cons {A} (x : A) l : len (x :: l) = 1 + len l.
Proof. unfold len. cbn [List.length]. lia. Qed.

Lemma len_nonneg {A} (l : list A) : 0 <= len l.
Proof. unfold len. lia. Qed.

Lemma sum_lens sls :
  sum (map (fun sl => len (shapes sl)) sls) = len (flat_map shapes sls).
Proof.
  induction sls as [|sl sls IH]; [reflexivity|].
  cbn [map sum fold_right flat_map]. fold (sum (map (fun sl => len (shapes sl)) sls)).
  rewrite IH. unfold len. rewrite length_app. lia.
Qed.

Section LoopFacts.
Context {T : Type} (E : env T).

Lemma for_shapes_spec tr total shs : forall processed (w : world T),
  0 <= processed -> processed + len shs <= total ->
  exists shs' w' evs,
    for_shapes E tr total shs processed w = (Ok (shs', processed + len shs), w')
    /\ fs w' = fs w
    /\ log w' = log w ++ evs
    /\ Forall in_loop evs
    /\ signals_of evs = map Progress (progress_values total processed (List.length shs))
    /\ (forall sh s, In sh shs -> first_text sh = Some s -> In (EvTranslate s) evs)
    /\ (shs = [] -> evs = []).
Proof.
  induction shs as [|sh rest IH]; intros processed w Hp Ht.
  - exists [], w, []. cbn. unfold len. cbn. rewrite Z.add_0_r, app_nil_r.
    repeat split; [constructor|contradiction].
  - rewrite len_cons in *. pose proof (len_nonneg rest) as Hl.
    destruct (process_shape_spec E tr sh w) as (sh' & w1 & ev1 & Hr1 & Hfs1 & Hlog1 & Hloc1 & Hin1).
    cbn [for_shapes]. unfold bind at 1. rewrite Hr1.
    unfold bind at 1. unfold lift. rewrite (percentage_ok (processed + 1) total) by lia.
    unfold bind at 1. unfold emit, tell.
    set (w2 := {| fs := fs w1; svc := svc w1;
                  log := log w1 ++ [EvEmit (Progress (pctZ (processed + 1) total))] |}).
    destruct (IH (processed + 1) w2 ltac:(lia) ltac:(lia))
      as (rest' & w3 & ev3 & Hr3 & Hfs3 & Hlog3 & Hloop3 & Hsig3 & Hin3 & _).
    unfold bind. rewrite Hr3. cbn [ret].
    exists (sh' :: rest'), w3,
      (ev1 ++ [EvEmit (Progress (pctZ (processed + 1) total))] ++ ev3).
    replace (processed + (1 + len rest)) with (processed + 1 + len rest) by lia.
    repeat split.
    + rewrite Hfs3. cbn. exact Hfs1.
    + rewrite Hlog3. cbn. rewrite Hlog1, <- !app_assoc. reflexivity.
    + apply Forall_app. split; [apply local_in_loop; exact Hloc1|].
      constructor; [exact I|exact Hloop3].
    + rewrite !signals_of_app, (local_signals _ Hloc1), Hsig3. cbn [List.length].
      rewrite progress_values_succ. reflexivity.
    + intros x s [<-|Hx] Hs.
      * apply in_or_app. left. eauto.
      * apply in_or_app. right. right. eauto.
    + discriminate.
Qed.

Lemma for_slides_spec tr total sls : forall processed (w : world T),
  0 <= processed -> processed + len (flat_map shapes sls) <= total ->
  exists sls' w' evs,
    for_slides E tr total sls processed w
      = (Ok (sls', processed + len (flat_map shapes sls)), w')
    /\ fs w' = fs w
    /\ log w' = log w ++ evs
    /\ Forall in_loop evs
    /\ signals_of evs
       = map Progress (progress_values total processed
                         (List.length (flat_map shapes sls)))
    /\ (forall sh s, In sh (flat_map shapes sls) -> first_text sh = Some s ->
                     In (EvTranslate s) evs)
    /\ (flat_map shapes sls = [] -> evs = []).
Proof.
  induction sls as [|sl rest IH]; intros processed w Hp Ht.
  - exists [], w, []. cbn. unfold len. cbn. rewrite Z.add_0_r, app_nil_r.
    repeat split; [constructor|contradiction].
  - cbn [flat_map] in *.
    assert (Hlen : len (shapes sl ++ flat_map shapes rest)
                   = len (shapes sl) + len (flat_map shapes rest)).
    { unfold len. rewrite length_app. lia. }
    rewrite Hlen in *.
    pose proof (len_nonneg (shapes sl)). pose proof (len_nonneg (flat_map shapes rest)).
    destruct (for_shapes_spec tr total (shapes sl) processed w Hp ltac:(lia))
      as (shs' & w1 & ev1 & Hr1 & Hfs1 & Hlog1 & Hloop1 & Hsig1 & Hin1 & Hnil1).
    cbn [for_slides]. unfold bind at 1. rewrite Hr1.
    destruct (IH (processed + len (shapes sl)) w1 ltac:(lia) ltac:(lia))
      as (rest' & w2 & ev2 & Hr2 & Hfs2 & Hlog2 & Hloop2 & Hsig2 & Hin2 & Hnil2).
    unfold bind. rewrite Hr2. cbn [ret].
    exists ({| shapes := shs' |} :: rest'), w2, (ev1 ++ ev2).
    replace (processed + (len (shapes sl) + len (flat_map shapes rest)))
      with (processed + len (shapes sl) + len (flat_map shapes rest)) by lia.
    repeat split.
    + congruence.
    + rewrite Hlog2, Hlog1, <- app_assoc. reflexivity.
    + apply Forall_app. split; assumption.
    + rewrite signals_of_app, Hsig1, Hsig2, length_app, progress_values_app, map_app.
      reflexivity.
    + intros x s Hx Hs. apply in_app_or in Hx. apply in_or_app.
      destruct Hx; [left|right]; eauto.
    + intros Hnil. apply app_eq_nil in Hnil. destruct Hnil as [Ha Hb].
      rewrite (Hnil1 Ha), (Hnil2 Hb). reflexivity.
Qed.
End LoopFacts.

Section RunFacts.
Context {T : Type} (E : env T).

Lemma emit_eq s (w : world T) :
  emit s w = (Ok tt, {| fs := fs w; svc := svc w; log := log w ++ [EvEmit s] |}).
Proof. reflexivity. Qed.

Lemma GoogleTranslator_eq src tgt (w : world T) :
  GoogleTranslator E src tgt w =
  (match construct_error E src tgt with
   | Some msg => Raise msg
   | None => Ok {| t_source := src; t_target := tgt |}
   end,
   {| fs := fs w; svc := svc w; log := log w ++ [EvConstruct src tgt] |}).
Proof.
  unfold GoogleTranslator. rewrite bind_eq. cbn.
  destruct (construct_error E src tgt); reflexivity.
Qed.

Lemma Presentation_eq path (w : world T) :
  Presentation path w =
  (fs w path, {| fs := fs w; svc := svc w; log := log w ++ [EvOpen path] |}).
Proof. reflexivity. Qed.

Lemma save_eq prs path (w : world T) :
  save E prs path w =
  match save_error E path with
  | Some msg =>
      (Raise msg, {| fs := spoiled E (fs w) path; svc := svc w;
                     log := log w ++ [EvSave path] |})
  | None =>
      (Ok tt, {| fs := write_file (alias E) (fs w) path prs; svc := svc w;
                 log := log w ++ [EvSave path] |})
  end.
Proof.
  unfold save, spoiled. rewrite bind_eq. cbn.
  destruct (save_error E path); [|reflexivity].
  destruct (save_leaves E path); reflexivity.
Qed.

(** What a run does, by the three places where it can fail. *)
Lemma run_cases (j : job) (w : world T) :
  match construct_error E (source j) (target j) with
  | Some msg =>
      run E j w =
      (Ok tt, {| fs := fs w; svc := svc w;
                 log := log w ++ [EvConstruct (source j) (target j);
                                  EvEmit (Error msg)] |})
  | None =>
      match fs w (input_file j) with
      | Raise msg =>
          run E j w =
          (Ok tt, {| fs := fs w; svc := svc w;
                     log := log w ++ [EvConstruct (source j) (target j);
                                      EvOpen (input_file j);
                                      EvEmit (Error msg)] |})
      | Ok prs =>
          exists sls st evs,
            Forall in_loop evs
            /\ signals_of evs
               = map Progress (progress_values (total_units prs) 0
                                 (List.length (all_shapes prs)))
            /\ (forall sh s, In sh (all_shapes prs) -> first_text sh = Some s ->
                             In (EvTranslate s) evs)
            /\ (all_shapes prs = [] -> evs = [])
            /\ run E j w =
               (Ok tt,
                match save_error E (output_file j) with
                | Some msg =>
                    {| fs := spoiled E (fs w) (output_file j); svc := st;
                       log := log w ++ [EvConstruct (source j) (target j);
                                        EvOpen (input_file j)]
                              ++ evs
                              ++ [EvSave (output_file j); EvEmit (Error msg)] |}
                | None =>
                    {| fs := write_file (alias E) (fs w) (output_file j)
                               {| slides := sls |};
                       svc := st;
                       log := log w ++ [EvConstruct (source j) (target j);
                                        EvOpen (input_file j)]
                              ++ evs
                              ++ [EvSave (output_file j); EvEmit Finished] |}
                end)
      end
  end.
Proof.
  unfold run, try_except. rewrite bind_eq, GoogleTranslator_eq.
  destruct (construct_error E (source j) (target j)) as [msg|] eqn:Hc.
  - rewrite emit_eq. cbn [fs svc log]. rewrite <- app_assoc. reflexivity.
  - rewrite bind_eq, Presentation_eq. cbn [fs svc log].
    destruct (fs w (input_file j)) as [prs|msg] eqn:Ho.
    + set (w1 := {| fs := fs w; svc := svc w;
                    log := (log w ++ [EvConstruct (source j) (target j)])
                           ++ [EvOpen (input_file j)] |}).
      pose proof (sum_lens (slides prs)) as Hsum.
      fold (total_units prs) in Hsum. fold (all_shapes prs) in Hsum.
      destruct (for_slides_spec E {| t_source := source j; t_target := target j |}
                  (total_units prs) (slides prs) 0 w1 ltac:(lia)
                  ltac:(fold (all_shapes prs); lia))
        as (sls & w2 & evs & Hr & Hfs & Hlog & Hloop & Hsig & Hin & Hnil).
      fold (total_units prs). rewrite bind_eq, Hr.
      exists sls, (svc w2), evs.
      split; [exact Hloop|]. split; [exact Hsig|]. split; [exact Hin|].
      split; [exact Hnil|].
      destruct w2 as [fs2 svc2 log2]. cbn [fs svc log] in *. subst fs2 log2.
      rewrite bind_eq, save_eq. cbn [fs svc log].
      destruct (save_error E (output_file j)) as [msg|]; rewrite emit_eq;
        unfold w1; cbn [fs svc log]; rewrite <- !app_assoc; reflexivity.
    + rewrite emit_eq. cbn [fs svc log]. rewrite <- !app_assoc. reflexivity.
Qed.
End RunFacts.

Lemma put_file_other al f path c p :
  same_file al p path = false -> put_file al f path c p = f p.
Proof. intros H. unfold put_file. rewrite H. reflexivity. Qed.

Lemma put_file_same al f path c p :
  same_file al p path = true -> put_file al f path c p = c.
Proof. intros H. unfold put_file. rewrite H. reflexivity. Qed.

Lemma same_file_refl al p : same_file al p p = true.
Proof. unfold same_file. rewrite String.eqb_refl. reflexivity. Qed.

Lemma skipn_length_app {A} (l x : list A) : skipn (List.length l) (l ++ x) = x.
Proof. induction l; cbn; auto. Qed.

Lemma run_viewed {T} (E : env T) j (w : world T) : run_view E j w.
Proof.
  pose proof (run_cases E j w) as H.
  destruct (construct_error E (source j) (target j)) as [msg|] eqn:Hc.
  - apply (view_construct E j w msg Hc);
      unfold trace, run_world, events_since; rewrite H; cbn [snd log fs];
      [apply skipn_length_app|reflexivity].
  - destruct (fs w (input_file j)) as [prs|msg] eqn:Ho.
    + destruct H as (sls & st & evs & Hloop & Hsig & Hin & Hnil & H).
      destruct (save_error E (output_file j)) as [msg|] eqn:Hs.
      * apply (view_save E j w prs evs msg Hc Ho Hs); [repeat split; assumption| |];
          unfold trace, run_world, events_since; rewrite H; cbn [snd log fs];
          [apply skipn_length_app|reflexivity].
      * apply (view_finished E j w prs evs sls Hc Ho Hs); [repeat split; assumption| |];
          unfold trace, run_world, events_since; rewrite H; cbn [snd log fs];
          [apply skipn_length_app|reflexivity].
    + apply (view_open E j w msg Hc Ho);
        unfold trace, run_world, events_since; rewrite H; cbn [snd log fs];
        [apply skipn_length_app|reflexivity].
Qed.

Lemma run_returns {T} (E : env T) j (w : world T) : fst (run E j w) = Ok tt.
Proof.
  pose proof (run_cases E j w) as H.
  destruct (construct_error E (source j) (target j)); [rewrite H; reflexivity|].
  destruct (fs w (input_file j)); [|rewrite H; reflexivity].
  destruct H as (sls & st & evs & _ & _ & _ & _ & H). rewrite H. reflexivity.
Qed.

Lemma signals_framed a b evs c t :
  signals_of ([EvConstruct a b; EvOpen c] ++ evs ++ [EvSave c; EvEmit t])
  = signals_of evs ++ [t].
Proof. rewrite !signals_of_app. reflexivity. Qed.

Lemma progress_values_length total from n :
  List.length (progress_values total from n) = n.
Proof. unfold progress_values. rewrite length_map, length_seq. reflexivity. Qed.

Lemma progress_values_sorted total n : forall from,
  0 <= from -> from + Z.of_nat n <= total ->
  Sorted Z.le (progress_values total from n).
Proof.
  induction n as [|n IH]; intros from H0 H1; [constructor|].
  rewrite progress_values_succ. constructor.
  - apply IH; lia.
  - destruct n as [|n]; [constructor|].
    rewrite progress_values_succ. constructor.
    apply pctZ_mono; lia.
Qed.

Lemma progress_values_range total n : forall from,
  0 <= from -> from + Z.of_nat n <= total ->
  Forall (fun v => 0 <= v <= 100) (progress_values total from n).
Proof.
  induction n as [|n IH]; intros from H0 H1; [constructor|].
  rewrite progress_values_succ. constructor.
  - apply pctZ_range. lia.
  - apply IH; lia.
Qed.

Lemma progress_values_last total n from :
  (0 < n)%nat -> 0 <= from -> from + Z.of_nat n = total ->
  last (progress_values total from n) 0 = 100.
Proof.
  intros Hn H0 H1. destruct n as [|n]; [lia|].
  replace (S n) with (n + 1)%nat by lia.
  rewrite progress_values_app.
  change (progress_values total (from + Z.of_nat n) 1)
    with [pctZ (from + Z.of_nat n + Z.of_nat 1) total].
  rewrite last_last.
  replace (from + Z.of_nat n + Z.of_nat 1) with total by lia.
  apply pctZ_full. lia.
Qed.

Lemma total_units_count prs : total_units prs = len (all_shapes prs).
Proof. apply sum_lens. Qed.

(** A run whose translator was built and whose document was opened goes
    through the loops to the save. *)
Lemma opened_run {T} (E : env T) j (w : world T) prs :
  construct_error E (source j) (target j) = None ->
  fs w (input_file j) = Ok prs ->
  exists evs t,
    loop_events prs evs
    /\ t = match save_error E (output_file j) with
           | None => Finished
           | Some msg => Error msg
           end
    /\ trace E j w = [EvConstruct (source j) (target j); EvOpen (input_file j)]
                     ++ evs ++ [EvSave (output_file j); EvEmit t]
    /\ notifications E j w
       = map Progress (progress_values (total_units prs) 0
                         (List.length (all_shapes prs))) ++ [t].
Proof.
  intros Hc Ho. unfold notifications.
  destruct (run_viewed E j w) as [msg Hc' Ht _|msg Hc' Ho' Ht _
                                 |prs' evs msg Hc' Ho' Hs Hl Ht _
                                 |prs' evs sls Hc' Ho' Hs Hl Ht _];
    try congruence;
    assert (prs' = prs) by congruence; subst prs';
    exists evs; eexists; (split; [exact Hl|]); rewrite Hs;
    (split; [reflexivity|]); (split; [exact Ht|]);
    destruct Hl as (_ & Hsig & _); rewrite Ht, !signals_of_app, Hsig; reflexivity.
Qed.

(** The notifications of a run: Progress values, then one terminal
    notification, which is the last event of the run. *)
Lemma run_notifications {T} (E : env T) (j : job) (w : world T) :
  exists vs t pre,
    notifications E j w = map Progress vs ++ [t]
    /\ Sorted Z.le vs
    /\ terminal t
    /\ trace E j w = pre ++ [EvEmit t].
Proof.
  unfold notifications.
  destruct (run_viewed E j w) as [msg Hc Ht _|msg Hc Ho Ht _
                                 |prs evs msg Hc Ho Hs Hl Ht _|prs evs sls Hc Ho Hs Hl Ht _];
    rewrite Ht.
  - exists [], (Error msg), [EvConstruct (source j) (target j)].
    repeat split; [constructor|right; eauto].
  - exists [], (Error msg), [EvConstruct (source j) (target j); EvOpen (input_file j)].
    repeat split; [constructor|right; eauto].
  - destruct Hl as (_ & Hsig & _).
    eexists _, (Error msg),
      ([EvConstruct (source j) (target j); EvOpen (input_file j)]
         ++ evs ++ [EvSave (output_file j)]).
    rewrite !signals_of_app, Hsig. cbn [signals_of flat_map app].
    split; [reflexivity|]. split; [|split; [right; eauto|]].
    + apply progress_values_sorted; [lia|]. rewrite total_units_count. unfold len. lia.
    + rewrite <- !app_assoc. reflexivity.
  - destruct Hl as (_ & Hsig & _).
    eexists _, Finished,
      ([EvConstruct (source j) (target j); EvOpen (input_file j)]
         ++ evs ++ [EvSave (output_file j)]).
    rewrite !signals_of_app, Hsig. cbn [signals_of flat_map app].
    split; [reflexivity|]. split; [|split; [left; reflexivity|]].
    + apply progress_values_sorted; [lia|]. rewrite total_units_count. unfold len. lia.
    + rewrite <- !app_assoc. reflexivity.
Qed.

(** * Part V: the claims *)

Lemma progress_values_nth total n : forall from k,
  (k < n)%nat ->
  nth k (progress_values total from n) 0 = pctZ (from + Z.of_nat k + 1) total.
Proof.
  induction n as [|n IH]; intros from k Hk; [lia|].
  rewrite progress_values_succ. destruct k as [|k].
  - cbn [nth]. f_equal. lia.
  - cbn [nth]. rewrite IH by lia. f_equal. lia.
Qed.

Lemma all_shapes_nil prs : total_units prs = 0 -> all_shapes prs = [].
Proof.
  rewrite total_units_count. unfold len. intros H.
  destruct (all_shapes prs); [reflexivity|cbn in H; lia].
Qed.

(** C1. Every run notifies zero or more non-decreasing Progress values and
    then exactly one terminal notification (Finished or Error), which is
    also the last thing the run does. *)
Theorem notification_sequence {T} (E : env T) (j : job) (w : world T) :
  exists vs t pre,
    notifications E j w = map Progress vs ++ [t]
    /\ Sorted Z.le vs
    /\ terminal t
    /\ trace E j w = pre ++ [EvEmit t].
Proof. exact (run_notifications E j w). Qed.

(** C2, as stated, fails: a document without shapes whose output path
    cannot be written ends in Error, not in Finished. *)
Lemma zero_shapes_save_failure :
  total_units (Scenario.deck []) = 0
  /\ notifications Scenario.read_only Scenario.the_job (Scenario.disk (Scenario.deck []))
     = [Error "Permission denied"]
  /\ ~ In Finished
       (notifications Scenario.read_only Scenario.the_job (Scenario.disk (Scenario.deck []))).
Proof.
  split; [reflexivity|]. split; [reflexivity|].
  cbn. intros [H|[]]. discriminate.
Qed.

(** C2, amended.  For a job whose input file holds a document without
    shapes, the run emits no Progress and never computes the percentage:
    after building the translator and opening the document it goes
    straight to the save.  Its only notification is the Error of the
    constructor when the translator cannot be built (the document is
    then not even opened), and otherwise Finished when the save succeeds
    and the Error of the save when it raises. *)
Theorem zero_shapes_run {T} (E : env T) (j : job) (w : world T) prs :
  fs w (input_file j) = Ok prs ->
  total_units prs = 0 ->
  let t := match construct_error E (source j) (target j) with
           | Some msg => Error msg
           | None => match save_error E (output_file j) with
                     | None => Finished
                     | Some msg => Error msg
                     end
           end in
  notifications E j w = [t]
  /\ (forall v, ~ In (EvEmit (Progress v)) (trace E j w))
  /\ trace E j w
     = match construct_error E (source j) (target j) with
       | Some _ => [EvConstruct (source j) (target j); EvEmit t]
       | None => [EvConstruct (source j) (target j); EvOpen (input_file j);
                  EvSave (output_file j); EvEmit t]
       end.
Proof.
  intros Ho Hn t. unfold notifications. subst t.
  apply all_shapes_nil in Hn.
  destruct (run_viewed E j w) as [msg Hc' Ht _|msg Hc' Ho' Ht _
                                 |prs' evs msg Hc' Ho' Hs Hl Ht _
                                 |prs' evs sls Hc' Ho' Hs Hl Ht _];
    try congruence.
  - rewrite Ht, Hc'. split; [reflexivity|]. split; [|reflexivity].
    intros v [H|[H|[]]]; discriminate.
  - assert (prs' = prs) by congruence. subst prs'.
    destruct Hl as (_ & _ & _ & Hnil). rewrite (Hnil Hn) in Ht.
    rewrite Ht, Hc', Hs. split; [reflexivity|]. split; [|reflexivity].
    intros v [H|[H|[H|[H|[]]]]]; discriminate.
  - assert (prs' = prs) by congruence. subst prs'.
    destruct Hl as (_ & _ & _ & Hnil). rewrite (Hnil Hn) in Ht.
    rewrite Ht, Hc', Hs. split; [reflexivity|]. split; [|reflexivity].
    intros v [H|[H|[H|[H|[]]]]]; discriminate.
Qed.

Lemma zero_shapes_run_witness :
  let w := Scenario.disk (Scenario.deck []) in
  fs w (input_file Scenario.the_job) = Ok (Scenario.deck [])
  /\ total_units (Scenario.deck []) = 0
  /\ notifications Scenario.online Scenario.the_job w = [Finished]
  /\ notifications Cases.unsupported Scenario.the_job w
     = [Error "No support for the provided language."]
  /\ notifications Scenario.read_only Scenario.the_job w = [Error "Permission denied"].
Proof.
  intros w. split; [reflexivity|]. split; [reflexivity|]. split; [|split].
  - exact (proj1 (zero_shapes_run Scenario.online Scenario.the_job w (Scenario.deck [])
                    eq_refl eq_refl)).
  - exact (proj1 (zero_shapes_run Cases.unsupported Scenario.the_job w (Scenario.deck [])
                    eq_refl eq_refl)).
  - exact (proj1 (zero_shapes_run Scenario.read_only Scenario.the_job w (Scenario.deck [])
                    eq_refl eq_refl)).
Defined.

(** C3, as stated, fails: with 100 shapes the 29th Progress value is 28,
    while floor(29 / 100 * 100) is 29. *)
Lemma progress_29_of_100 :
  nth 28 (notifications Scenario.online Scenario.the_job
            (Scenario.disk (Scenario.deck (repeat Scenario.picture 100)))) Finished
  = Progress 28
  /\ percentage 29 100 = Ok 28
  /\ 29 * 100 / 100 = 29.
Proof. vm_compute. repeat split. Qed.

(** C3, amended.  For a document of N > 0 shapes that was opened, the
    run emits exactly N Progress values; the k-th is what
    [int(k / N * 100)] evaluates to in double precision (not always the
    exact floor); they are non-decreasing, each in [0,100], and the last
    one is 100. *)
Theorem progress_values_of_run {T} (E : env T) (j : job) (w : world T) prs :
  construct_error E (source j) (target j) = None ->
  fs w (input_file j) = Ok prs ->
  0 < total_units prs ->
  exists vs t,
    notifications E j w = map Progress vs ++ [t]
    /\ terminal t
    /\ Z.of_nat (List.length vs) = total_units prs
    /\ (forall k, (k < List.length vs)%nat ->
                  percentage (Z.of_nat k + 1) (total_units prs) = Ok (nth k vs 0))
    /\ Sorted Z.le vs
    /\ Forall (fun v => 0 <= v <= 100) vs
    /\ last vs 0 = 100.
Proof.
  intros Hc Ho Hn.
  pose proof (total_units_count prs) as Hcount. unfold len in Hcount.
  set (vs := progress_values (total_units prs) 0 (List.length (all_shapes prs))).
  assert (Hfacts :
    Z.of_nat (List.length vs) = total_units prs
    /\ (forall k, (k < List.length vs)%nat ->
                  percentage (Z.of_nat k + 1) (total_units prs) = Ok (nth k vs 0))
    /\ Sorted Z.le vs
    /\ Forall (fun v => 0 <= v <= 100) vs
    /\ last vs 0 = 100).
  { unfold vs. rewrite progress_values_length. repeat split.
    - lia.
    - intros k Hk. rewrite progress_values_nth by exact Hk.
      rewrite percentage_ok by lia. do 2 f_equal.
    - apply progress_values_sorted; lia.
    - apply progress_values_range; lia.
    - apply progress_values_last; lia. }
  unfold notifications.
  destruct (run_viewed E j w) as [msg Hc' Ht _|msg Hc' Ho' Ht _
                                 |prs' evs msg Hc' Ho' Hs Hl Ht _
                                 |prs' evs sls Hc' Ho' Hs Hl Ht _];
    try congruence.
  - assert (prs' = prs) by congruence. subst prs'. destruct Hl as (_ & Hsig & _).
    exists vs, (Error msg). rewrite Ht, !signals_of_app, Hsig.
    split; [reflexivity|]. split; [right; eauto|exact Hfacts].
  - assert (prs' = prs) by congruence. subst prs'. destruct Hl as (_ & Hsig & _).
    exists vs, Finished. rewrite Ht, !signals_of_app, Hsig.
    split; [reflexivity|]. split; [left; reflexivity|exact Hfacts].
Qed.

Lemma progress_values_of_run_witness :
  let w := Scenario.disk (Scenario.deck [Scenario.picture; Scenario.text_box "Hello";
                                         Scenario.picture]) in
  0 < total_units (Scenario.deck [Scenario.picture; Scenario.text_box "Hello";
                                  Scenario.picture])
  /\ notifications Scenario.online Scenario.the_job w
     = [Progress 33; Progress 66; Progress 100; Finished]
  /\ exists vs t,
       notifications Scenario.online Scenario.the_job w = map Progress vs ++ [t]
       /\ terminal t
       /\ Z.of_nat (List.length vs) = 3
       /\ (forall k, (k < List.length vs)%nat ->
                     percentage (Z.of_nat k + 1) 3 = Ok (nth k vs 0))
       /\ Sorted Z.le vs
       /\ Forall (fun v => 0 <= v <= 100) vs
       /\ last vs 0 = 100.
Proof.
  intros w. split; [reflexivity|]. split; [reflexivity|].
  exact (progress_values_of_run Scenario.online Scenario.the_job w
           (Scenario.deck [Scenario.picture; Scenario.text_box "Hello"; Scenario.picture])
           eq_refl eq_refl eq_refl).
Defined.

Lemma progress_not_finished vs : ~ In Finished (map Progress vs).
Proof.
  intros H. apply in_map_iff in H. destruct H as (v & H & _). discriminate.
Qed.

Lemma errors_of_progress vs : errors_of (map Progress vs) = [].
Proof. induction vs; cbn; auto. Qed.

Lemma in_loop_no_save evs p : Forall in_loop evs -> ~ In (EvSave p) evs.
Proof.
  intros H Hin. rewrite Forall_forall in H. apply (H _ Hin).
Qed.

Lemma in_loop_no_error evs msg : Forall in_loop evs -> ~ In (EvEmit (Error msg)) evs.
Proof.
  intros H Hin. rewrite Forall_forall in H. apply (H _ Hin).
Qed.

(** C4. A failure while translating or assigning the text of one shape
    stays inside that shape: processing a shape always returns normally,
    the run still reaches the save, every shape still gives its Progress
    notification, and every shape with a text to translate still has it
    sent to the translator. *)
Theorem shape_failure_is_local {T} (E : env T) (j : job) (w : world T) prs :
  construct_error E (source j) (target j) = None ->
  fs w (input_file j) = Ok prs ->
  (forall tr sh (w0 : world T), exists sh' w', process_shape E tr sh w0 = (Ok sh', w'))
  /\ (exists t,
        notifications E j w
        = map Progress (progress_values (total_units prs) 0
                          (List.length (all_shapes prs))) ++ [t])
  /\ In (EvSave (output_file j)) (trace E j w)
  /\ (forall sh s, In sh (all_shapes prs) -> first_text sh = Some s ->
                   In (EvTranslate s) (trace E j w)).
Proof.
  intros Hc Ho. split.
  { intros tr sh w0. destruct (process_shape_spec E tr sh w0) as (sh' & w' & _ & H & _).
    eauto. }
  unfold notifications.
  destruct (run_viewed E j w) as [msg Hc' Ht _|msg Hc' Ho' Ht _
                                 |prs' evs msg Hc' Ho' Hs Hl Ht _
                                 |prs' evs sls Hc' Ho' Hs Hl Ht _];
    try congruence;
    assert (prs' = prs) by congruence; subst prs';
    destruct Hl as (_ & Hsig & Hin & _); rewrite Ht, !signals_of_app, Hsig.
  - split; [eexists; reflexivity|]. split.
    + apply in_or_app. right. apply in_or_app. right. left. reflexivity.
    + intros sh s Hsh Hs'. apply in_or_app. right. apply in_or_app. left. eauto.
  - split; [eexists; reflexivity|]. split.
    + apply in_or_app. right. apply in_or_app. right. left. reflexivity.
    + intros sh s Hsh Hs'. apply in_or_app. right. apply in_or_app. left. eauto.
Qed.

Lemma shape_failure_is_local_witness :
  let w := Scenario.disk (Scenario.deck [Scenario.text_box "boom"; Scenario.text_box "Hello"]) in
  service Scenario.online "en" "es" tt "boom" = (Raise "quota exceeded", tt)
  /\ notifications Scenario.online Scenario.the_job w = [Progress 50; Progress 100; Finished]
  /\ In (EvTranslate "Hello") (trace Scenario.online Scenario.the_job w).
Proof.
  intros w. split; [reflexivity|]. split; [reflexivity|].
  apply (shape_failure_is_local Scenario.online Scenario.the_job w
           (Scenario.deck [Scenario.text_box "boom"; Scenario.text_box "Hello"])
           eq_refl eq_refl)
    with (sh := Scenario.text_box "Hello").
  - right. left. reflexivity.
  - reflexivity.
Defined.

(** C5. An exception that escapes translator construction, opening the
    document or saving it is reported as exactly one Error carrying its
    message, after the Progress values if any, and no Finished is
    emitted. *)
Theorem fatal_failure_reported {T} (E : env T) (j : job) (w : world T) msg :
  fatal E j w msg ->
  (exists vs, notifications E j w = map Progress vs ++ [Error msg])
  /\ errors_of (notifications E j w) = [Error msg]
  /\ ~ In Finished (notifications E j w).
Proof.
  intros Hf.
  assert (H : exists vs, notifications E j w = map Progress vs ++ [Error msg]).
  { unfold notifications.
    destruct (run_viewed E j w) as [m Hc' Ht _|m Hc' Ho' Ht _
                                   |prs' evs m Hc' Ho' Hs Hl Ht _
                                   |prs' evs sls Hc' Ho' Hs Hl Ht _];
      rewrite Ht.
    - destruct Hf as [Hf|[[Hf _]|[Hf _]]]; try congruence.
      exists []. cbn. congruence.
    - destruct Hf as [Hf|[[_ Hf]|[_ [[p Hf] _]]]]; try congruence.
      exists []. cbn. congruence.
    - destruct Hf as [Hf|[[_ Hf]|[_ [_ Hf]]]]; try congruence.
      destruct Hl as (_ & Hsig & _). rewrite !signals_of_app, Hsig.
      eexists. cbn. do 3 f_equal. congruence.
    - destruct Hf as [Hf|[[_ Hf]|[_ [_ Hf]]]]; congruence. }
  split; [exact H|]. destruct H as [vs ->]. split.
  - unfold errors_of. rewrite filter_app. fold (errors_of (map Progress vs)).
    rewrite errors_of_progress. reflexivity.
  - intros Hin. apply in_app_or in Hin. destruct Hin as [Hin|[Hin|[]]].
    + exact (progress_not_finished vs Hin).
    + discriminate.
Qed.

Lemma fatal_failure_reported_witness :
  let w := Scenario.disk (Scenario.deck [Scenario.text_box "Hello"]) in
  fatal Scenario.read_only Scenario.the_job w "Permission denied"
  /\ notifications Scenario.read_only Scenario.the_job w
     = [Progress 100; Error "Permission denied"]
  /\ errors_of (notifications Scenario.read_only Scenario.the_job w)
     = [Error "Permission denied"].
Proof.
  intros w.
  assert (Hf : fatal Scenario.read_only Scenario.the_job w "Permission denied").
  { right. right. split; [reflexivity|]. split; [eexists; reflexivity|reflexivity]. }
  split; [exact Hf|]. split; [reflexivity|].
  apply (fatal_failure_reported Scenario.read_only Scenario.the_job w _ Hf).
Defined.

(** C10. Every shape of every slide counts: the total is the number of
    all shapes, each of them gives exactly one Progress notification
    computed over that total, and this also holds for shapes that are
    never sent to the translator (no text and no text frame, or only
    white space), which are left as they are. *)
Theorem every_shape_counts {T} (E : env T) (j : job) (w : world T) prs :
  construct_error E (source j) (target j) = None ->
  fs w (input_file j) = Ok prs ->
  total_units prs = len (all_shapes prs)
  /\ (exists t,
        notifications E j w
        = map Progress (map (fun k => pctZ (Z.of_nat k) (len (all_shapes prs)))
                          (seq 1 (List.length (all_shapes prs)))) ++ [t])
  /\ (forall tr sh (w0 : world T),
        text sh = None -> text_frame sh = None ->
        process_shape E tr sh w0 = (Ok sh, w0))
  /\ (forall tr sh s (w0 : world T),
        text sh = Some s -> blank s = true ->
        process_shape E tr sh w0 = (Ok sh, w0)).
Proof.
  intros Hc Ho. split; [apply total_units_count|]. split.
  - destruct (opened_run E j w prs Hc Ho) as (evs & t & _ & _ & _ & Ht).
    exists t. rewrite Ht, total_units_count. unfold progress_values.
    reflexivity.
  - split.
    + intros tr sh w0 Ht Hf. unfold process_shape, shape_body. rewrite Ht, Hf. reflexivity.
    + intros tr sh s w0 Ht Hb. apply (process_shape_text_blank E tr sh s w0 Ht Hb).
Qed.

Lemma every_shape_counts_witness :
  let prs := Scenario.deck [Scenario.picture; Scenario.text_box "   ";
                            Scenario.text_box "Hello"; Scenario.framed [""; " "]] in
  let w := Scenario.disk prs in
  total_units prs = 4
  /\ notifications Scenario.online Scenario.the_job w
     = [Progress 25; Progress 50; Progress 75; Progress 100; Finished]
  /\ sent_of (trace Scenario.online Scenario.the_job w) = ["Hello"].
Proof.
  intros prs w.
  split; [exact (proj1 (every_shape_counts Scenario.online Scenario.the_job w prs
                          eq_refl eq_refl))|].
  split; reflexivity.
Defined.

(** C6, as stated, fails: when the output path is the input path, the
    save overwrites the input file. *)
Lemma in_place_overwrites_input :
  let w := Scenario.disk (Scenario.deck [Scenario.text_box "Hello"]) in
  fs (run_world Scenario.online Scenario.in_place w) "in.pptx"
  = Ok (Scenario.deck [Scenario.text_box "Hola"])
  /\ fs (run_world Scenario.online Scenario.in_place w) "in.pptx" <> fs w "in.pptx".
Proof.
  split; [reflexivity|]. vm_compute. discriminate.
Qed.

(** C6, amended.  For every run: the worker touches the files only
    through the one save on the output path, so what a path gives that
    does not name the output file is never changed, and this includes
    the input file unless its path names the output file; a run without
    a save leaves every file as it was; the save is attempted at most
    once, on the output path, after the loops and with no Error emitted
    before it, and it is followed at once by the terminal notification:
    Finished exactly when the save succeeded, the Error of the save when
    it raised; and after Finished every path that names the output file
    (the input path too, if it does) gives the saved document. *)
Theorem writes_only_output_on_success {T} (E : env T) (j : job) (w : world T) :
  (forall p, same_file (alias E) p (output_file j) = false ->
             fs (run_world E j w) p = fs w p)
  /\ (same_file (alias E) (input_file j) (output_file j) = false ->
      fs (run_world E j w) (input_file j) = fs w (input_file j))
  /\ ((forall p, ~ In (EvSave p) (trace E j w)) -> fs (run_world E j w) = fs w)
  /\ (forall p, In (EvSave p) (trace E j w) ->
        p = output_file j
        /\ exists pre t,
             trace E j w = pre ++ [EvSave p; EvEmit t]
             /\ (forall q, ~ In (EvSave q) pre)
             /\ (forall m, ~ In (EvEmit (Error m)) pre)
             /\ ((save_error E p = None /\ t = Finished)
                 \/ (exists m, save_error E p = Some m /\ t = Error m)))
  /\ (In Finished (notifications E j w) ->
      exists prs',
        forall p, same_file (alias E) p (output_file j) = true ->
                  fs (run_world E j w) p = Ok prs').
Proof.
  assert (Hother : forall p, same_file (alias E) p (output_file j) = false ->
                             fs (run_world E j w) p = fs w p).
  { intros p Hp.
    destruct (run_viewed E j w) as [msg Hc Ht Hfs|msg Hc Ho Ht Hfs
                                   |prs evs msg Hc Ho Hs Hl Ht Hfs
                                   |prs evs sls Hc Ho Hs Hl Ht Hfs];
      rewrite Hfs; try reflexivity.
    - unfold spoiled. destruct (save_leaves E (output_file j)); [|reflexivity].
      apply put_file_other. exact Hp.
    - apply put_file_other. exact Hp. }
  split; [exact Hother|]. split; [apply Hother|].
  unfold notifications.
  destruct (run_viewed E j w) as [msg Hc Ht Hfs|msg Hc Ho Ht Hfs
                                 |prs evs msg Hc Ho Hs Hl Ht Hfs
                                 |prs evs sls Hc Ho Hs Hl Ht Hfs];
    rewrite Ht.
  - split; [intros _; exact Hfs|]. split.
    + intros p [H|[H|[]]]; discriminate.
    + intros [H|[]]. discriminate.
  - split; [intros _; exact Hfs|]. split.
    + intros p [H|[H|[H|[]]]]; discriminate.
    + intros [H|[]]. discriminate.
  - destruct Hl as (Hloop & Hsig & _).
    assert (Hpre : forall q, ~ In (EvSave q)
              ([EvConstruct (source j) (target j); EvOpen (input_file j)] ++ evs)).
    { intros q [H|[H|H]]; try discriminate. exact (in_loop_no_save evs q Hloop H). }
    split; [|split].
    + intros Hno. exfalso. apply (Hno (output_file j)).
      apply in_or_app. right. apply in_or_app. right. left. reflexivity.
    + intros p Hin. rewrite app_assoc in Hin. apply in_app_or in Hin.
      destruct Hin as [Hin|[Hin|[Hin|[]]]]; [destruct (Hpre p Hin)| |discriminate].
      injection Hin as <-. split; [reflexivity|].
      exists ([EvConstruct (source j) (target j); EvOpen (input_file j)] ++ evs),
        (Error msg).
      split; [rewrite <- app_assoc; reflexivity|]. split; [exact Hpre|]. split.
      * intros m [H|[H|H]]; try discriminate. exact (in_loop_no_error evs m Hloop H).
      * right. eauto.
    + rewrite !signals_of_app, Hsig. intros H.
      apply in_app_or in H. destruct H as [[]|H].
      apply in_app_or in H. destruct H as [H|[H|[]]]; [|discriminate].
      destruct (progress_not_finished _ H).
  - destruct Hl as (Hloop & _).
    assert (Hpre : forall q, ~ In (EvSave q)
              ([EvConstruct (source j) (target j); EvOpen (input_file j)] ++ evs)).
    { intros q [H|[H|H]]; try discriminate. exact (in_loop_no_save evs q Hloop H). }
    split; [|split].
    + intros Hno. exfalso. apply (Hno (output_file j)).
      apply in_or_app. right. apply in_or_app. right. left. reflexivity.
    + intros p Hin. rewrite app_assoc in Hin. apply in_app_or in Hin.
      destruct Hin as [Hin|[Hin|[Hin|[]]]]; [destruct (Hpre p Hin)| |discriminate].
      injection Hin as <-. split; [reflexivity|].
      exists ([EvConstruct (source j) (target j); EvOpen (input_file j)] ++ evs), Finished.
      split; [rewrite <- app_assoc; reflexivity|]. split; [exact Hpre|]. split.
      * intros m [H|[H|H]]; try discriminate. exact (in_loop_no_error evs m Hloop H).
      * left. split; [exact Hs|reflexivity].
    + intros _. exists {| slides := sls |}. intros p Hp. rewrite Hfs.
      apply put_file_same. exact Hp.
Qed.

Lemma writes_only_output_on_success_witness :
  let w := Scenario.disk (Scenario.deck [Scenario.text_box "Hello"]) in
  same_file (alias Scenario.online) (input_file Scenario.the_job)
            (output_file Scenario.the_job) = false
  /\ fs (run_world Scenario.online Scenario.the_job w) "in.pptx" = fs w "in.pptx"
  /\ fs (run_world Scenario.online Scenario.the_job w) "out.pptx"
     = Ok (Scenario.deck [Scenario.text_box "Hola"])
  /\ fs (run_world Cases.full_disk Scenario.the_job w) "in.pptx" = fs w "in.pptx"
  /\ fs (run_world Cases.full_disk Scenario.the_job w) "out.pptx"
     = Raise "File is not a zip file".
Proof.
  intros w. split; [reflexivity|]. split; [|split; [reflexivity|split; [|reflexivity]]].
  - exact (proj1 (proj2 (writes_only_output_on_success Scenario.online
                           Scenario.the_job w)) eq_refl).
  - exact (proj1 (proj2 (writes_only_output_on_success Cases.full_disk
                           Scenario.the_job w)) eq_refl).
Defined.

(** Another name of the input file as output path: the input file is
    overwritten as well. *)
Example other_name_overwrites_input :
  let w := Cases.linked_disk (Scenario.deck [Scenario.text_box "Hello"]) in
  (input_file Cases.dotted =? output_file Cases.dotted)%string = false
  /\ fs w "in.pptx" = Ok (Scenario.deck [Scenario.text_box "Hello"])
  /\ fs (run_world Cases.linked Cases.dotted w) "in.pptx"
     = Ok (Scenario.deck [Scenario.text_box "Hola"]).
Proof. repeat split. Qed.

(** C8, as stated, fails: when the translation of a paragraph raises, the
    paragraphs after it in the same text frame are not translated. *)
Lemma later_paragraph_not_translated :
  let w := Scenario.disk (Scenario.deck [Scenario.framed ["boom"; "B"]]) in
  truthy (strip "B") = true
  /\ ~ In (EvTranslate "B") (trace Scenario.online Scenario.the_job w)
  /\ fs (run_world Scenario.online Scenario.the_job w) "out.pptx"
     = Ok (Scenario.deck [Scenario.framed ["boom"; "B"]]).
Proof.
  split; [reflexivity|]. split; [|reflexivity].
  vm_compute. intros H. repeat (destruct H as [H|H]; [discriminate|]). exact H.
Qed.

(** C8, amended.  A shape with a direct text is sent to the translator as
    a whole, and only when its trimmed text is non-empty; the result is
    assigned back; when the call raises the shape is left as it was,
    when the setter raises the shape holds what the setter left in it,
    and in both cases the error is printed.  Otherwise a shape with a
    text frame has its paragraphs with non-empty trimmed text
    translated one by one, in order, each holding its own translation
    afterwards, up to the first one whose call or assignment raises:
    that paragraph is as the failed step left it, the error is printed,
    and the paragraphs after it are neither sent nor changed.  A
    paragraph with empty trimmed text is never sent and keeps its text,
    and a shape without anything to translate is left as it is,
    silently. *)
Theorem shape_translation {T} (E : env T) tr sh (w : world T) :
  match text sh with
  | Some s =>
      if blank s then process_shape E tr sh w = (Ok sh, w)
      else
        process_shape E tr sh w =
        match service E (t_source tr) (t_target tr) (svc w) s with
        | (Ok t, st) =>
            match assign_error E t with
            | None =>
                (Ok (set_shape_text sh t),
                 {| fs := fs w; svc := st; log := log w ++ [EvTranslate s] |})
            | Some msg =>
                (Ok (with_lines sh (lines_left E s t)),
                 {| fs := fs w; svc := st;
                    log := log w ++ [EvTranslate s;
                                     EvPrint ("Error processing shape: " ++ msg)%string] |})
            end
        | (Raise msg, st) =>
            (Ok sh,
             {| fs := fs w; svc := st;
                log := log w ++ [EvTranslate s;
                                 EvPrint ("Error processing shape: " ++ msg)%string] |})
        end
  | None =>
      match text_frame sh with
      | Some tf =>
          exists sh' w' sent,
            process_shape E tr sh w = (Ok sh', w')
            /\ text sh' = None
            /\ prefix sent (filter nonblank (map p_text (paragraphs tf)))
            /\ Forall2 (fun p p' => blank (p_text p) = true -> p' = p)
                       (paragraphs tf) (frame_paragraphs sh')
            /\ ((log w' = log w ++ map EvTranslate sent
                 /\ sent = filter nonblank (map p_text (paragraphs tf))
                 /\ translated_all E tr (svc w) (paragraphs tf)
                                   (frame_paragraphs sh') (svc w'))
                \/ (exists msg,
                      log w' = log w ++ map EvTranslate sent
                               ++ [EvPrint ("Error processing shape: " ++ msg)%string]
                      /\ stopped_at E tr (svc w) (paragraphs tf)
                                    (frame_paragraphs sh') sent msg (svc w')))
      | None => process_shape E tr sh w = (Ok sh, w)
      end
  end.
Proof.
  destruct (text sh) as [s|] eqn:Ht.
  - destruct (blank s) eqn:Hb.
    + apply (process_shape_text_blank E tr sh s w Ht Hb).
    + apply (process_shape_text E tr sh s w Ht Hb).
  - destruct (text_frame sh) as [tf|] eqn:Hf.
    + destruct (process_shape_frame E tr sh tf w Ht Hf)
        as (sh' & w' & sent & Hr & _ & Htx & _ & Hpre & _ & Hbl & Hcase).
      exists sh', w', sent. auto.
    + unfold process_shape, shape_body. rewrite Ht, Hf. reflexivity.
Qed.

(** A setter that raises: the text box is left holding what the setter
    left in it, not its old text. *)
Example failed_setter_leaves_residue :
  let w := Scenario.disk (Scenario.deck [Scenario.text_box "Hello";
                                         Scenario.framed ["Hello"; "B"]]) in
  fs (run_world Cases.strict Scenario.the_job w) "out.pptx"
  = Ok (Scenario.deck [Scenario.text_box ""; Scenario.framed [""; "B"]])
  /\ sent_of (trace Cases.strict Scenario.the_job w) = ["Hello"; "Hello"].
Proof. split; reflexivity. Qed.

(** Assigning a direct text rewrites the text frame of the shape, one
    paragraph per line. *)
Example assigned_text_rewrites_frame :
  let sh := {| text := Some "Hello";
               text_frame := Some {| paragraphs := [{| p_text := "Hello" |}] |} |} in
  let w := Scenario.disk (Scenario.deck [sh]) in
  fs (run_world Scenario.online Scenario.the_job w) "out.pptx"
  = Ok (Scenario.deck [{| text := Some "Hola";
                          text_frame := Some {| paragraphs := [{| p_text := "Hola" |}] |} |}])
  /\ map p_text (paragraphs (frame_of_text (join_lines ["a"; ""; "b"]))) = ["a"; ""; "b"].
Proof. split; reflexivity. Qed.

Lemma call_slot_thread win sl s : thread (call_slot win sl s) = thread win.
Proof. destruct sl, s; reflexivity. Qed.

Lemma deliver_thread win s : thread (deliver win s) = thread win.
Proof.
  unfold deliver. destruct (thread win) as [th|] eqn:Hth; [|exact Hth].
  rewrite <- Hth. generalize (connections th s). intros l. revert win Hth.
  induction l as [|sl l IH]; intros win Hth; [reflexivity|].
  cbn [fold_left]. rewrite IH; [apply call_slot_thread|].
  rewrite call_slot_thread. exact Hth.
Qed.

Lemma deliver_all_thread l : forall win, thread (fold_left deliver l win) = thread win.
Proof.
  induction l as [|s l IH]; intros win; [reflexivity|].
  cbn [fold_left]. rewrite IH. apply deliver_thread.
Qed.

Lemma deliver_terminal win th t :
  thread win = Some th ->
  finished_connections th = [translation_finished_slot] ->
  error_connections th = [translation_error_slot] ->
  terminal t ->
  translate_button (deliver win t) = true.
Proof.
  intros Hth Hf He [->|[msg ->]]; unfold deliver; rewrite Hth; cbn [connections].
  - rewrite Hf. reflexivity.
  - rewrite He. reflexivity.
Qed.

(** C7. When the input label or the output label still holds its
    placeholder, [translate_pptx] only shows the warning: no thread is
    created or started, the world (files, translator, log) is untouched,
    and the button, the progress bar and the queue are unchanged. *)
Theorem translate_pptx_guard {T} (E : env T) (self : window) (w : world T) :
  input_file_label self = no_input \/ output_file_label self = no_output ->
  translate_pptx E self w
  = (show self (Warning "Error" "Please select both input and output files."), w)
  /\ thread (fst (translate_pptx E self w)) = thread self
  /\ translate_button (fst (translate_pptx E self w)) = translate_button self
  /\ progress_bar (fst (translate_pptx E self w)) = progress_bar self
  /\ inbox (fst (translate_pptx E self w)) = inbox self
  /\ snd (translate_pptx E self w) = w.
Proof.
  intros H.
  assert (Hg : (input_file_label self =? no_input)%string
               || (output_file_label self =? no_output)%string
               = true).
  { apply orb_true_iff. destruct H as [->| ->]; [left|right]; apply String.eqb_refl. }
  unfold translate_pptx. rewrite Hg. repeat split.
Qed.

Lemma translate_pptx_guard_witness :
  let self := select_input_file initUI "deck.pptx" in
  (input_file_label self = no_input \/ output_file_label self = no_output)
  /\ translate_pptx Scenario.online self (Scenario.disk (Scenario.deck []))
     = (show self (Warning "Error" "Please select both input and output files."),
        Scenario.disk (Scenario.deck [])).
Proof.
  intros self.
  assert (H : input_file_label self = no_input \/ output_file_label self = no_output)
    by (right; reflexivity).
  split; [exact H|].
  exact (proj1 (translate_pptx_guard Scenario.online self
                  (Scenario.disk (Scenario.deck [])) H)).
Defined.

(** C9. When both labels hold a path, [translate_pptx] disables the
    button, resets the progress bar to 0 and starts one worker for the
    job read from the window, connected to the window's three handlers;
    both terminal handlers enable the button again, so once the
    notifications of the run have been handled the button is enabled. *)
Theorem translate_control_cycle {T} (E : env T) (self : window) (w : world T) :
  input_file_label self <> no_input ->
  output_file_label self <> no_output ->
  translate_button (fst (translate_pptx E self w)) = false
  /\ progress_bar (fst (translate_pptx E self w)) = 0
  /\ thread (fst (translate_pptx E self w)) = Some (thread_of self)
  /\ snd (translate_pptx E self w) = run_world E (job_of self) w
  /\ inbox (fst (translate_pptx E self w))
     = inbox self ++ notifications E (job_of self) w
  /\ (forall win, translate_button (translation_finished win) = true)
  /\ (forall win msg, translate_button (translation_error win msg) = true)
  /\ translate_button (process_events (fst (translate_pptx E self w))) = true.
Proof.
  intros Hi Ho.
  assert (Hg : (input_file_label self =? no_input)%string
               || (output_file_label self =? no_output)%string
               = false).
  { apply orb_false_iff. split; apply String.eqb_neq; assumption. }
  unfold translate_pptx. rewrite Hg. fold (job_of self). fold (thread_of self).
  unfold start. cbn [fst snd th_job thread_of].
  fold (run_world E (job_of self) w).
  change (signals_of (events_since w (run_world E (job_of self) w)))
    with (notifications E (job_of self) w).
  repeat split.
  unfold process_events. cbn [inbox set_inbox].
  destruct (run_notifications E (job_of self) w) as (vs & t & pre & -> & _ & Ht & _).
  rewrite app_assoc, fold_left_app. cbn [fold_left].
  apply (deliver_terminal _ (thread_of self)); [|reflexivity|reflexivity|exact Ht].
  rewrite deliver_all_thread. reflexivity.
Qed.

Lemma translate_control_cycle_witness :
  let self := select_output_file (select_input_file initUI "in.pptx") "out.pptx" in
  let w := Scenario.disk (Scenario.deck [Scenario.text_box "Hello"]) in
  input_file_label self <> no_input
  /\ output_file_label self <> no_output
  /\ translate_button (fst (translate_pptx Scenario.online self w)) = false
  /\ inbox (fst (translate_pptx Scenario.online self w)) = [Progress 100; Finished]
  /\ translate_button (process_events (fst (translate_pptx Scenario.online self w))) = true.
Proof.
  intros self w.
  assert (Hi : input_file_label self <> no_input) by (vm_compute; discriminate).
  assert (Ho : output_file_label self <> no_output) by (vm_compute; discriminate).
  split; [exact Hi|]. split; [exact Ho|].
  split; [exact (proj1 (translate_control_cycle Scenario.online self w Hi Ho))|].
  split; reflexivity.
Defined.

(** The round trip of the spec: one shape with the text Hello. *)
Example hello_round_trip :
  let w := Scenario.disk (Scenario.deck [Scenario.text_box "Hello"]) in
  notifications Scenario.online Scenario.the_job w = [Progress 100; Finished]
  /\ fs (run_world Scenario.online Scenario.the_job w) "out.pptx"
     = Ok (Scenario.deck [Scenario.text_box "Hola"]).
Proof. split; reflexivity. Qed.

(** A text frame with the paragraphs A and empty: only A is sent. *)
Example empty_paragraph_skipped :
  let w := Scenario.disk (Scenario.deck [Scenario.framed ["A"; ""]]) in
  sent_of (trace Scenario.online Scenario.the_job w) = ["A"]
  /\ fs (run_world Scenario.online Scenario.the_job w) "out.pptx"
     = Ok (Scenario.deck [Scenario.framed ["<A>"; ""]])
  /\ notifications Scenario.online Scenario.the_job w = [Progress 100; Finished].
Proof. repeat split. Qed.

(** * Part VI: further properties of the worker, the window and the percentage *)

Lemma call_reliable {T} (E : env T) tr st s :
  never_fails E -> exists t st', call_ok E tr st s t st'.
Proof.
  intros [Hs Ha].
  destruct (Hs (t_source tr) (t_target tr) st s) as (t & st' & H).
  exists t, st'. split; [exact H|apply Ha].
Qed.

Lemma call_fails_reliable {T} (E : env T) tr st p msg p' st' :
  never_fails E -> ~ call_fails E tr st p msg p' st'.
Proof.
  intros [Hs Ha] [[H _]|(t & _ & H & _)].
  - destruct (Hs (t_source tr) (t_target tr) st (p_text p)) as (t & st1 & H1).
    congruence.
  - rewrite Ha in H. discriminate.
Qed.

Lemma Forall2_length_eq {A B} (R : A -> B -> Prop) l l' :
  Forall2 R l l' -> List.length l = List.length l'.
Proof. induction 1; cbn; congruence. Qed.

Lemma forallb_blank_filter l : filter nonblank l = [] -> forallb blank l = true.
Proof.
  induction l as [|x l IH]; cbn; [reflexivity|].
  unfold nonblank at 1. destruct (blank x); cbn; [exact IH|discriminate].
Qed.

Lemma sent_of_translate_print sent printed :
  sent_of (map EvTranslate sent ++ map EvPrint printed) = sent.
Proof.
  rewrite sent_of_app, sent_of_translate.
  assert (H : sent_of (map EvPrint printed) = []).
  { induction printed as [|x l IH]; [reflexivity|exact IH]. }
  rewrite H, app_nil_r. reflexivity.
Qed.

Lemma same_layout_refl sh : same_layout sh sh.
Proof.
  unfold same_layout. split; [tauto|]. split; [tauto|]. split; [reflexivity|].
  intros _. left. reflexivity.
Qed.

Lemma same_layout_with_lines sh s l :
  text sh = Some s -> same_layout sh (with_lines sh l).
Proof.
  intros Ht. unfold same_layout. cbn [text with_lines text_frame]. rewrite Ht.
  split; [split; discriminate|].
  split; [destruct (text_frame sh); cbn; split; congruence|].
  split; [discriminate|]. intros _. right. exists l. reflexivity.
Qed.

Lemma shape_step_text {T} (E : env T) tr sh s (w : world T) :
  text sh = Some s -> blank s = false ->
  exists sh' w' evs,
    process_shape E tr sh w = (Ok sh', w')
    /\ fs w' = fs w
    /\ log w' = log w ++ evs
    /\ shape_step E sh sh' evs.
Proof.
  intros Ht Hb. rewrite (process_shape_text E tr sh s w Ht Hb).
  unfold shape_step, texts_of_shape, nonblank. rewrite Ht, Hb. cbn [negb].
  destruct (service E (t_source tr) (t_target tr) (svc w) s) as [[t|msg] st] eqn:Hc;
    [destruct (assign_error E t) as [msg|] eqn:Ha|].
  - eexists _, _, _. split; [reflexivity|]. split; [reflexivity|].
    split; [reflexivity|].
    split; [repeat constructor|]. split; [repeat constructor|].
    split; [apply (same_layout_with_lines sh s); exact Ht|]. split; [discriminate|].
    intros [_ Hn]. rewrite Hn in Ha. discriminate.
  - eexists _, _, _. split; [reflexivity|]. split; [reflexivity|].
    split; [reflexivity|].
    split; [repeat constructor|]. split; [repeat constructor|].
    split; [rewrite set_shape_text_lines; apply (same_layout_with_lines sh s); exact Ht|].
    split; [discriminate|].
    intros _. split; [reflexivity|]. intros line [H|[]]. discriminate.
  - eexists _, _, _. split; [reflexivity|]. split; [reflexivity|].
    split; [reflexivity|].
    split; [repeat constructor|]. split; [repeat constructor|].
    split; [apply same_layout_refl|]. split; [discriminate|].
    intros [Hn _]. destruct (Hn (t_source tr) (t_target tr) (svc w) s) as (t & st' & Hc').
    congruence.
Qed.

Lemma shape_step_frame {T} (E : env T) tr sh tf (w : world T) :
  text sh = None -> text_frame sh = Some tf ->
  exists sh' w' evs,
    process_shape E tr sh w = (Ok sh', w')
    /\ fs w' = fs w
    /\ log w' = log w ++ evs
    /\ shape_step E sh sh' evs.
Proof.
  intros Ht Hf.
  unfold shape_step, texts_of_shape, frame_paragraphs. rewrite Ht, Hf.
  unfold process_shape, shape_body. rewrite Ht, Hf, truthy_strip.
  unfold tf_text. rewrite blank_join_lines.
  destruct (forallb blank (map p_text (paragraphs tf))) eqn:Hall; cbn [negb].
  - exists sh, w, []. rewrite app_nil_r, (filter_nonblank_blank _ Hall).
    split; [reflexivity|]. split; [reflexivity|]. split; [reflexivity|].
    split; [constructor|]. split; [constructor|].
    split; [apply same_layout_refl|]. split; auto.
  - destruct (for_paragraphs_spec E tr (paragraphs tf) w)
      as (ps' & exn & w' & sent & Hr & Hfs & Hlog & Hpre & _ & Hbl & Hexn).
    assert (Hne : filter nonblank (map p_text (paragraphs tf)) <> []).
    { intros Hnil. apply forallb_blank_filter in Hnil. congruence. }
    assert (Hlay : forall ps'', List.length ps'' = List.length (paragraphs tf) ->
                    same_layout sh (set_paragraphs sh ps'')).
    { intros ps'' Hl. unfold same_layout, frame_paragraphs.
      cbn [text set_paragraphs text_frame paragraphs].
      rewrite Ht, Hf. split; [tauto|]. split; [split; discriminate|].
      split; [congruence|]. intros H. destruct (H eq_refl). }
    apply Forall2_length_eq in Hbl.
    rewrite bind_eq, bind_eq, Hr. cbn [ret].
    destruct exn as [msg|].
    + exists (set_paragraphs sh ps'),
        {| fs := fs w'; svc := svc w';
           log := log w' ++ [EvPrint ("Error processing shape: " ++ msg)%string] |},
        (map EvTranslate sent ++ map EvPrint ["Error processing shape: " ++ msg]%string).
      split; [reflexivity|]. split; [exact Hfs|].
      split; [cbn [log map]; rewrite Hlog, <- app_assoc; reflexivity|].
      rewrite sent_of_translate_print.
      split; [|split; [exact Hpre|split; [apply Hlay; congruence|split]]].
      * apply Forall_app. split; [|repeat constructor].
        apply Forall_forall. intros ev Hin. apply in_map_iff in Hin.
        destruct Hin as (x & <- & _). exact I.
      * intros Hnil. contradiction.
      * intros Hn. exfalso.
        destruct Hexn as (pre & pre' & q & post & q' & st1 & _ & _ & _ & Hfail & _).
        exact (call_fails_reliable E tr _ _ _ _ _ Hn Hfail).
    + exists (set_paragraphs sh ps'), w', (map EvTranslate sent). cbn.
      split; [reflexivity|]. split; [exact Hfs|]. split; [exact Hlog|].
      rewrite sent_of_translate.
      split; [|split; [exact Hpre|split; [apply Hlay; congruence|split]]].
      * apply Forall_forall. intros ev Hin. apply in_map_iff in Hin.
        destruct Hin as (x & <- & _). exact I.
      * intros Hnil. contradiction.
      * intros _. split; [apply Hexn|].
        intros line Hin. apply in_map_iff in Hin. destruct Hin as (x & Hx & _).
        discriminate.
Qed.

Lemma process_shape_step {T} (E : env T) tr sh (w : world T) :
  exists sh' w' evs,
    process_shape E tr sh w = (Ok sh', w')
    /\ fs w' = fs w
    /\ log w' = log w ++ evs
    /\ shape_step E sh sh' evs.
Proof.
  destruct (text sh) as [s|] eqn:Ht.
  - destruct (blank s) eqn:Hb.
    + exists sh, w, []. rewrite (process_shape_text_blank E tr sh s w Ht Hb), app_nil_r.
      unfold shape_step, texts_of_shape, nonblank. rewrite Ht, Hb. cbn [negb].
      split; [reflexivity|]. split; [reflexivity|]. split; [reflexivity|].
      split; [constructor|]. split; [constructor|].
      split; [apply same_layout_refl|]. split; auto.
    + apply (shape_step_text E tr sh s w Ht Hb).
  - destruct (text_frame sh) as [tf|] eqn:Hf.
    + apply (shape_step_frame E tr sh tf w Ht Hf).
    + exists sh, w, []. unfold process_shape, shape_body. rewrite Ht, Hf, app_nil_r.
      unfold shape_step, texts_of_shape, frame_paragraphs. rewrite Ht, Hf. cbn.
      split; [reflexivity|]. split; [reflexivity|]. split; [reflexivity|].
      split; [constructor|]. split; [constructor|].
      split; [apply same_layout_refl|]. split; auto.
Qed.

Lemma prefix_length {A} (l l' : list A) : prefix l l' -> (List.length l <= List.length l')%nat.
Proof. induction 1; cbn; lia. Qed.

Lemma prefix_full_length {A} (l l' : list A) :
  prefix l l' -> List.length l = List.length l' -> l = l'.
Proof.
  induction 1 as [l'|x l l' H IH]; cbn; intros Hl.
  - destruct l'; [reflexivity|discriminate].
  - f_equal. apply IH. lia.
Qed.

Lemma sent_in_order_length shs sent :
  sent_in_order shs sent ->
  (List.length sent <= List.length (flat_map texts_of_shape shs))%nat.
Proof.
  intros (parts & -> & H). revert parts H.
  induction shs as [|sh shs IH]; intros parts H; inversion H; subst; cbn; [lia|].
  rewrite !length_app.
  match goal with Hp : prefix _ _ |- _ => apply prefix_length in Hp end.
  match goal with Hf : Forall2 _ _ _ |- _ => apply IH in Hf end. lia.
Qed.

Lemma sent_of_emit s : sent_of [EvEmit s] = [].
Proof. reflexivity. Qed.

Lemma no_print_app (l l' : list event) :
  (forall line, ~ In (EvPrint line) l) -> (forall line, ~ In (EvPrint line) l') ->
  forall line, ~ In (EvPrint line) (l ++ l').
Proof.
  intros H H' line Hin. apply in_app_or in Hin. destruct Hin; [eapply H|eapply H']; eauto.
Qed.

Lemma loop_steps_nil {T} (E : env T) : loop_steps E [] [] [].
Proof.
  split; [constructor|]. split; [exists []; split; [reflexivity|constructor]|].
  split; [auto|]. intros _. split; [reflexivity|]. intros line [].
Qed.

Lemma loop_steps_cons {T} (E : env T) sh sh' ev1 v shs shs' evs :
  shape_step E sh sh' ev1 ->
  loop_steps E shs shs' evs ->
  loop_steps E (sh :: shs) (sh' :: shs') (ev1 ++ [EvEmit (Progress v)] ++ evs).
Proof.
  intros (Hloc & Hpre & Hlay & Hnil & Hall) (Hl2 & (parts & Hs2 & Hp2) & Hnil2 & Hall2).
  assert (Hsent : sent_of (ev1 ++ [EvEmit (Progress v)] ++ evs)
                  = sent_of ev1 ++ sent_of evs).
  { rewrite !sent_of_app. reflexivity. }
  unfold loop_steps. rewrite Hsent. cbn [flat_map map].
  split; [constructor; assumption|]. split; [|split].
  - exists (sent_of ev1 :: parts). cbn [List.concat]. rewrite Hs2.
    split; [reflexivity|constructor; assumption].
  - intros H. apply app_eq_nil in H. destruct H as [H1 H2].
    destruct (Hnil H1) as [-> ->]. destruct (Hnil2 H2) as [-> ->].
    split; reflexivity.
  - intros Hn. destruct (Hall Hn) as [-> Hnp1]. destruct (Hall2 Hn) as [-> Hnp2].
    split; [reflexivity|].
    apply no_print_app; [exact Hnp1|]. apply no_print_app; [|exact Hnp2].
    intros line [H|[]]. discriminate.
Qed.

Lemma loop_steps_app {T} (E : env T) shs1 shs1' ev1 shs2 shs2' ev2 :
  loop_steps E shs1 shs1' ev1 ->
  loop_steps E shs2 shs2' ev2 ->
  loop_steps E (shs1 ++ shs2) (shs1' ++ shs2') (ev1 ++ ev2).
Proof.
  intros (Hl1 & (parts1 & Hs1 & Hp1) & Hnil1 & Hall1)
         (Hl2 & (parts2 & Hs2 & Hp2) & Hnil2 & Hall2).
  unfold loop_steps, sent_in_order. rewrite sent_of_app, flat_map_app, map_app.
  split; [apply Forall2_app; assumption|]. split; [|split].
  - exists (parts1 ++ parts2). rewrite concat_app, Hs1, Hs2.
    split; [reflexivity|apply Forall2_app; assumption].
  - intros H. apply app_eq_nil in H. destruct H as [H1 H2].
    destruct (Hnil1 H1) as [-> ->]. destruct (Hnil2 H2) as [-> ->].
    split; reflexivity.
  - intros Hn. destruct (Hall1 Hn) as [-> Hnp1]. destruct (Hall2 Hn) as [-> Hnp2].
    split; [reflexivity|apply no_print_app; assumption].
Qed.

Lemma for_shapes_steps {T} (E : env T) tr total shs : forall processed (w : world T),
  0 <= processed -> processed + len shs <= total ->
  exists shs' w' evs,
    for_shapes E tr total shs processed w = (Ok (shs', processed + len shs), w')
    /\ log w' = log w ++ evs
    /\ loop_steps E shs shs' evs.
Proof.
  induction shs as [|sh rest IH]; intros processed w Hp Ht.
  - exists [], w, []. cbn [for_shapes]. unfold len. cbn [List.length Z.of_nat].
    rewrite Z.add_0_r, app_nil_r.
    split; [reflexivity|]. split; [reflexivity|apply loop_steps_nil].
  - rewrite len_cons in *. pose proof (len_nonneg rest) as Hl.
    destruct (process_shape_step E tr sh w) as (sh' & w1 & ev1 & Hr1 & _ & Hlog1 & Hstep).
    cbn [for_shapes]. rewrite bind_eq, Hr1.
    rewrite bind_eq. unfold lift. rewrite (percentage_ok (processed + 1) total) by lia.
    rewrite bind_eq, emit_eq, bind_eq.
    match goal with |- context [for_shapes E tr total rest (processed + 1) ?w2] =>
      destruct (IH (processed + 1) w2 ltac:(lia) ltac:(lia))
        as (rest' & w3 & ev3 & Hr3 & Hlog3 & Hsteps) end.
    rewrite Hr3. cbn [ret].
    exists (sh' :: rest'), w3,
      (ev1 ++ [EvEmit (Progress (pctZ (processed + 1) total))] ++ ev3).
    replace (processed + (1 + len rest)) with (processed + 1 + len rest) by lia.
    split; [reflexivity|]. split.
    + rewrite Hlog3. cbn [log]. rewrite Hlog1, <- !app_assoc. reflexivity.
    + apply loop_steps_cons; assumption.
Qed.

Lemma for_slides_steps {T} (E : env T) tr total sls : forall processed (w : world T),
  0 <= processed -> processed + len (flat_map shapes sls) <= total ->
  exists sls' w' evs,
    for_slides E tr total sls processed w
      = (Ok (sls', processed + len (flat_map shapes sls)), w')
    /\ log w' = log w ++ evs
    /\ List.length sls' = List.length sls
    /\ same_slides sls sls'
    /\ (flat_map texts_of_shape (flat_map shapes sls) = [] -> sls' = sls)
    /\ loop_steps E (flat_map shapes sls) (flat_map shapes sls') evs.
Proof.
  induction sls as [|sl rest IH]; intros processed w Hp Ht.
  - exists [], w, []. cbn [for_slides flat_map]. unfold len. cbn [List.length Z.of_nat].
    rewrite Z.add_0_r, app_nil_r.
    split; [reflexivity|]. split; [reflexivity|]. split; [reflexivity|].
    split; [constructor|]. split; [reflexivity|apply loop_steps_nil].
  - cbn [flat_map] in *.
    assert (Hlen : len (shapes sl ++ flat_map shapes rest)
                   = len (shapes sl) + len (flat_map shapes rest)).
    { unfold len. rewrite length_app. lia. }
    rewrite Hlen in *.
    pose proof (len_nonneg (shapes sl)). pose proof (len_nonneg (flat_map shapes rest)).
    destruct (for_shapes_steps E tr total (shapes sl) processed w Hp ltac:(lia))
      as (shs' & w1 & ev1 & Hr1 & Hlog1 & Hsteps1).
    cbn [for_slides]. rewrite bind_eq, Hr1.
    destruct (IH (processed + len (shapes sl)) w1 ltac:(lia) ltac:(lia))
      as (rest' & w2 & ev2 & Hr2 & Hlog2 & Hlen2 & Hsame2 & Hnil2 & Hsteps2).
    rewrite bind_eq, Hr2. cbn [ret].
    exists ({| shapes := shs' |} :: rest'), w2, (ev1 ++ ev2).
    replace (processed + (len (shapes sl) + len (flat_map shapes rest)))
      with (processed + len (shapes sl) + len (flat_map shapes rest)) by lia.
    split; [reflexivity|]. split; [rewrite Hlog2, Hlog1, <- app_assoc; reflexivity|].
    split; [cbn; congruence|]. split; [|split].
    + constructor; [|exact Hsame2]. cbn [shapes]. apply Hsteps1.
    + rewrite flat_map_app. intros Hnil. apply app_eq_nil in Hnil.
      destruct Hnil as [H1 H2].
      destruct Hsteps1 as (_ & _ & Hn1 & _). destruct (Hn1 H1) as [-> _].
      rewrite (Hnil2 H2). destruct sl; reflexivity.
    + cbn [flat_map shapes]. apply loop_steps_app; assumption.
Qed.

Lemma run_opened_steps {T} (E : env T) j (w : world T) prs :
  construct_error E (source j) (target j) = None ->
  fs w (input_file j) = Ok prs ->
  exists sls evs,
    same_slides (slides prs) sls
    /\ (texts_of prs = [] -> sls = slides prs)
    /\ loop_steps E (all_shapes prs) (flat_map shapes sls) evs
    /\ trace E j w = [EvConstruct (source j) (target j); EvOpen (input_file j)]
                     ++ evs
                     ++ [EvSave (output_file j);
                         EvEmit match save_error E (output_file j) with
                                | None => Finished
                                | Some msg => Error msg
                                end]
    /\ (save_error E (output_file j) = None ->
        fs (run_world E j w)
        = write_file (alias E) (fs w) (output_file j) {| slides := sls |}).
Proof.
  intros Hc Ho.
  set (w1 := {| fs := fs w; svc := svc w;
                log := (log w ++ [EvConstruct (source j) (target j)])
                       ++ [EvOpen (input_file j)] |}).
  pose proof (sum_lens (slides prs)) as Hsum.
  fold (total_units prs) in Hsum. fold (all_shapes prs) in Hsum.
  destruct (for_slides_steps E {| t_source := source j; t_target := target j |}
              (total_units prs) (slides prs) 0 w1 ltac:(lia)
              ltac:(fold (all_shapes prs); lia))
    as (sls & w2 & evs & Hr & Hlog & _ & Hsame & Hnil & Hsteps).
  exists sls, evs.
  split; [exact Hsame|]. split; [exact Hnil|]. split; [exact Hsteps|].
  assert (Hrun : run E j w =
    (Ok tt,
     match save_error E (output_file j) with
     | Some msg =>
         {| fs := spoiled E (fs w2) (output_file j); svc := svc w2;
            log := (log w2 ++ [EvSave (output_file j)]) ++ [EvEmit (Error msg)] |}
     | None =>
         {| fs := write_file (alias E) (fs w2) (output_file j) {| slides := sls |};
            svc := svc w2;
            log := (log w2 ++ [EvSave (output_file j)]) ++ [EvEmit Finished] |}
     end)).
  { unfold run, try_except. rewrite bind_eq, GoogleTranslator_eq, Hc.
    rewrite bind_eq, Presentation_eq. cbn [fs svc log]. rewrite Ho.
    fold w1. fold (total_units prs). rewrite bind_eq, Hr.
    rewrite bind_eq, save_eq.
    destruct (save_error E (output_file j)); rewrite emit_eq; reflexivity. }
  assert (Hfs2 : fs w2 = fs w).
  { destruct (for_slides_spec E {| t_source := source j; t_target := target j |}
                (total_units prs) (slides prs) 0 w1 ltac:(lia)
                ltac:(fold (all_shapes prs); lia))
      as (sls0 & w0 & evs0 & Hr0 & Hfs0 & _).
    rewrite Hr in Hr0. injection Hr0 as _ <-. exact Hfs0. }
  unfold trace, run_world, events_since. rewrite Hrun. cbn [snd].
  split.
  - destruct (save_error E (output_file j)); cbn [log]; rewrite Hlog; unfold w1;
      cbn [log]; rewrite <- !app_assoc; rewrite skipn_length_app; reflexivity.
  - intros Hs. rewrite Hs. cbn [fs]. rewrite Hfs2. reflexivity.
Qed.

(** X2. A run ends in Finished exactly when the translator was built,
    the document was opened and the save succeeded; what happens to the
    single shapes plays no part. *)
Theorem finished_iff_all_steps_succeed {T} (E : env T) (j : job) (w : world T) :
  In Finished (notifications E j w)
  <-> (construct_error E (source j) (target j) = None
       /\ (exists prs, fs w (input_file j) = Ok prs)
       /\ save_error E (output_file j) = None).
Proof.
  unfold notifications.
  destruct (run_viewed E j w) as [msg Hc Ht _|msg Hc Ho Ht _
                                 |prs evs msg Hc Ho Hs Hl Ht _
                                 |prs evs sls Hc Ho Hs Hl Ht _];
    rewrite Ht.
  - split.
    + intros [H|[]]. discriminate.
    + intros (H & _). congruence.
  - split.
    + intros [H|[]]. discriminate.
    + intros (_ & [prs H] & _). congruence.
  - destruct Hl as (_ & Hsig & _). rewrite !signals_of_app, Hsig. split.
    + intros H. apply in_app_or in H. destruct H as [H|H]; [destruct H|].
      apply in_app_or in H. destruct H as [H|[H|[]]]; [|discriminate].
      apply in_map_iff in H. destruct H as (v & H & _). discriminate.
    + intros (_ & _ & H). congruence.
  - split; [eauto|]. intros _. rewrite !signals_of_app.
    apply in_or_app. right. apply in_or_app. right. left. reflexivity.
Qed.

(** X3. When building the translator or opening the document raises,
    nothing is sent to the translator, nothing is saved and the file
    system is left as it was; when building the translator raises, the
    input file is not even opened. *)
Theorem early_failure_touches_nothing {T} (E : env T) (j : job) (w : world T) msg :
  construct_error E (source j) (target j) = Some msg
  \/ (construct_error E (source j) (target j) = None
      /\ fs w (input_file j) = Raise msg) ->
  sent_of (trace E j w) = []
  /\ (forall p, ~ In (EvSave p) (trace E j w))
  /\ fs (run_world E j w) = fs w
  /\ notifications E j w = [Error msg]
  /\ (construct_error E (source j) (target j) = Some msg ->
      forall p, ~ In (EvOpen p) (trace E j w)).
Proof.
  intros H. unfold notifications.
  destruct (run_viewed E j w) as [m Hc Ht Hfs|m Hc Ho Ht Hfs
                                 |prs evs m Hc Ho Hs Hl Ht Hfs
                                 |prs evs sls Hc Ho Hs Hl Ht Hfs];
    rewrite Ht.
  - assert (m = msg) by (destruct H as [H|[H _]]; congruence). subst m.
    split; [reflexivity|]. split; [intros p [F|[F|[]]]; discriminate|].
    split; [exact Hfs|]. split; [reflexivity|].
    intros _ p [F|[F|[]]]; discriminate.
  - assert (m = msg) by (destruct H as [H|[_ H]]; congruence). subst m.
    split; [reflexivity|]. split; [intros p [F|[F|[F|[]]]]; discriminate|].
    split; [exact Hfs|]. split; [reflexivity|]. congruence.
  - destruct H as [H|[_ H]]; congruence.
  - destruct H as [H|[_ H]]; congruence.
Qed.

Lemma early_failure_touches_nothing_witness :
  let w := Scenario.disk (Scenario.deck [Scenario.text_box "Hello"]) in
  construct_error Cases.unsupported "en" "es"
  = Some "No support for the provided language."
  /\ trace Cases.unsupported Scenario.the_job w
     = [EvConstruct "en" "es"; EvEmit (Error "No support for the provided language.")]
  /\ sent_of (trace Cases.unsupported Scenario.the_job w) = [].
Proof.
  intros w. split; [reflexivity|]. split; [reflexivity|].
  exact (proj1 (early_failure_touches_nothing Cases.unsupported Scenario.the_job w
                  "No support for the provided language." (or_introl eq_refl))).
Defined.

Lemma sent_of_run_trace a b c evs t :
  sent_of ([EvConstruct a b; EvOpen c] ++ evs ++ [EvSave c; EvEmit t]) = sent_of evs.
Proof. rewrite !sent_of_app. cbn. apply app_nil_r. Qed.

(** X4. The translator is called shape by shape in document order, each
    shape sending an initial part of its own non-blank texts; so no text
    of the document is sent twice and the number of calls is at most the
    number of non-blank texts. *)
Theorem translator_calls_in_order {T} (E : env T) (j : job) (w : world T) prs :
  construct_error E (source j) (target j) = None ->
  fs w (input_file j) = Ok prs ->
  sent_in_order (all_shapes prs) (sent_of (trace E j w))
  /\ (List.length (sent_of (trace E j w)) <= List.length (texts_of prs))%nat.
Proof.
  intros Hc Ho.
  destruct (run_opened_steps E j w prs Hc Ho) as (sls & evs & _ & _ & Hsteps & Ht & _).
  rewrite Ht.
  assert (Hs : sent_of ([EvConstruct (source j) (target j); EvOpen (input_file j)]
                        ++ evs ++ [EvSave (output_file j);
                                   EvEmit match save_error E (output_file j) with
                                          | None => Finished
                                          | Some msg => Error msg
                                          end]) = sent_of evs).
  { rewrite !sent_of_app. cbn. apply app_nil_r. }
  rewrite Hs. destruct Hsteps as (_ & Hord & _).
  split; [exact Hord|]. apply sent_in_order_length. exact Hord.
Qed.

Lemma translator_calls_in_order_witness :
  let prs := Scenario.deck [Scenario.framed ["one"; "boom"; "three"];
                            Scenario.text_box "Hello"] in
  let w := Scenario.disk prs in
  sent_of (trace Scenario.online Scenario.the_job w) = ["one"; "boom"; "Hello"]
  /\ texts_of prs = ["one"; "boom"; "three"; "Hello"]
  /\ (List.length (sent_of (trace Scenario.online Scenario.the_job w))
      <= List.length (texts_of prs))%nat.
Proof.
  intros prs w. split; [reflexivity|]. split; [reflexivity|].
  exact (proj2 (translator_calls_in_order Scenario.online Scenario.the_job w prs
                  eq_refl eq_refl)).
Defined.

(** X5. With a translator and a text setter that never raise, every
    non-blank text of the document is sent exactly once, in document
    order, and no shape error is printed. *)
Theorem reliable_translator_sends_every_text {T} (E : env T) (j : job) (w : world T) prs :
  never_fails E ->
  construct_error E (source j) (target j) = None ->
  fs w (input_file j) = Ok prs ->
  sent_of (trace E j w) = texts_of prs
  /\ (forall line, ~ In (EvPrint line) (trace E j w)).
Proof.
  intros Hn Hc Ho.
  destruct (run_opened_steps E j w prs Hc Ho) as (sls & evs & _ & _ & Hsteps & Ht & _).
  rewrite Ht. destruct Hsteps as (_ & _ & _ & Hall). destruct (Hall Hn) as [Hs Hnp].
  split.
  - rewrite !sent_of_app. cbn. rewrite app_nil_r. exact Hs.
  - intros line Hin. apply in_app_or in Hin. destruct Hin as [[F|[F|[]]]|Hin];
      try discriminate.
    apply in_app_or in Hin. destruct Hin as [Hin|[F|[F|[]]]]; try discriminate.
    exact (Hnp line Hin).
Qed.

Lemma reliable_never_fails : never_fails Cases.reliable.
Proof.
  split; [|reflexivity]. intros src tgt st s. eexists _, _. reflexivity.
Defined.

Lemma reliable_translator_sends_every_text_witness :
  let prs := Scenario.deck [Scenario.framed ["one"; " "; "three"];
                            Scenario.picture; Scenario.text_box "Hello"] in
  never_fails Cases.reliable
  /\ sent_of (trace Cases.reliable Scenario.the_job (Cases.disk prs))
     = ["one"; "three"; "Hello"].
Proof.
  intros prs. split; [exact reliable_never_fails|].
  exact (proj1 (reliable_translator_sends_every_text Cases.reliable Scenario.the_job
                  (Cases.disk prs) prs reliable_never_fails eq_refl eq_refl)).
Defined.

(** X6. The document that a successful run saves has as many slides as
    the document that was opened and as many shapes on each slide, and
    each shape keeps its attributes.  A text frame of a shape without a
    direct text keeps its number of paragraphs.  A shape with a direct
    text is as it was, or the [text] setter ran on it, which rewrites its
    text frame to one paragraph per line of the text it was given: there
    the number of paragraphs can change. *)
Theorem saved_document_keeps_layout {T} (E : env T) (j : job) (w : world T) prs :
  construct_error E (source j) (target j) = None ->
  fs w (input_file j) = Ok prs ->
  save_error E (output_file j) = None ->
  exists prs',
    fs (run_world E j w) (output_file j) = Ok prs'
    /\ same_slides (slides prs) (slides prs').
Proof.
  intros Hc Ho Hs.
  destruct (run_opened_steps E j w prs Hc Ho) as (sls & evs & Hsame & _ & _ & _ & Hfs).
  exists {| slides := sls |}. rewrite (Hfs Hs). unfold write_file.
  rewrite put_file_same by apply same_file_refl. split; [reflexivity|exact Hsame].
Qed.

Lemma saved_document_keeps_layout_witness :
  let titled := {| text := Some "Hello";
                   text_frame := Some {| paragraphs := [{| p_text := "Hel" |};
                                                        {| p_text := "lo" |}] |} |} in
  let prs := Scenario.deck [Scenario.framed ["one"; "boom"]; Scenario.text_box "Hello";
                            titled] in
  fs (run_world Scenario.online Scenario.the_job (Scenario.disk prs)) "out.pptx"
  = Ok (Scenario.deck [Scenario.framed ["<one>"; "boom"]; Scenario.text_box "Hola";
                       {| text := Some "Hola";
                          text_frame := Some {| paragraphs := [{| p_text := "Hola" |}] |} |}])
  /\ exists prs',
       fs (run_world Scenario.online Scenario.the_job (Scenario.disk prs)) "out.pptx"
       = Ok prs'
       /\ same_slides (slides prs) (slides prs').
Proof.
  intros titled prs. split; [reflexivity|].
  exact (saved_document_keeps_layout Scenario.online Scenario.the_job
           (Scenario.disk prs) prs eq_refl eq_refl eq_refl).
Defined.

(** X7. A document without any non-blank text is saved exactly as it was
    opened, and the translator is never called. *)
Theorem nothing_to_translate_saves_input {T} (E : env T) (j : job) (w : world T) prs :
  texts_of prs = [] ->
  construct_error E (source j) (target j) = None ->
  fs w (input_file j) = Ok prs ->
  save_error E (output_file j) = None ->
  fs (run_world E j w) (output_file j) = Ok prs
  /\ sent_of (trace E j w) = [].
Proof.
  intros Hnil Hc Ho Hs.
  destruct (run_opened_steps E j w prs Hc Ho) as (sls & evs & _ & Hsl & Hsteps & Ht & Hfs).
  rewrite (Hfs Hs), Ht. unfold write_file.
  rewrite put_file_same by apply same_file_refl.
  rewrite (Hsl Hnil). split; [destruct prs; reflexivity|].
  rewrite !sent_of_app. cbn. rewrite app_nil_r.
  destruct Hsteps as (_ & _ & Hn & _). apply Hn. exact Hnil.
Qed.

Lemma nothing_to_translate_saves_input_witness :
  let prs := Scenario.deck [Scenario.picture; Scenario.text_box "  ";
                            Scenario.framed [""; " "]] in
  texts_of prs = []
  /\ fs (run_world Scenario.online Scenario.the_job (Scenario.disk prs)) "out.pptx"
     = Ok prs.
Proof.
  intros prs. split; [reflexivity|].
  exact (proj1 (nothing_to_translate_saves_input Scenario.online Scenario.the_job
                  (Scenario.disk prs) prs eq_refl eq_refl eq_refl eq_refl)).
Defined.

Lemma for_paragraphs_blank {T} (E : env T) tr ps : forall w : world T,
  forallb blank (map p_text ps) = true ->
  for_paragraphs E tr ps w = (Ok (ps, None), w).
Proof.
  induction ps as [|p rest IH]; intros w H; [reflexivity|].
  cbn [map forallb] in H. apply andb_true_iff in H. destruct H as [H1 H2].
  cbn [for_paragraphs]. rewrite truthy_strip, H1. cbn [negb].
  rewrite bind_eq, (IH w H2). reflexivity.
Qed.

(** X8. The test on the whole text frame (line 52) never decides
    anything: when the joined text of a frame is only white space, the
    paragraph loop itself would send nothing and change nothing. *)
Theorem frame_guard_is_redundant {T} (E : env T) tr tf (w : world T) :
  truthy (strip (tf_text tf)) = false ->
  for_paragraphs E tr (paragraphs tf) w = (Ok (paragraphs tf, None), w).
Proof.
  intros H. rewrite truthy_strip in H. apply negb_false_iff in H.
  unfold tf_text in H. rewrite blank_join_lines in H.
  apply for_paragraphs_blank. exact H.
Qed.

Lemma frame_guard_is_redundant_witness :
  let tf := {| paragraphs := [{| p_text := " " |}; {| p_text := "" |}] |} in
  let tr := {| t_source := "en"; t_target := "es" |} in
  truthy (strip (tf_text tf)) = false
  /\ for_paragraphs Scenario.online tr (paragraphs tf) (Scenario.disk (Scenario.deck []))
     = (Ok (paragraphs tf, None), Scenario.disk (Scenario.deck [])).
Proof.
  intros tf tr. split; [reflexivity|].
  exact (frame_guard_is_redundant Scenario.online tr tf
           (Scenario.disk (Scenario.deck [])) eq_refl).
Defined.

Lemma ui_run_snoc {T} (E : env T) (w : world T) l a :
  ui_run E w (l ++ [a]) = ui_step E (ui_run E w l) a.
Proof. unfold ui_run. rewrite fold_left_app. reflexivity. Qed.

Lemma truthy_nonempty s : truthy s = true -> s <> "".
Proof.
  unfold truthy. destruct (String.eqb_spec s ""); [discriminate|auto].
Qed.

Lemma deliver_labels win s :
  input_file_label (deliver win s) = input_file_label win
  /\ output_file_label (deliver win s) = output_file_label win.
Proof.
  unfold deliver. destruct (thread win) as [th|]; [|auto].
  generalize (connections th s). intros l. revert win.
  induction l as [|sl l IH]; intros win; [auto|].
  cbn [fold_left]. destruct (IH (call_slot win sl s)) as [-> ->].
  destruct sl, s; auto.
Qed.

(** X9. Whatever the user does, a file label is never empty: it holds
    its placeholder or a non-empty name that a file dialog returned for
    it.  A cancelled dialog changes nothing. *)
Theorem labels_hold_placeholder_or_choice {T} (E : env T) (w : world T) l :
  label_ok no_input (input_file_label (fst (ui_run E w l))) (picked_inputs l)
  /\ label_ok no_output (output_file_label (fst (ui_run E w l))) (picked_outputs l).
Proof.
  induction l as [|a l IH] using rev_ind.
  - split; (split; [discriminate|left; reflexivity]).
  - rewrite ui_run_snoc. unfold picked_inputs, picked_outputs in *.
    rewrite !flat_map_app. destruct (ui_run E w l) as [self w1]. cbn [fst] in IH.
    destruct IH as [[Hi1 Hi2] [Ho1 Ho2]].
    assert (Hweak : forall lbl ph (p q : list string),
               lbl = ph \/ In lbl p -> lbl = ph \/ In lbl (p ++ q)).
    { intros lbl ph p q [H|H]; [left; exact H|right; apply in_or_app; left; exact H]. }
    destruct a as [n|n| |]; cbn [ui_step fst flat_map app].
    + unfold select_input_file. destruct (truthy n) eqn:Hn; cbn.
      * split; [split; [apply truthy_nonempty; exact Hn|right; apply in_or_app; right; left; reflexivity]|].
        split; [exact Ho1|rewrite app_nil_r; exact Ho2].
      * split; [split; [exact Hi1|apply Hweak; exact Hi2]|].
        split; [exact Ho1|rewrite app_nil_r; exact Ho2].
    + unfold select_output_file. destruct (truthy n) eqn:Hn; cbn.
      * split; [split; [exact Hi1|rewrite app_nil_r; exact Hi2]|].
        split; [apply truthy_nonempty; exact Hn|right; apply in_or_app; right; left; reflexivity].
      * split; [split; [exact Hi1|rewrite app_nil_r; exact Hi2]|].
        split; [exact Ho1|apply Hweak; exact Ho2].
    + rewrite !app_nil_r.
      assert (Hl : input_file_label (fst (translate_pptx E self w1)) = input_file_label self
                   /\ output_file_label (fst (translate_pptx E self w1))
                      = output_file_label self).
      { unfold translate_pptx.
        destruct ((input_file_label self =? no_input)%string
                  || (output_file_label self =? no_output)%string); split; reflexivity. }
      destruct (translate_button self); cbn [fst].
      * destruct Hl as [-> ->]. repeat split; assumption.
      * repeat split; assumption.
    + rewrite !app_nil_r. unfold handle_next.
      destruct (inbox self) as [|s rest]; [repeat split; assumption|].
      destruct (deliver_labels (set_inbox self rest) s) as [-> ->].
      repeat split; assumption.
Qed.

Lemma deliver_progress win th v :
  thread win = Some th ->
  progress_connections th = [update_progress_slot] ->
  deliver win (Progress v) = set_progress win v.
Proof. intros Hth Hp. unfold deliver. rewrite Hth. cbn. rewrite Hp. reflexivity. Qed.

Lemma deliver_finished win th :
  thread win = Some th ->
  finished_connections th = [translation_finished_slot] ->
  deliver win Finished = translation_finished win.
Proof. intros Hth Hp. unfold deliver. rewrite Hth. cbn. rewrite Hp. reflexivity. Qed.

Lemma deliver_error win th msg :
  thread win = Some th ->
  error_connections th = [translation_error_slot] ->
  deliver win (Error msg) = translation_error win msg.
Proof. intros Hth Hp. unfold deliver. rewrite Hth. cbn. rewrite Hp. reflexivity. Qed.

Lemma idle_or_waiting_step {T} (E : env T) self (w : world T) a :
  idle_or_waiting self -> idle_or_waiting (fst (ui_step E (self, w) a)).
Proof.
  intros H. destruct a as [n|n| |]; cbn [ui_step fst].
  - unfold select_input_file. destruct (truthy n); exact H.
  - unfold select_output_file. destruct (truthy n); exact H.
  - destruct H as [[Hq Hb]|(vs & t & Hq & Ht & Hb & Hth)].
    + rewrite Hb. unfold translate_pptx.
      destruct ((input_file_label self =? no_input)%string
                || (output_file_label self =? no_output)%string).
      * left. split; assumption.
      * right. unfold start.
        cbn [fst inbox set_inbox set_progress set_enabled set_thread translate_button
             thread th_job].
        rewrite Hq. cbn [app].
        match goal with |- context [run E ?j w] =>
          destruct (run_notifications E j w) as (vs & t & pre & Hn & _ & Ht & _);
          exists vs, t; fold (run_world E j w); fold (trace E j w);
          fold (notifications E j w) end.
        split; [exact Hn|]. split; [exact Ht|]. split; [reflexivity|].
        eexists. split; [reflexivity|]. repeat split.
    + rewrite Hb. cbn [fst]. right. exists vs, t. auto.
  - unfold handle_next.
    destruct H as [[Hq Hb]|(vs & t & Hq & Ht & Hb & th & Hth & Hp & Hf & He)].
    + rewrite Hq. left. split; assumption.
    + rewrite Hq. destruct vs as [|v vs]; cbn [map app].
      * left. destruct Ht as [->|[msg ->]].
        -- rewrite (deliver_finished _ th) by assumption. split; reflexivity.
        -- rewrite (deliver_error _ th) by assumption. split; reflexivity.
      * right. rewrite (deliver_progress _ th) by assumption.
        exists vs, t. split; [reflexivity|]. split; [exact Ht|]. split; [exact Hb|].
        exists th. auto.
Qed.

(** X10. Runs do not overlap.  Whatever the user does, the window is
    either idle (nothing queued, button enabled) or waiting for one run
    (button disabled, and the queue holds what is left of that run's
    notifications: Progress values and then its terminal notification).
    So a second run starts only after the terminal notification of the
    first one has been handled. *)
Theorem one_run_at_a_time {T} (E : env T) (w : world T) l :
  idle_or_waiting (fst (ui_run E w l)).
Proof.
  induction l as [|a l IH] using rev_ind.
  - left. split; reflexivity.
  - rewrite ui_run_snoc. destruct (ui_run E w l) as [self w1].
    apply idle_or_waiting_step. exact IH.
Qed.

(** X11. Choosing an input file, choosing an output file and clicking
    Translate on a fresh window runs the worker once, on exactly these
    two paths, from English to Spanish. *)
Theorem pick_both_then_translate {T} (E : env T) (w : world T) a b :
  a <> "" -> b <> "" -> a <> no_input -> b <> no_output ->
  snd (ui_run E w [PickInput a; PickOutput b; ClickTranslate])
  = run_world E {| input_file := a; output_file := b; source := "en"; target := "es" |} w
  /\ inbox (fst (ui_run E w [PickInput a; PickOutput b; ClickTranslate]))
     = notifications E {| input_file := a; output_file := b;
                          source := "en"; target := "es" |} w.
Proof.
  intros Ha Hb Ha' Hb'.
  assert (Hta : truthy a = true).
  { unfold truthy. destruct (String.eqb_spec a ""); [contradiction|reflexivity]. }
  assert (Htb : truthy b = true).
  { unfold truthy. destruct (String.eqb_spec b ""); [contradiction|reflexivity]. }
  unfold ui_run. cbn [fold_left ui_step].
  unfold select_input_file. rewrite Hta. unfold select_output_file. rewrite Htb.
  cbn [translate_button set_output_file_label set_input_file_label initUI].
  unfold translate_pptx.
  cbn [input_file_label output_file_label set_output_file_label set_input_file_label].
  apply String.eqb_neq in Ha', Hb'. rewrite Ha', Hb'. cbn [orb].
  split; reflexivity.
Qed.

Lemma pick_both_then_translate_witness :
  let w := Scenario.disk (Scenario.deck [Scenario.text_box "Hello"]) in
  "in.pptx" <> "" /\ "out.pptx" <> "" /\ "in.pptx" <> no_input /\ "out.pptx" <> no_output
  /\ inbox (fst (ui_run Scenario.online w
                   [PickInput "in.pptx"; PickOutput "out.pptx"; ClickTranslate]))
     = [Progress 100; Finished]
  /\ snd (ui_run Scenario.online w
            [PickInput "in.pptx"; PickOutput "out.pptx"; ClickTranslate])
     = run_world Scenario.online Scenario.the_job w.
Proof.
  intros w.
  assert (H1 : "in.pptx" <> "") by discriminate.
  assert (H2 : "out.pptx" <> "") by discriminate.
  assert (H3 : "in.pptx" <> no_input) by discriminate.
  assert (H4 : "out.pptx" <> no_output) by discriminate.
  repeat (split; [assumption|]). split; [reflexivity|].
  exact (proj1 (pick_both_then_translate Scenario.online w "in.pptx" "out.pptx"
                  H1 H2 H3 H4)).
Defined.

Lemma deliver_all_progress vs : forall win th,
  thread win = Some th ->
  progress_connections th = [update_progress_slot] ->
  fold_left deliver (map Progress vs) win
  = match vs with
    | [] => win
    | _ => set_progress win (last vs 0)
    end.
Proof.
  induction vs as [|v vs IH]; intros win th Hth Hp; [reflexivity|].
  cbn [map fold_left]. rewrite (deliver_progress win th v Hth Hp).
  rewrite (IH (set_progress win v) th Hth Hp).
  destruct vs as [|v' vs]; reflexivity.
Qed.

Lemma after_run_eq {T} (E : env T) self (w : world T) vs t :
  input_file_label self <> no_input ->
  output_file_label self <> no_output ->
  inbox self = [] ->
  notifications E (job_of self) w = map Progress vs ++ [t] ->
  after_run E self w
  = deliver (match vs with
             | [] => set_inbox (set_progress (set_enabled
                                  (set_thread self (thread_of self)) false) 0) []
             | _ => set_progress (set_inbox (set_progress (set_enabled
                                  (set_thread self (thread_of self)) false) 0) [])
                                 (last vs 0)
             end) t.
Proof.
  intros Hi Ho Hq Hn. unfold after_run, translate_pptx.
  apply String.eqb_neq in Hi, Ho. rewrite Hi, Ho. cbn [orb].
  fold (job_of self). fold (thread_of self). unfold start.
  cbn [fst th_job thread_of]. fold (run_world E (job_of self) w).
  fold (trace E (job_of self) w). fold (notifications E (job_of self) w).
  unfold process_events.
  cbn [inbox set_inbox set_progress set_enabled set_thread].
  rewrite Hq, Hn. cbn [app]. rewrite fold_left_app. cbn [fold_left].
  f_equal. apply (deliver_all_progress vs _ (thread_of self)); reflexivity.
Qed.

Lemma terminal_of_notifications vs t s :
  In s (map Progress vs ++ [t]) -> (forall v, s <> Progress v) -> s = t.
Proof.
  intros Hin Hs. apply in_app_or in Hin. destruct Hin as [Hin|[H|[]]]; [|auto].
  apply in_map_iff in Hin. destruct Hin as (v & <- & _). destruct (Hs v eq_refl).
Qed.

Lemma waiting_steps {T} (E : env T) th acts : forall (win : window) (w : world T) vs t,
  thread win = Some th ->
  progress_connections th = [update_progress_slot] ->
  translate_button win = false ->
  inbox win = map Progress vs ++ [t] ->
  handles acts = List.length vs ->
  snd (fold_left (ui_step E) acts (win, w)) = w
  /\ thread (fst (fold_left (ui_step E) acts (win, w))) = Some th
  /\ inbox (fst (fold_left (ui_step E) acts (win, w))) = [t]
  /\ dialogs (fst (fold_left (ui_step E) acts (win, w))) = dialogs win
  /\ output_file_label (fst (fold_left (ui_step E) acts (win, w)))
     = relabelled (output_file_label win) (picked_outputs acts).
Proof.
  induction acts as [|a acts IH]; intros win w vs t Hth Hp Hb Hq Hn.
  - destruct vs; [|discriminate]. cbn. auto.
  - cbn [fold_left]. destruct a as [n|n| |]; cbn [ui_step].
    + assert (Hsel : thread (select_input_file win n) = thread win
                     /\ translate_button (select_input_file win n) = translate_button win
                     /\ inbox (select_input_file win n) = inbox win
                     /\ dialogs (select_input_file win n) = dialogs win
                     /\ output_file_label (select_input_file win n) = output_file_label win).
      { unfold select_input_file. destruct (truthy n); repeat split. }
      destruct Hsel as (H1 & H2 & H3 & H4 & H5).
      destruct (IH (select_input_file win n) w vs t ltac:(congruence) Hp
                  ltac:(congruence) ltac:(congruence) Hn) as (R1 & R2 & R3 & R4 & R5).
      rewrite R1, R2, R3, R4, R5, H4, H5. repeat split.
    + assert (Hsel : thread (select_output_file win n) = thread win
                     /\ translate_button (select_output_file win n) = translate_button win
                     /\ inbox (select_output_file win n) = inbox win
                     /\ dialogs (select_output_file win n) = dialogs win
                     /\ output_file_label (select_output_file win n)
                        = if truthy n then n else output_file_label win).
      { unfold select_output_file. destruct (truthy n); repeat split. }
      destruct Hsel as (H1 & H2 & H3 & H4 & H5).
      destruct (IH (select_output_file win n) w vs t ltac:(congruence) Hp
                  ltac:(congruence) ltac:(congruence) Hn) as (R1 & R2 & R3 & R4 & R5).
      rewrite R1, R2, R3, R4, R5, H4, H5. repeat split.
    + rewrite Hb. apply (IH win w vs t); assumption.
    + destruct vs as [|v vs]; [discriminate|].
      unfold handle_next. rewrite Hq. cbn [map app].
      rewrite (deliver_progress _ th v) by assumption.
      assert (Hn' : handles acts = List.length vs).
      { unfold handles in *. cbn in Hn. congruence. }
      destruct (IH (set_progress (set_inbox win (map Progress vs ++ [t])) v) w vs t
                  Hth Hp Hb eq_refl Hn') as (R1 & R2 & R3 & R4 & R5).
      rewrite R1, R2, R3, R4, R5. repeat split.
Qed.

(** X12. After a click on Translate that passes the guard, file dialogs
    and further clicks may come between the Progress notifications of
    the run in any order: no dialog is shown and no second run is started
    before the terminal notification is handled.  Handling it adds
    exactly one dialog, enables the button and leaves the queue empty.
    After Finished the dialog is the success notice, and it names what
    the output label holds at that moment: the path the run saved to
    only if no other output file was picked in the meantime.  After
    Error it is the failure notice quoting the message. *)
Theorem one_dialog_after_run {T} (E : env T) (self : window) (w : world T)
    (acts : list ui_action) :
  input_file_label self <> no_input ->
  output_file_label self <> no_output ->
  inbox self = [] ->
  S (handles acts) = List.length (notifications E (job_of self) w) ->
  let before := fold_left (ui_step E) acts (translate_pptx E self w) in
  let after := handle_next (fst before) in
  snd before = run_world E (job_of self) w
  /\ dialogs (fst before) = dialogs self
  /\ (In Finished (notifications E (job_of self) w) ->
      dialogs after
      = dialogs self
        ++ [Information "Success"
              ("Translation completed. File saved as: "
               ++ relabelled (output_file_label self) (picked_outputs acts))%string])
  /\ (forall msg, In (Error msg) (notifications E (job_of self) w) ->
      dialogs after
      = dialogs self
        ++ [Critical "Error" ("An error occurred during translation: " ++ msg)%string])
  /\ translate_button after = true
  /\ inbox after = [].
Proof.
  intros Hi Ho Hq Hn before after.
  destruct (run_notifications E (job_of self) w) as (vs & t & pre & Hnot & _ & Ht & _).
  assert (Hstart : translate_pptx E self w
                   = (set_inbox (set_progress (set_enabled
                                   (set_thread self (thread_of self)) false) 0)
                                (map Progress vs ++ [t]),
                      run_world E (job_of self) w)).
  { unfold translate_pptx. apply String.eqb_neq in Hi, Ho. rewrite Hi, Ho. cbn [orb].
    fold (job_of self). fold (thread_of self). unfold start.
    cbn [th_job thread_of]. fold (run_world E (job_of self) w).
    fold (trace E (job_of self) w). fold (notifications E (job_of self) w).
    cbn [inbox set_inbox set_progress set_enabled set_thread].
    rewrite Hq, Hnot. reflexivity. }
  assert (Hlen : handles acts = List.length vs).
  { rewrite Hnot, length_app, length_map in Hn. cbn in Hn. lia. }
  subst after before. rewrite Hstart.
  destruct (waiting_steps E (thread_of self) acts
              (set_inbox (set_progress (set_enabled
                            (set_thread self (thread_of self)) false) 0)
                         (map Progress vs ++ [t]))
              (run_world E (job_of self) w) vs t
              eq_refl eq_refl eq_refl eq_refl Hlen) as (R1 & R2 & R3 & R4 & R5).
  split; [exact R1|]. split; [exact R4|].
  unfold handle_next. rewrite R3.
  set (win1 := set_inbox _ []).
  assert (Hth1 : thread win1 = Some (thread_of self)) by exact R2.
  assert (Hd1 : dialogs win1 = dialogs self) by exact R4.
  assert (Hl1 : output_file_label win1
                = relabelled (output_file_label self) (picked_outputs acts)) by exact R5.
  assert (Hq1 : inbox win1 = []) by reflexivity.
  clearbody win1. rewrite Hnot.
  split; [|split; [|split]].
  - intros Hin. apply terminal_of_notifications in Hin; [|discriminate]. subst t.
    rewrite (deliver_finished win1 (thread_of self) Hth1 eq_refl).
    unfold translation_finished. cbn [dialogs show set_enabled output_file_label].
    rewrite Hd1, Hl1. reflexivity.
  - intros msg Hin. apply terminal_of_notifications in Hin; [|discriminate]. subst t.
    rewrite (deliver_error win1 (thread_of self) msg Hth1 eq_refl).
    unfold translation_error. cbn [dialogs show set_enabled]. rewrite Hd1. reflexivity.
  - destruct Ht as [->|[msg ->]].
    + rewrite (deliver_finished win1 (thread_of self) Hth1 eq_refl). reflexivity.
    + rewrite (deliver_error win1 (thread_of self) msg Hth1 eq_refl). reflexivity.
  - destruct Ht as [->|[msg ->]].
    + rewrite (deliver_finished win1 (thread_of self) Hth1 eq_refl). exact Hq1.
    + rewrite (deliver_error win1 (thread_of self) msg Hth1 eq_refl). exact Hq1.
Qed.

Lemma one_dialog_after_run_witness :
  let self := select_output_file (select_input_file initUI "in.pptx") "out.pptx" in
  let w := Scenario.disk (Scenario.deck [Scenario.text_box "Hello"]) in
  let acts := [PickOutput "other.pptx"; ClickTranslate; HandleNext] in
  let before := fold_left (ui_step Scenario.online) acts
                  (translate_pptx Scenario.online self w) in
  input_file_label self <> no_input
  /\ output_file_label self <> no_output
  /\ inbox self = []
  /\ S (handles acts) = List.length (notifications Scenario.online (job_of self) w)
  /\ In Finished (notifications Scenario.online (job_of self) w)
  /\ dialogs (handle_next (fst before))
     = [Information "Success" "Translation completed. File saved as: other.pptx"]
  /\ fs (snd before) "other.pptx" = Raise "Package not found"
  /\ fs (snd before) "out.pptx" = Ok (Scenario.deck [Scenario.text_box "Hola"]).
Proof.
  intros self w acts before.
  assert (Hi : input_file_label self <> no_input) by (vm_compute; discriminate).
  assert (Ho : output_file_label self <> no_output) by (vm_compute; discriminate).
  assert (Hf : In Finished (notifications Scenario.online (job_of self) w))
    by (right; left; reflexivity).
  split; [exact Hi|]. split; [exact Ho|]. split; [reflexivity|].
  split; [reflexivity|]. split; [exact Hf|].
  split; [|split; reflexivity].
  exact (proj1 (proj2 (proj2 (one_dialog_after_run Scenario.online self w acts
                                Hi Ho eq_refl eq_refl))) Hf).
Defined.

Lemma early_failure_notifications {T} (E : env T) (j : job) (w : world T) msg :
  construct_error E (source j) (target j) = Some msg
  \/ (construct_error E (source j) (target j) = None
      /\ fs w (input_file j) = Raise msg) ->
  notifications E j w = [Error msg].
Proof.
  intros H. unfold notifications.
  destruct (run_viewed E j w) as [m Hc Ht _|m Hc Ho Ht _
                                 |prs evs m Hc Ho Hs Hl Ht _
                                 |prs evs sls Hc Ho Hs Hl Ht _];
    rewrite Ht; destruct H as [H|[H1 H2]]; try congruence;
    cbn; do 2 f_equal; congruence.
Qed.

(** X13. Once the notifications of a run were handled the progress bar
    shows 100 when the document was opened and has at least one shape,
    whether the save succeeded or not; it stays at 0 when the document
    has no shape, even after a successful run, and when the translator
    could not be built or the document could not be opened. *)
Theorem progress_bar_after_run {T} (E : env T) (self : window) (w : world T) :
  input_file_label self <> no_input ->
  output_file_label self <> no_output ->
  inbox self = [] ->
  (forall prs,
     construct_error E (source_lang self) (target_lang self) = None ->
     fs w (input_file_label self) = Ok prs ->
     progress_bar (after_run E self w) = if 0 <? total_units prs then 100 else 0)
  /\ (forall msg,
      construct_error E (source_lang self) (target_lang self) = Some msg
      \/ (construct_error E (source_lang self) (target_lang self) = None
          /\ fs w (input_file_label self) = Raise msg) ->
      progress_bar (after_run E self w) = 0).
Proof.
  intros Hi Ho Hq.
  assert (Hbar : forall vs t,
    notifications E (job_of self) w = map Progress vs ++ [t] -> terminal t ->
    progress_bar (after_run E self w) = match vs with [] => 0 | _ => last vs 0 end).
  { intros vs t Hn Ht. rewrite (after_run_eq E self w vs t Hi Ho Hq Hn).
    assert (Hth : thread (match vs with
             | [] => set_inbox (set_progress (set_enabled
                                  (set_thread self (thread_of self)) false) 0) []
             | _ => set_progress (set_inbox (set_progress (set_enabled
                                  (set_thread self (thread_of self)) false) 0) [])
                                 (last vs 0)
             end) = Some (thread_of self)) by (destruct vs; reflexivity).
    destruct Ht as [->|[msg ->]].
    - rewrite (deliver_finished _ (thread_of self) Hth eq_refl). destruct vs; reflexivity.
    - rewrite (deliver_error _ (thread_of self) msg Hth eq_refl). destruct vs; reflexivity. }
  split.
  - intros prs Hc Hop.
    destruct (opened_run E (job_of self) w prs Hc Hop) as (evs & t & _ & Ht & _ & Hn).
    assert (Hterm : terminal t).
    { rewrite Ht. destruct (save_error E (output_file (job_of self)));
        [right; eauto|left; reflexivity]. }
    rewrite (Hbar _ t Hn Hterm).
    pose proof (total_units_count prs) as Hcount. unfold len in Hcount.
    destruct (all_shapes prs) as [|sh shs] eqn:Hall.
    + cbn in Hcount. rewrite Hcount. reflexivity.
    + assert (Hpos : 0 < total_units prs) by (rewrite Hcount; cbn [List.length]; lia).
      apply Z.ltb_lt in Hpos. rewrite Hpos.
      pose proof (progress_values_last (total_units prs) (List.length (sh :: shs)) 0
                    ltac:(cbn; lia) ltac:(lia) ltac:(lia)) as Hlast.
      destruct (progress_values (total_units prs) 0 (List.length (sh :: shs))) eqn:Hpv;
        [|exact Hlast].
      apply (f_equal (@List.length Z)) in Hpv. rewrite progress_values_length in Hpv.
      discriminate.
  - intros msg Hf.
    pose proof (early_failure_notifications E (job_of self) w msg Hf) as Hn.
    apply (Hbar [] (Error msg) Hn). right. eauto.
Qed.

Lemma progress_bar_after_run_witness :
  let self := select_output_file (select_input_file initUI "in.pptx") "out.pptx" in
  input_file_label self <> no_input
  /\ output_file_label self <> no_output
  /\ inbox self = []
  /\ progress_bar (after_run Scenario.online self
                     (Scenario.disk (Scenario.deck [Scenario.picture])))
     = 100
  /\ progress_bar (after_run Scenario.online self (Scenario.disk (Scenario.deck [])))
     = 0.
Proof.
  intros self.
  assert (Hi : input_file_label self <> no_input) by (vm_compute; discriminate).
  assert (Ho : output_file_label self <> no_output) by (vm_compute; discriminate).
  split; [exact Hi|]. split; [exact Ho|]. split; [reflexivity|]. split.
  - exact (proj1 (progress_bar_after_run Scenario.online self
                    (Scenario.disk (Scenario.deck [Scenario.picture])) Hi Ho eq_refl)
             (Scenario.deck [Scenario.picture]) eq_refl eq_refl).
  - exact (proj1 (progress_bar_after_run Scenario.online self
                    (Scenario.disk (Scenario.deck [])) Hi Ho eq_refl)
             (Scenario.deck []) eq_refl eq_refl).
Defined.

Lemma run_notifications_range {T} (E : env T) (j : job) (w : world T) :
  exists vs t,
    notifications E j w = map Progress vs ++ [t]
    /\ terminal t
    /\ Sorted Z.le vs
    /\ Forall (fun v => 0 <= v <= 100) vs.
Proof.
  unfold notifications.
  destruct (run_viewed E j w) as [msg Hc Ht _|msg Hc Ho Ht _
                                 |prs evs msg Hc Ho Hs Hl Ht _
                                 |prs evs sls Hc Ho Hs Hl Ht _];
    rewrite Ht.
  - exists [], (Error msg). repeat split; [right; eauto|constructor|constructor].
  - exists [], (Error msg). repeat split; [right; eauto|constructor|constructor].
  - destruct Hl as (_ & Hsig & _). rewrite !signals_of_app, Hsig.
    pose proof (total_units_count prs) as Hn. unfold len in Hn.
    eexists _, (Error msg). split; [reflexivity|]. split; [right; eauto|]. split.
    + apply progress_values_sorted; lia.
    + apply progress_values_range; lia.
  - destruct Hl as (_ & Hsig & _). rewrite !signals_of_app, Hsig.
    pose proof (total_units_count prs) as Hn. unfold len in Hn.
    eexists _, Finished. split; [reflexivity|]. split; [left; reflexivity|]. split.
    + apply progress_values_sorted; lia.
    + apply progress_values_range; lia.
Qed.

Lemma handle_next_bar self :
  bar_behind_queue self ->
  bar_behind_queue (handle_next self)
  /\ progress_bar self <= progress_bar (handle_next self).
Proof.
  unfold handle_next.
  intros [Hq|(vs & t & th & Hq & Ht & Hs & Hb & Hth & Hp & Hf & He)]; rewrite Hq.
  - split; [left; exact Hq|lia].
  - destruct vs as [|v vs]; cbn [map app].
    + destruct Ht as [->|[msg ->]].
      * rewrite (deliver_finished _ th) by assumption. split; [left; reflexivity|].
        cbn. lia.
      * rewrite (deliver_error _ th) by assumption. split; [left; reflexivity|].
        cbn. lia.
    + rewrite (deliver_progress _ th) by assumption.
      cbn [progress_bar set_progress]. inversion Hs; subst. inversion Hb; subst.
      split; [|assumption].
      right. exists vs, t, th. cbn [inbox set_progress set_inbox thread progress_bar].
      repeat split; assumption.
Qed.

Lemma handled_bar n : forall self,
  bar_behind_queue self ->
  bar_behind_queue (handled n self)
  /\ progress_bar (handled n self) <= progress_bar (handled (S n) self).
Proof.
  induction n as [|n IH]; intros self H.
  - cbn. split; [exact H|apply handle_next_bar; exact H].
  - destruct (IH self H) as [H1 _].
    change (handled (S n) self) with (handle_next (handled n self)).
    destruct (handle_next_bar _ H1) as [H2 _].
    split; [exact H2|].
    change (handled (S (S n)) self) with (handle_next (handle_next (handled n self))).
    apply handle_next_bar. exact H2.
Qed.

(** X14. While the notifications of a run are handled one by one, the
    progress bar never moves backwards: it starts at 0 and each handled
    notification leaves it where it was or moves it forward. *)
Theorem progress_bar_never_decreases {T} (E : env T) (self : window) (w : world T) n :
  input_file_label self <> no_input ->
  output_file_label self <> no_output ->
  inbox self = [] ->
  progress_bar (handled 0 (fst (translate_pptx E self w))) = 0
  /\ progress_bar (handled n (fst (translate_pptx E self w)))
     <= progress_bar (handled (S n) (fst (translate_pptx E self w))).
Proof.
  intros Hi Ho Hq.
  assert (Hg : ((input_file_label self =? no_input)%string
                || (output_file_label self =? no_output)%string) = false).
  { apply orb_false_iff. split; apply String.eqb_neq; assumption. }
  assert (H0 : bar_behind_queue (fst (translate_pptx E self w))
               /\ progress_bar (fst (translate_pptx E self w)) = 0).
  { unfold translate_pptx, bar_behind_queue. rewrite Hg. unfold start.
    cbn [fst inbox set_inbox set_progress set_enabled set_thread progress_bar thread
         th_job].
    rewrite Hq. cbn [app]. split; [|reflexivity].
    match goal with |- context [run E ?j w] =>
      destruct (run_notifications_range E j w) as (vs & t & Hn & Ht & Hs & Hr);
      fold (run_world E j w) end.
    right. eexists vs, t, _.
    split; [exact Hn|]. split; [exact Ht|].
    split; [apply Sorted_StronglySorted; [intros x y z; apply Z.le_trans|exact Hs]|].
    split; [|repeat split].
    revert Hr. apply Forall_impl. intros v Hv. lia. }
  destruct H0 as [Hb H0]. split; [exact H0|].
  apply handled_bar. exact Hb.
Qed.

Lemma progress_bar_never_decreases_witness :
  let self := select_output_file (select_input_file initUI "in.pptx") "out.pptx" in
  let w := Scenario.disk (Scenario.deck [Scenario.picture; Scenario.picture]) in
  input_file_label self <> no_input
  /\ output_file_label self <> no_output
  /\ inbox self = []
  /\ map (fun n => progress_bar (handled n (fst (translate_pptx Scenario.online self w))))
         [0; 1; 2; 3]%nat
     = [0; 50; 100; 100]
  /\ progress_bar (handled 1 (fst (translate_pptx Scenario.online self w)))
     <= progress_bar (handled 2 (fst (translate_pptx Scenario.online self w))).
Proof.
  intros self w.
  assert (Hi : input_file_label self <> no_input) by (vm_compute; discriminate).
  assert (Ho : output_file_label self <> no_output) by (vm_compute; discriminate).
  split; [exact Hi|]. split; [exact Ho|]. split; [reflexivity|]. split; [reflexivity|].
  exact (proj2 (progress_bar_never_decreases Scenario.online self w 1%nat Hi Ho eq_refl)).
Defined.

Lemma rne_cases m k :
  0 <= k < 4 ->
  (k <= 1 /\ rne (4 * m + k) = m)
  \/ (k = 2 /\ (rne (4 * m + k) = m \/ rne (4 * m + k) = m + 1))
  \/ (k = 3 /\ rne (4 * m + k) = m + 1).
Proof.
  intros Hk. unfold rne. destruct (div4_code m k Hk) as [-> ->].
  destruct (Z.eqb_spec k 3); [right; right; lia|].
  destruct (Z.eqb_spec k 2); [|left; lia].
  right; left. destruct (Z.even m); lia.
Qed.

(** Rounding to nearest moves a quantity [a / (2 D)] by at most one half. *)
Lemma rne_scode_error a D :
  0 <= a -> 0 < D ->
  2 * D * rne (scode a D) - D <= a <= 2 * D * rne (scode a D) + D.
Proof.
  intros Ha HD.
  remember (a / D) as f eqn:Ef. remember (a mod D) as r eqn:Er.
  assert (Haf : a = D * f + r) by (subst f r; apply Z.div_mod; lia).
  assert (Hr : 0 <= r < D) by (subst r; apply Z.mod_pos_bound; lia).
  remember (f / 2) as m eqn:Em. remember (f mod 2) as b eqn:Eb.
  assert (Hfm : f = 2 * m + b) by (subst m b; apply Z.div_mod; lia).
  assert (Hb : 0 <= b < 2) by (subst b; apply Z.mod_pos_bound; lia).
  assert (Hc : exists s, scode a D = 4 * m + (2 * b + s)
                         /\ ((s = 0 /\ r = 0) \/ (s = 1 /\ 0 < r))).
  { unfold scode. rewrite <- Ef, <- Er.
    destruct (Z.eqb_spec r 0); [exists 0|exists 1]; lia. }
  destruct Hc as (s & -> & Hs). clear Ef Er Em Eb.
  destruct (rne_cases m (2 * b + s) ltac:(lia)) as [[Hk ->]|[[Hk [-> | ->]]|[Hk ->]]];
    nia.
Qed.

(** The quotient [p / N], scaled by [2 ^ 1074], is off by at most
    [2 ^ -53]. *)
Lemma fdiv_error p N :
  (p <= N)%positive ->
  2 * Zpos N * SFval 1074 (fdiv p N) - Zpos N * 2 ^ 1022
  <= 2 * Zpos p * 2 ^ 1074
  <= 2 * Zpos N * SFval 1074 (fdiv p N) + Zpos N * 2 ^ 1022.
Proof.
  intros H. pose proof (div_s_range p N H) as Hs. pose proof (div_E_range p N H) as HE.
  unfold fdiv. rewrite (rounded_to_val _ _ _ 1074 (SFdiv_value p N H)) by lia.
  unfold div_M, div_a.
  set (s := div_s p N) in *. set (E := div_E p N) in *.
  pose proof (pow2_pos s ltac:(lia)) as Hps.
  pose proof (pow2_pos (E + s) ltac:(lia)) as Hpes.
  pose proof (pow2_pos (1074 - s) ltac:(lia)) as Hpw.
  pose proof (rne_scode_error (2 * (Zpos p * 2 ^ s)) (Zpos N * 2 ^ (E + s))
                ltac:(nia) ltac:(nia)) as Herr.
  set (M := rne (scode (2 * (Zpos p * 2 ^ s)) (Zpos N * 2 ^ (E + s)))) in *.
  assert (H1 : 2 ^ s * 2 ^ (1074 - s) = 2 ^ 1074).
  { rewrite <- pow2_split by lia. f_equal. lia. }
  assert (H2 : 2 ^ (E + s) * 2 ^ (1074 - s) = 2 ^ (E + 1074)).
  { rewrite <- pow2_split by lia. f_equal. lia. }
  assert (H3 : 2 ^ (E + 1074) <= 2 ^ 1022) by (apply Z.pow_le_mono_r; lia).
  pose proof (pow2_pos (E + 1074) ltac:(lia)) as Hpe.
  set (W := 2 ^ (1074 - s)) in *. set (A := 2 ^ s) in *. set (B := 2 ^ (E + s)) in *.
  set (G := 2 ^ (E + 1074)) in *. set (S := 2 ^ 1074) in *. set (L := 2 ^ 1022) in *.
  clearbody W A B G S L M.
  (* multiply the error bound by W *)
  assert (Hlo : (2 * (Zpos N * B) * M - Zpos N * B) * W <= 2 * (Zpos p * A) * W)
    by (apply Z.mul_le_mono_nonneg_r; lia).
  assert (Hhi : 2 * (Zpos p * A) * W <= (2 * (Zpos N * B) * M + Zpos N * B) * W)
    by (apply Z.mul_le_mono_nonneg_r; lia).
  replace ((2 * (Zpos N * B) * M - Zpos N * B) * W)
    with (2 * Zpos N * (M * (B * W)) - Zpos N * (B * W)) in Hlo by ring.
  replace ((2 * (Zpos N * B) * M + Zpos N * B) * W)
    with (2 * Zpos N * (M * (B * W)) + Zpos N * (B * W)) in Hhi by ring.
  replace (2 * (Zpos p * A) * W) with (2 * Zpos p * (A * W)) in Hlo, Hhi by ring.
  rewrite H1, H2 in Hlo, Hhi.
  assert (Zpos N * G <= Zpos N * L) by (apply Z.mul_le_mono_nonneg_l; lia).
  lia.
Qed.

Lemma C100_value : Zpos C100 = 100 * 2 ^ 46.
Proof. reflexivity. Qed.

(** The product by one hundred, scaled by [2 ^ 1120], is off by at most
    [2 ^ -47] when the factor is at most one. *)
Lemma mul100_error f M E :
  rounded_to f M E -> -1074 <= E <= -52 ->
  SFval 1074 f <= 2 ^ 1074 ->
  2 * SFval 1120 (mul100 f) - 2 ^ 1074
  <= 2 * (Zpos C100 * SFval 1074 f)
  <= 2 * SFval 1120 (mul100 f) + 2 ^ 1074.
Proof.
  intros [[-> ->]|(mo & eo & -> & HM & He & Hmo)] HE Hle.
  - cbn [mul100 SFmul hundred SFval]. lia.
  - cbn [SFval] in *.
    destruct (mul_E_range mo eo Hmo ltac:(lia)) as [H1 H2].
    unfold mul100.
    rewrite (rounded_to_val _ _ _ 1120 (mul100_value mo eo Hmo ltac:(lia))) by lia.
    pose proof (pow2_pos (eo + 1074) ltac:(lia)) as Hpw.
    pose proof (pow2_pos (- eo) ltac:(lia)) as Hpn.
    (* the factor is at most one, so its mantissa is at most 2 ^ - eo *)
    assert (Hsplit : 2 ^ 1074 = 2 ^ (- eo) * 2 ^ (eo + 1074)).
    { rewrite <- pow2_split by lia. f_equal. lia. }
    assert (Hmo1 : Zpos mo <= 2 ^ (- eo)).
    { rewrite Hsplit in Hle. apply Z.mul_le_mono_pos_r in Hle; lia. }
    (* hence the product is below 2 ^ 7 and is rounded at exponent -46 or below *)
    assert (HE2 : mul_E mo eo <= -46).
    { unfold mul_E. rewrite Z.div_mul_cancel_l, Z.div_1_r by lia.
      assert (Hd : Zdigits2 (Zpos mo * Zpos C100) <= 53 - eo).
      { apply Zdigits2_le; try lia.
        replace (53 - eo) with (- eo + 53) by lia. rewrite pow2_split by lia.
        assert (Zpos C100 < 2 ^ 53) by (unfold C100; lia). nia. }
      rewrite fexp_eq. lia. }
    unfold mul_M.
    set (E2 := mul_E mo eo) in *.
    pose proof (pow2_pos (E2 - (eo - 46)) ltac:(lia)) as Hpk.
    pose proof (rne_scode_error (2 * (Zpos mo * Zpos C100)) (1 * 2 ^ (E2 - (eo - 46)))
                  ltac:(lia) ltac:(lia)) as Herr.
    set (M2 := rne (scode (2 * (Zpos mo * Zpos C100)) (1 * 2 ^ (E2 - (eo - 46))))) in *.
    assert (H3 : 2 ^ (E2 - (eo - 46)) * 2 ^ (eo + 1074) = 2 ^ (E2 + 1120)).
    { rewrite <- pow2_split by lia. f_equal. lia. }
    assert (H4 : 2 ^ (E2 + 1120) <= 2 ^ 1074) by (apply Z.pow_le_mono_r; lia).
    set (K := 2 ^ (E2 - (eo - 46))) in *. set (W := 2 ^ (eo + 1074)) in *.
    set (G := 2 ^ (E2 + 1120)) in *. set (S := 2 ^ 1074) in *.
    set (c := Zpos C100) in *. set (m := Zpos mo) in *.
    clearbody K W G S M2 c m.
    assert (Hlo : (2 * (1 * K) * M2 - 1 * K) * W <= 2 * (m * c) * W)
      by (apply Z.mul_le_mono_nonneg_r; lia).
    assert (Hhi : 2 * (m * c) * W <= (2 * (1 * K) * M2 + 1 * K) * W)
      by (apply Z.mul_le_mono_nonneg_r; lia).
    replace ((2 * (1 * K) * M2 - 1 * K) * W) with (2 * (M2 * (K * W)) - K * W) in Hlo by ring.
    replace ((2 * (1 * K) * M2 + 1 * K) * W) with (2 * (M2 * (K * W)) + K * W) in Hhi by ring.
    replace (2 * (m * c) * W) with (2 * (c * (m * W))) in Hlo, Hhi by ring.
    rewrite H3 in Hlo, Hhi. lia.
Qed.

Lemma fdiv_le_one p N : (p <= N)%positive -> SFval 1074 (fdiv p N) <= 2 ^ 1074.
Proof.
  intros H. pose proof (fdiv_mono p N N H ltac:(lia)) as Hm.
  rewrite fdiv_same in Hm. cbn [SFval] in Hm.
  replace (-52 + 1074) with 1022 in Hm by lia.
  change (Zpos (2 ^ 52)) with (2 ^ 52) in Hm.
  rewrite <- pow2_split in Hm by lia. exact Hm.
Qed.

(** The percentage, scaled by [2 ^ 1120], against the exact [100 p / N]. *)
Lemma pct_error p N :
  (p <= N)%positive ->
  2 * Zpos N * SFval 1120 (mul100 (fdiv p N)) - 164 * Zpos N * 2 ^ 1068
  <= 200 * Zpos p * 2 ^ 1120
  <= 2 * Zpos N * SFval 1120 (mul100 (fdiv p N)) + 164 * Zpos N * 2 ^ 1068.
Proof.
  intros H.
  pose proof (div_E_range p N H) as HE. pose proof (div_s_range p N H) as Hs.
  pose proof (mul100_error _ _ _ (SFdiv_value p N H) ltac:(lia) (fdiv_le_one p N H)) as HA.
  fold (fdiv p N) in HA.
  pose proof (fdiv_error p N H) as HB.
  pose proof (SFval_nonneg 1074 (fdiv p N)) as HQ.
  pose proof (SFval_nonneg 1120 (mul100 (fdiv p N))) as HR.
  rewrite C100_value in HA.
  assert (E1 : 2 ^ 1074 = 64 * 2 ^ 1068) by reflexivity.
  assert (E2 : 2 ^ 1022 * 2 ^ 46 = 2 ^ 1068) by reflexivity.
  assert (E3 : 2 ^ 1120 = 2 ^ 46 * (64 * 2 ^ 1068)) by reflexivity.
  rewrite E1 in HA, HB. rewrite E3.
  set (R := SFval 1120 (mul100 (fdiv p N))) in *.
  set (Q := SFval 1074 (fdiv p N)) in *.
  set (U := 2 ^ 1068) in *. set (L := 2 ^ 1022) in *. set (c := 2 ^ 46) in *.
  assert (HU : 0 < U) by (unfold U; lia).
  assert (Hc : 0 < c) by (unfold c; lia).
  clearbody R Q U L c.
  (* HA times N, HB times 100 c *)
  assert (HA1 : Zpos N * (2 * R - 64 * U) <= Zpos N * (2 * (100 * c * Q)))
    by (apply Z.mul_le_mono_nonneg_l; lia).
  assert (HA2 : Zpos N * (2 * (100 * c * Q)) <= Zpos N * (2 * R + 64 * U))
    by (apply Z.mul_le_mono_nonneg_l; lia).
  assert (HB1 : 100 * c * (2 * Zpos N * Q - Zpos N * L) <= 100 * c * (2 * Zpos p * (64 * U)))
    by (apply Z.mul_le_mono_nonneg_l; lia).
  assert (HB2 : 100 * c * (2 * Zpos p * (64 * U)) <= 100 * c * (2 * Zpos N * Q + Zpos N * L))
    by (apply Z.mul_le_mono_nonneg_l; lia).
  assert (HL : 100 * c * (Zpos N * L) = 100 * Zpos N * U) by (rewrite <- E2; ring).
  nia.
Qed.

(** The percentage is the exact floor of [100 p / N] up to one; with
    fewer than [2 ^ 45] shapes it never exceeds the exact floor. *)
Lemma pct_near_floor p N :
  (p <= N)%positive ->
  100 * Zpos p / Zpos N - 1 <= pct p N <= 100 * Zpos p / Zpos N + 1
  /\ (Zpos N < 2 ^ 45 -> pct p N <= 100 * Zpos p / Zpos N).
Proof.
  intros H. pose proof (pct_error p N H) as Herr. unfold pct.
  pose proof (SFval_nonneg 1120 (mul100 (fdiv p N))) as HR.
  set (R := SFval 1120 (mul100 (fdiv p N))) in *. clearbody R.
  pose proof (Z.div_mod (100 * Zpos p) (Zpos N) ltac:(lia)) as Hdm.
  pose proof (Z.mod_pos_bound (100 * Zpos p) (Zpos N) ltac:(lia)) as Hrho.
  set (F := 100 * Zpos p / Zpos N) in *. set (rho := (100 * Zpos p) mod Zpos N) in *.
  assert (HF : 0 <= F) by (apply Z.div_pos; lia).
  clearbody F rho.
  assert (E1 : 2 ^ 1120 = 2 ^ 52 * 2 ^ 1068) by reflexivity.
  assert (E2 : 2 ^ 45 * 2 ^ 7 = 2 ^ 52) by reflexivity.
  rewrite E1 in *.
  set (U := 2 ^ 1068) in *. assert (HU : 0 < U) by (unfold U; lia). clearbody U.
  set (B := 2 ^ 52) in *. assert (HB : 164 < B) by (unfold B; lia).
  assert (HB' : B = 2 ^ 45 * 128) by (unfold B; reflexivity).
  clearbody B.
  assert (HS : 0 < B * U) by nia.
  split; [split|].
  - apply Z.div_le_lower_bound; [lia|].
    (* N * (B U (F - 1)) <= N * R *)
    apply (Z.mul_le_mono_pos_l _ _ (2 * Zpos N)); [lia|]. nia.
  - enough (R / (B * U) < F + 2) by lia.
    apply Z.div_lt_upper_bound; [lia|].
    apply (Z.mul_lt_mono_pos_l (2 * Zpos N)); [lia|]. nia.
  - intros HN. enough (R / (B * U) < F + 1) by lia.
    apply Z.div_lt_upper_bound; [lia|].
    apply (Z.mul_lt_mono_pos_l (2 * Zpos N)); [lia|].
    assert (H164 : 164 * Zpos N * U < 2 * (B * U)).
    { rewrite HB'. set (T := 2 ^ 45) in *. assert (0 < T) by (unfold T; lia).
      clearbody T. nia. }
    nia.
Qed.

(** X15. The percentage differs from the exact floor of
    [100 * processed / total] by at most one, and with fewer than
    [2 ^ 45] shapes it is the exact floor or one less. *)
Theorem percentage_within_one_of_floor (p N : Z) :
  1 <= p <= N ->
  exists v,
    percentage p N = Ok v
    /\ 100 * p / N - 1 <= v <= 100 * p / N + 1
    /\ (N < 2 ^ 45 -> v <= 100 * p / N).
Proof.
  intros H. exists (pctZ p N). split; [apply percentage_ok; exact H|].
  unfold pctZ. destruct p as [|p|p]; try lia. destruct N as [|N|N]; try lia.
  cbn [Z.to_pos]. apply pct_near_floor. lia.
Qed.

Lemma percentage_within_one_of_floor_witness :
  1 <= 29 <= 100
  /\ percentage 29 100 = Ok 28
  /\ exists v,
       percentage 29 100 = Ok v
       /\ 100 * 29 / 100 - 1 <= v <= 100 * 29 / 100 + 1
       /\ (100 < 2 ^ 45 -> v <= 100 * 29 / 100).
Proof.
  assert (H : 1 <= 29 <= 100) by lia.
  split; [exact H|]. split; [vm_compute; reflexivity|].
  exact (percentage_within_one_of_floor 29 100 H).
Defined.

(** X16. With fewer than [2 ^ 45] shapes, the percentage is 100 for the
    last shape and only for it. *)
Theorem hundred_only_for_the_last_shape (p N : Z) :
  1 <= p <= N -> N < 2 ^ 45 ->
  (percentage p N = Ok 100 <-> p = N).
Proof.
  intros H HN. rewrite (percentage_ok p N H). split.
  - intros Hv. injection Hv as Hv.
    assert (p = N \/ p < N) as [Heq|Hlt] by lia; [exact Heq|exfalso].
    assert (Hb : pctZ p N <= 100 * p / N).
    { unfold pctZ. destruct p as [|p|p]; try lia. destruct N as [|N|N]; try lia.
      cbn [Z.to_pos]. apply pct_near_floor; lia. }
    assert (100 * p / N < 100) by (apply Z.div_lt_upper_bound; lia).
    lia.
  - intros ->. f_equal. apply pctZ_full. lia.
Qed.

Lemma hundred_only_for_the_last_shape_witness :
  1 <= 7 <= 7 /\ 7 < 2 ^ 45 /\ percentage 7 7 = Ok 100.
Proof.
  assert (H : 1 <= 7 <= 7) by lia.
  assert (HN : 7 < 2 ^ 45) by reflexivity.
  split; [exact H|]. split; [exact HN|].
  exact (proj2 (hundred_only_for_the_last_shape 7 7 H HN) eq_refl).
Defined.

(** X17. The percentage raises the division-by-zero error exactly when
    the total is zero, whatever the number of processed shapes. *)
Theorem percentage_zero_total (p N : Z) :
  percentage p N = Raise "division by zero" <-> N = 0.
Proof.
  split.
  - intros H. destruct N as [|N|N]; [reflexivity| |]; exfalso;
      unfold percentage, PyFloat.int_truediv in H; cbn [PyFloat.sign_magnitude] in H;
      destruct p as [|p|p]; cbn [PyFloat.sign_magnitude] in H;
      try (cbn in H; discriminate);
      match type of H with
      | context [SFdiv ?a ?b ?x ?y] => destruct (SFdiv a b x y) as [s|s| |s m e]
      end;
      try discriminate;
      match type of H with
      | PyFloat.to_int ?f = _ => destruct f as [s'|s'| |s' m' e']
      end; discriminate.
  - intros ->. unfold percentage, PyFloat.int_truediv. reflexivity.
Qed.
